(** * Grex localization scripts: status reconciliation and translation

    A shallow embedding of [Scripts/translate_remaining_entries.py] and the
    properties of its status classifier, translation gateway and
    reconciliation driver.

    Modelling conventions.
    - A Python [str] is a [string]; a character is read as a code point
      below 256.
    - A [.resw] tree is the list of its [<data>] elements in document
      order.  Elements are never removed or reordered by the script, so a
      reference to an element is its index in that list.
    - Writing a tree and parsing it back gives the same list of elements
      (the XML layer is the external collaborator), so a file is
      identified with its tree.  This leaves out what the XML layer does
      to some texts: a carriage return that is written comes back as a
      line feed, and a file that holds a control character is refused
      when it is parsed again.  The properties are about the trees that
      the script builds.
    - A Python [dict] is an association list in insertion order with
      unique keys.
    - The translation service is a deterministic function of the history
      of calls and sleeps so far and of the arguments of the call. *)

From Stdlib Require Import String Ascii ZArith QArith Lia.
From stdpp Require Import base list strings.

(** Python's [==] on strings. *)
Local Infix "=s=" := String.eqb (at level 70, no associativity).

(** ** Python string operations *)

Module Py.

(** [bool(s)] for a string. *)
Definition truthy (s : string) : bool := negb (s =s= "").

(** [bool(x)] for an [Optional[str]]. *)
Definition truthy_opt (x : option string) : bool :=
  match x with
  | Some s => truthy s
  | None => false
  end.

(** [c.isspace()], on code points below 256. *)
Definition isspace (c : ascii) : bool :=
  let n := nat_of_ascii c in
  ((9 <=? n) && (n <=? 13)) || ((28 <=? n) && (n <=? 32))
  || (n =? 133) || (n =? 160).

Fixpoint lstrip (s : string) : string :=
  match s with
  | EmptyString => EmptyString
  | String c r => if isspace c then lstrip r else s
  end.

Fixpoint rstrip (s : string) : string :=
  match s with
  | EmptyString => EmptyString
  | String c r =>
      match rstrip r with
      | EmptyString =>
          if isspace c then EmptyString else String c EmptyString
      | r' => String c r'
      end
  end.

(** [s.strip()] *)
Definition strip (s : string) : string := rstrip (lstrip s).

(** [s.startswith(p)] *)
Definition startswith (s p : string) : bool := String.prefix p s.

(** [sub in s] *)
Fixpoint contains (sub s : string) : bool :=
  String.prefix sub s ||
  match s with
  | EmptyString => false
  | String _ r => contains sub r
  end.

(** [c.lower()], on code points below 256. *)
Definition lower_char (c : ascii) : ascii :=
  let n := nat_of_ascii c in
  if ((65 <=? n) && (n <=? 90))
     || ((192 <=? n) && (n <=? 222) && negb (n =? 215))
  then ascii_of_nat (n + 32) else c.

Fixpoint lower (s : string) : string :=
  match s with
  | EmptyString => EmptyString
  | String c r => String (lower_char c) (lower r)
  end.

(** [s.split(sep)[0]] for a one-character separator. *)
Fixpoint split_head (sep : ascii) (s : string) : string :=
  match s with
  | EmptyString => EmptyString
  | String c r => if Ascii.eqb c sep then EmptyString
                  else String c (split_head sep r)
  end.

(** The longest prefix of [s] without the character [stop], and the
    rest. *)
Fixpoint span_not (stop : ascii) (s : string) : string * string :=
  match s with
  | EmptyString => (EmptyString, EmptyString)
  | String c r =>
      if Ascii.eqb c stop then (EmptyString, s)
      else let (a, b) := span_not stop r in (String c a, b)
  end.

(** [s[n:]] *)
Fixpoint drop_chars (n : nat) (s : string) : string :=
  match n, s with
  | S n', String _ r => drop_chars n' r
  | _, _ => s
  end.

(** [any(indicator in s for indicator in indicators)] *)
Definition any_in (indicators : list string) (s : string) : bool :=
  existsb (fun indicator => contains indicator s) indicators.

End Py.

(** ** Dictionaries in insertion order *)

Abbreviation dict V := (list (string * V)).

Fixpoint dict_get {V} (k : string) (d : dict V) : option V :=
  match d with
  | [] => None
  | (k', v) :: r => if k' =s= k then Some v else dict_get k r
  end.

(** [d.get(k, dflt)] *)
Definition dict_get_or {V} (k : string) (dflt : V) (d : dict V) : V :=
  match dict_get k d with
  | Some v => v
  | None => dflt
  end.

(** [k in d] *)
Definition dict_mem {V} (k : string) (d : dict V) : bool :=
  match dict_get k d with
  | Some _ => true
  | None => false
  end.

(** [d[k] = v]: a known key keeps its place, a new key goes last. *)
Fixpoint dict_set {V} (k : string) (v : V) (d : dict V) : dict V :=
  match d with
  | [] => [(k, v)]
  | (k', v') :: r =>
      if k' =s= k then (k, v) :: r else (k', v') :: dict_set k v r
  end.

Definition dict_keys {V} (d : dict V) : list string := d.*1.

(** ** The resource tree *)

(** One [<data>] element: its [name] attribute, the text of its [<value>]
    child ([None] when there is no such child, the empty string when the
    child has no text) and the text of its [<comment>] child ([None] when
    there is no child or no text). *)
Record data_elem := DataElem {
  elem_name : option string;
  elem_value : option string;
  elem_comment : option string
}.

Global Instance data_elem_eq_dec : EqDecision data_elem.
Proof. solve_decision. Defined.

Definition get_comment_status (data : data_elem) : option string :=
  match elem_comment data with
  | Some text => if Py.truthy text then Some (Py.strip text) else None
  | None => None
  end.

Definition set_comment_status (status : string) (data : data_elem)
  : data_elem :=
  {| elem_name := elem_name data;
     elem_value := elem_value data;
     elem_comment := Some status |}.

(** [value_elem.text or ''] when there is a value child. *)
Definition value_text (data : data_elem) : string :=
  default "" (elem_value data).

Definition TECHNICAL_KEYS : list string :=
  [ "AppName";
    "KBComboBoxItem.Content";
    "MBComboBoxItem.Content";
    "GBComboBoxItem.Content";
    "URLPresetButton.Content" ].

(** [key in TECHNICAL_KEYS] *)
Definition is_technical (key : string) : bool :=
  existsb (String.eqb key) TECHNICAL_KEYS.

(** [key == 'AppName' or key in ['KBComboBoxItem.Content',
    'MBComboBoxItem.Content', 'GBComboBoxItem.Content']] *)
Definition is_app_or_unit (key : string) : bool :=
  (key =s= "AppName")
  || existsb (String.eqb key)
       [ "KBComboBoxItem.Content"; "MBComboBoxItem.Content";
         "GBComboBoxItem.Content" ].

(** The first result of [parse_resw_file]: name -> value, over the
    elements that have a name and a value child. *)
Definition parse_entries (tree : list data_elem) : dict string :=
  fold_left
    (fun entries data =>
       match elem_name data, elem_value data with
       | Some name, Some text =>
           if Py.truthy name then dict_set name text entries else entries
       | _, _ => entries
       end)
    tree [].

(** The lookup [name -> data element] that [update_resw_file] and [main]
    build from the tree: every element with a name, the last one winning. *)
Definition tree_data_elements (tree : list data_elem) : dict nat :=
  fold_left
    (fun elements '(i, data) =>
       match elem_name data with
       | Some name =>
           if Py.truthy name then dict_set name i elements else elements
       | None => elements
       end)
    (imap pair tree) [].

(** ** Status classifier: [find_untranslated_entries] *)

Definition status_complete : string := "status:complete".
Definition status_incomplete : string := "status:incomplete".
Definition status_error_permanent : string := "status:error:permanent".
Definition status_error_prefix : string := "status:error:".

(** [if key in target_data_elements:
       set_comment_status(target_data_elements[key], 'status:complete')] *)
Definition mark_complete_if_present (key : string)
    (target_data_elements : dict nat) (tree : list data_elem)
  : list data_elem :=
  match dict_get key target_data_elements with
  | Some i => alter (set_comment_status status_complete) i tree
  | None => tree
  end.

(** [comment_status = None], then [if key in target_data_elements:
    comment_status = get_comment_status(target_data_elements[key])] *)
Definition comment_status_of (target_data_elements : dict nat)
    (tree : list data_elem) (key : string) : option string :=
  match dict_get key target_data_elements with
  | Some i => tree !! i ≫= get_comment_status
  | None => None
  end.

(** One iteration of the loop over [english_entries.items()].  The state
    is the tree, whose elements the function mutates through
    [target_data_elements], and the [untranslated] dictionary. *)
Definition classify_entry (target_entries : dict string)
    (target_data_elements : dict nat)
    (st : list data_elem * dict string) (item : string * string)
  : list data_elem * dict string :=
  let '(tree, untranslated) := st in
  let '(key, english_value) := item in
  if is_technical key then
    (mark_complete_if_present key target_data_elements tree, untranslated)
  else if is_app_or_unit key then
    (mark_complete_if_present key target_data_elements tree, untranslated)
  else
    let comment_status :=
      comment_status_of target_data_elements tree key in
    if match comment_status with
       | Some s => s =s= status_complete
       | None => false
       end
    then st
    else if match comment_status with
            | Some s => Py.truthy s && Py.startswith s status_error_permanent
            | None => false
            end
    then st
    else
      match dict_get key target_entries with
      | None => (tree, dict_set key english_value untranslated)
      | Some target_value =>
          if negb (target_value =s= english_value) then
            (mark_complete_if_present key target_data_elements tree,
             untranslated)
          else
            match comment_status with
            | None => (tree, dict_set key english_value untranslated)
            | Some s =>
                if s =s= status_incomplete then
                  (tree, dict_set key english_value untranslated)
                else if Py.startswith s status_error_prefix then
                  (tree, dict_set key english_value untranslated)
                else st
            end
      end.

(** Returns the tree with the statuses it has set and the work list. *)
Definition find_untranslated_entries (english_entries : dict string)
    (target_entries : dict string) (target_data_elements : dict nat)
    (tree : list data_elem) : list data_elem * dict string :=
  fold_left (classify_entry target_entries target_data_elements)
    english_entries (tree, []).

(** ** Persisting results: [update_resw_file] *)

(** The branch of the loop over [translations.items()] for a key whose
    element exists. *)
Definition apply_translation (english_entries : dict string)
    (translation_errors : dict string) (key : string)
    (translated_value : option string) (data : data_elem) : data_elem :=
  let current_value := value_text data in
  let english_value := dict_get_or key "" english_entries in
  if negb (current_value =s= english_value) then
    set_comment_status status_complete data
  else
    let data :=
      {| elem_name := elem_name data;
         elem_value := Some (value_text data);
         elem_comment := elem_comment data |} in
    match translated_value with
    | Some text =>
        if Py.truthy text then
          set_comment_status status_complete
            {| elem_name := elem_name data;
               elem_value := Some text;
               elem_comment := elem_comment data |}
        else data
    | None =>
        let error_msg :=
          dict_get_or key "Translation failed" translation_errors in
        if error_msg =s= "Translation same as English" then
          set_comment_status status_complete data
        else if english_value =s= "Tab" then
          set_comment_status status_complete data
        else
          match get_comment_status data with
          | Some s =>
              if Py.truthy s && Py.startswith s status_error_prefix then
                set_comment_status status_error_permanent data
              else
                set_comment_status (status_error_prefix +:+ error_msg) data
          | None =>
              set_comment_status (status_error_prefix +:+ error_msg) data
          end
    end.

(** The element created for a key that the tree does not have. *)
Definition new_data (english_entries : dict string) (key : string)
    (translated_value : option string) : data_elem :=
  {| elem_name := Some key;
     elem_value :=
       Some (match translated_value with
             | Some text =>
                 if Py.truthy text then text
                 else dict_get_or key "" english_entries
             | None => dict_get_or key "" english_entries
             end);
     elem_comment :=
       Some (if negb (Py.truthy_opt translated_value)
             then status_incomplete else status_complete) |}.

(** One iteration of the loop over [translations.items()]; the state is
    the tree and the [tree_data_elements] lookup. *)
Definition process_translation (english_entries : dict string)
    (translation_errors : dict string)
    (st : list data_elem * dict nat) (item : string * option string)
  : list data_elem * dict nat :=
  let '(tree, elements) := st in
  let '(key, translated_value) := item in
  match dict_get key elements with
  | None =>
      (tree ++ [new_data english_entries key translated_value],
       dict_set key (length tree) elements)
  | Some i =>
      (alter (apply_translation english_entries translation_errors key
                translated_value) i tree,
       elements)
  end.

(** The body of the completion sweep, the loop "Ensure all entries have
    comment elements". *)
Definition sweep_elem (english_entries : dict string)
    (is_english_file : bool) (data : data_elem) : data_elem :=
  match elem_name data, elem_value data with
  | Some name, Some text =>
      if negb (Py.truthy name) then data
      else if is_app_or_unit name then
        set_comment_status status_complete data
      else
        match get_comment_status data with
        | Some _ => data
        | None =>
            if is_english_file then
              set_comment_status status_complete data
            else
              let english_value := dict_get_or name "" english_entries in
              if dict_mem name english_entries then
                if text =s= english_value then
                  set_comment_status status_incomplete data
                else
                  set_comment_status status_complete data
              else
                set_comment_status status_incomplete data
        end
  | _, _ => data
  end.

Definition completion_sweep (english_entries : dict string)
    (is_english_file : bool) (tree : list data_elem) : list data_elem :=
  sweep_elem english_entries is_english_file <$> tree.

(** The tree that [update_resw_file] writes back.  The four counters it
    returns only feed the printed summary and are left out. *)
Definition update_resw_file (tree : list data_elem)
    (translations : dict (option string)) (translation_errors : dict string)
    (english_entries : dict string) (is_english_file : bool)
  : list data_elem :=
  let '(tree, _) :=
    fold_left (process_translation english_entries translation_errors)
      translations (tree, tree_data_elements tree) in
  completion_sweep english_entries is_english_file tree.

(** ** Translation gateway: [translate_text] *)

(** What the run does to the outside world, oldest first: calls of
    [translator.translate(text, dest=..., src='en')] and [time.sleep]. *)
Inductive event :=
  | Translate (text dest : string)
  | Sleep (seconds : Q).

(** The outcome of one call of [translator.translate]: [result.text], or
    [str(e)] of the exception raised, which is an [AttributeError] or any
    other [Exception]. *)
Inductive response :=
  | Returned (text : string)
  | RaisedAttributeError (msg : string)
  | RaisedException (msg : string).

(** The translation service answers from the history so far and the
    arguments of the call. *)
Definition Translator := list event → string → string → response.

(** A result of [translate_text]: a value, or
    [InvalidDestinationLanguageError] raised to the caller. *)
Inductive raising (A : Type) :=
  | Value (a : A)
  | InvalidDestinationLanguageError.
Arguments Value {A} a.
Arguments InvalidDestinationLanguageError {A}.

(** [re.sub(r'^\[(HQ|MT):\s*[^\]]+\]\s*', '', text)]: a leading
    [[HQ: ...]] or [[MT: ...]] tag with a non-empty body goes, with the
    white space after it. *)
Definition text_clean (text : string) : string :=
  if String.prefix "[HQ:" text || String.prefix "[MT:" text then
    match Py.span_not "]"%char (Py.drop_chars 4 text) with
    | (String _ _, String _ rest) => Py.lstrip rest
    | _ => text
    end
  else text.

Definition api_fault_markers : list string :=
  [ "raise_Exception"; "Translator"; "object has no attribute" ].

Definition rate_limit_indicators : list string :=
  [ "rate"; "limit"; "quota"; "429"; "too many"; "throttle" ].

(** [wait_time = (attempt + 1) * 2] *)
Definition wait_time (attempt : nat) : Q :=
  inject_Z (Z.of_nat ((attempt + 1) * 2)).

(** The loop [for attempt in range(max_retries)], over the attempts that
    are left. *)
Fixpoint translate_attempts (translator : Translator)
    (text target_lang : string) (max_retries : nat) (attempts : list nat)
    (history : list event) : raising (option string) * list event :=
  match attempts with
  | [] => (Value None, history)
  | attempt :: attempts =>
      let called := history ++ [Translate text target_lang] in
      let retry :=
        if attempt <? max_retries - 1 then
          translate_attempts translator text target_lang max_retries
            attempts (called ++ [Sleep (wait_time attempt)])
        else (Value None, called) in
      match translator history text target_lang with
      | Returned translated => (Value (Some translated), called)
      | RaisedAttributeError e =>
          if Py.any_in api_fault_markers e then retry
          else (Value None, called)
      | RaisedException e =>
          let error_str := Py.lower e in
          if Py.contains "invalid destination language" error_str then
            (InvalidDestinationLanguageError, called)
          else if Py.any_in rate_limit_indicators error_str then retry
          else (Value None, called)
      end
  end.

(** [translator] is [None] when the client library is missing
    ([HAS_TRANSLATOR] false) or could not be initialised. *)
Definition translate_text (text target_lang : string)
    (translator : option Translator) (max_retries : nat)
    (history : list event) : raising (option string) * list event :=
  match translator with
  | None => (Value None, history)
  | Some translator =>
      translate_attempts translator (text_clean text) target_lang
        max_retries (seq 0 max_retries) history
  end.

Definition default_max_retries : nat := 10.

(** ** Reconciliation driver: the body of [main] for one language *)

Definition LANG_CODE_MAP : dict string :=
  [ ("af-ZA", "af"); ("am-ET", "am"); ("az-AZ", "az"); ("bs-BA", "bs");
    ("ca-ES", "ca"); ("ceb-PH", "ceb"); ("cs-CZ", "cs"); ("cy-GB", "cy");
    ("da-DK", "da"); ("de-DE", "de"); ("es-ES", "es"); ("fi-FI", "fi");
    ("fil-PH", "tl"); ("fj-FJ", "en"); ("fr-FR", "fr"); ("gl-ES", "gl");
    ("haw-US", "haw"); ("id-ID", "id"); ("it-IT", "it"); ("ja-JP", "ja");
    ("jv-Latn-ID", "jw"); ("ky-KG", "ky"); ("lb-LU", "lb"); ("lo-LA", "lo");
    ("mg-MG", "mg"); ("mi-NZ", "mi"); ("mk-MK", "mk"); ("ml-IN", "ml");
    ("mn-MN", "mn"); ("mr-IN", "mr"); ("ms-MY", "ms"); ("mt-MT", "mt");
    ("my-MM", "my"); ("ne-NP", "ne"); ("nl-NL", "nl"); ("no-NO", "no");
    ("nr-Latn-ZA", "nr"); ("nso-Latn-ZA", "nso"); ("or-IN", "or");
    ("pl-PL", "pl"); ("pt-BR", "pt"); ("pt-PT", "pt"); ("ro-RO", "ro");
    ("ru-RU", "ru"); ("rw-RW", "rw"); ("si-LK", "si"); ("sk-SK", "sk");
    ("sl-SI", "sl"); ("sm-WS", "sm"); ("sn-Latn-ZW", "sn"); ("so-SO", "so");
    ("sq-AL", "sq"); ("sr-Latn-RS", "sr"); ("ss-Latn-ZA", "ss");
    ("st-Latn-ZA", "st"); ("su-Latn-ID", "su"); ("sv-SE", "sv");
    ("sw-KE", "sw"); ("ta-IN", "ta"); ("te-IN", "te"); ("tg-TJ", "tg");
    ("th-TH", "th"); ("tk-TM", "tk"); ("tn-Latn-ZA", "tn"); ("to-TO", "to");
    ("tr-TR", "tr"); ("ts-Latn-ZA", "ts"); ("ty-Latn-PF", "ty");
    ("ug-CN", "ug"); ("uk-UA", "uk"); ("ur-PK", "ur"); ("uz-UZ", "uz");
    ("ve-Latn-ZA", "ve"); ("vi-VN", "vi"); ("xh-ZA", "xh"); ("yo-NG", "yo");
    ("zh-CN", "zh-cn"); ("zh-TW", "zh-tw"); ("zu-ZA", "zu") ].

(** [LANG_CODE_MAP.get(lang_code, lang_code.split('-')[0])] *)
Definition target_lang_code (lang_code : string) : string :=
  dict_get_or lang_code (Py.split_head "-"%char lang_code) LANG_CODE_MAP.

(** [target_lang_code == 'en' and lang_code != 'en-US'] *)
Definition unsupported_language (lang_code : string) : bool :=
  (target_lang_code lang_code =s= "en") && negb (lang_code =s= "en-US").

(** The marking of the unsupported-language path, for one element. *)
Definition mark_unsupported_elem (english_entries : dict string)
    (untranslated : dict string) (data : data_elem) : data_elem :=
  match elem_name data with
  | Some name =>
      if dict_mem name untranslated then
        match elem_value data with
        | Some current_value =>
            let english_value := dict_get_or name "" english_entries in
            if negb (current_value =s= english_value) then
              set_comment_status status_complete data
            else if english_value =s= "Tab" then
              set_comment_status status_complete data
            else
              set_comment_status status_error_permanent data
        | None => data
        end
      else data
  | None => data
  end.

Definition mark_unsupported (english_entries : dict string)
    (untranslated : dict string) (tree : list data_elem) : list data_elem :=
  mark_unsupported_elem english_entries untranslated <$> tree.

Definition BATCH_SIZE : nat := 5.

(** The variables of the translation loop that outlive an iteration, with
    the language file and the history of the outside world.  The four
    [total_*] counters only feed the printed summary and are left out. *)
Record loop_state := LoopState {
  lang_file : list data_elem;
  translations : dict (option string);
  translation_errors : dict string;
  consecutive_failures : nat;
  history : list event
}.

(** [if translations or translation_errors:] write them and clear both. *)
Definition save_batch (english_entries : dict string) (st : loop_state)
  : loop_state :=
  match translations st, translation_errors st with
  | [], [] => st
  | _, _ =>
      {| lang_file :=
           update_resw_file (lang_file st) (translations st)
             (translation_errors st) english_entries false;
         translations := [];
         translation_errors := [];
         consecutive_failures := consecutive_failures st;
         history := history st |}
  end.

(** The handler of [InvalidDestinationLanguageError] for the item [key],
    the [i]-th of [untranslated]; [history'] is the history when the
    exception arrives. *)
Definition abandon_language (english_entries : dict string)
    (untranslated : dict string) (i : nat) (key : string)
    (history' : list event) (st : loop_state) : loop_state :=
  let st := save_batch english_entries st in
  let current :=
    update_resw_file (lang_file st)
      (dict_set key None (translations st))
      (dict_set key "Invalid destination language" (translation_errors st))
      english_entries false in
  let remaining_entries := drop i untranslated in
  let batch_translations :=
    fold_left (fun d '(remaining_key, _) => dict_set remaining_key None d)
      remaining_entries [] in
  let batch_errors :=
    fold_left
      (fun d '(remaining_key, _) =>
         dict_set remaining_key "Invalid destination language" d)
      remaining_entries [] in
  {| lang_file :=
       update_resw_file current batch_translations batch_errors
         english_entries false;
     translations := [];
     translation_errors := [];
     consecutive_failures := consecutive_failures st;
     history := history' |}.

(** What an iteration records for [key] once [translate_text] has
    returned [translated]. *)
Definition record_result (key english_value : string)
    (translated : option string) (history' : list event) (st : loop_state)
  : loop_state :=
  match translated with
  | None =>
      let failures := S (consecutive_failures st) in
      {| lang_file := lang_file st;
         translations := dict_set key None (translations st);
         translation_errors :=
           dict_set key "Translation service returned None"
             (translation_errors st);
         consecutive_failures := if 5 <=? failures then 0 else failures;
         history :=
           history' ++ [Sleep (if 5 <=? failures then 2 else 2 # 10)] |}
  | Some translated =>
      if Py.strip translated =s= Py.strip english_value then
        {| lang_file := lang_file st;
           translations := dict_set key None (translations st);
           translation_errors :=
             dict_set key "Translation same as English"
               (translation_errors st);
           consecutive_failures := 0;
           history := history' ++ [Sleep (2 # 10)] |}
      else
        {| lang_file := lang_file st;
           translations := dict_set key (Some translated) (translations st);
           translation_errors := translation_errors st;
           consecutive_failures := 0;
           history := history' ++ [Sleep (2 # 10)] |}
  end.

(** The [else] of [if translator:]. *)
Definition record_unavailable (key : string) (st : loop_state)
  : loop_state :=
  {| lang_file := lang_file st;
     translations := dict_set key None (translations st);
     translation_errors :=
       dict_set key "Translator not available" (translation_errors st);
     consecutive_failures := consecutive_failures st;
     history := history st |}.

(** [(i % BATCH_SIZE == 0) or (i == len(untranslated))] *)
Definition should_save (untranslated : dict string) (i : nat) : bool :=
  (i mod BATCH_SIZE =? 0) || (i =? length untranslated).

(** The loop [for i, (key, english_value) in
    enumerate(untranslated.items(), 1)], from the [i]-th item on, [items]
    being the items that are left.  The boolean tells whether the loop
    was left by [break]. *)
Fixpoint translate_loop (translator : option Translator)
    (english_entries : dict string) (lang : string)
    (untranslated : dict string) (i : nat) (items : dict string)
    (st : loop_state) : loop_state * bool :=
  match items with
  | [] => (st, false)
  | (key, english_value) :: items =>
      let continue st :=
        translate_loop translator english_entries lang untranslated (S i)
          items
          (if should_save untranslated i
           then save_batch english_entries st else st) in
      match translator with
      | Some _ =>
          match translate_text english_value lang translator
                  default_max_retries (history st) with
          | (InvalidDestinationLanguageError, history') =>
              (abandon_language english_entries untranslated i key history'
                 st, true)
          | (Value translated, history') =>
              continue (record_result key english_value translated history'
                          st)
          end
      | None => continue (record_unavailable key st)
      end
  end.

(** The statements of that body up to the work list: the first sweep,
    which backfills the comments, and the classification of the swept
    file.  Returns the tree written back and [untranslated]. *)
Definition classify_language (english_entries : dict string)
    (tree : list data_elem) : list data_elem * dict string :=
  let tree := update_resw_file tree [] [] english_entries false in
  let target_entries := parse_entries tree in
  find_untranslated_entries english_entries target_entries
    (tree_data_elements tree) tree.

(** The body of the loop [for lang_code in languages] of [main], for a
    language whose file exists: the file written back and the history. *)
Definition process_language (translator : option Translator)
    (english_entries : dict string) (lang_code : string)
    (tree : list data_elem) (history0 : list event)
  : list data_elem * list event :=
  let '(tree, untranslated) := classify_language english_entries tree in
  match untranslated with
  | [] => (tree, history0)
  | _ =>
      if unsupported_language lang_code then
        (mark_unsupported english_entries untranslated tree, history0)
      else
        let '(st, _) :=
          translate_loop translator english_entries
            (target_lang_code lang_code) untranslated 1 untranslated
            {| lang_file := tree;
               translations := [];
               translation_errors := [];
               consecutive_failures := 0;
               history := history0 |} in
        (lang_file st, history st ++ [Sleep 1])
  end.

(** The English file is only swept:
    [update_resw_file(english_file, {}, {}, english_entries,
    is_english_file=True)]. *)
Definition process_english (english_tree : list data_elem)
  : list data_elem :=
  update_resw_file english_tree [] [] (parse_entries english_tree) true.

(** ** Notions used to state the properties *)

(** The content rule of the sweep for an entry without a marker: complete
    in the English file; elsewhere complete when the value differs from
    the English value, incomplete when it equals it or when the key is
    not an English key. *)
Definition backfilled_status (english_entries : dict string)
    (is_english_file : bool) (name text : string) : string :=
  if is_english_file then status_complete
  else match dict_get name english_entries with
       | Some english_value =>
           if text =s= english_value then status_incomplete
           else status_complete
       | None => status_incomplete
       end.

(** [tree_data_elements.get(key)]: the element that the script's lookup
    resolves [key] to. *)
Definition lookup_element (tree : list data_elem) (key : string)
  : option nat :=
  dict_get key (tree_data_elements tree).

(** The two classes of failures that [translate_text] retries: a client
    fault, an [AttributeError] whose text has one of the markers, and a
    rate limit, another exception whose lowered text has one of the
    indicators and is not the invalid-language error. *)
Definition retryable (r : response) : bool :=
  match r with
  | Returned _ => false
  | RaisedAttributeError e => Py.any_in api_fault_markers e
  | RaisedException e =>
      negb (Py.contains "invalid destination language" (Py.lower e))
      && Py.any_in rate_limit_indicators (Py.lower e)
  end.

(** What [translate_text] gives its caller for the answer it stops at. *)
Definition surfaced (r : response) : raising (option string) :=
  match r with
  | Returned translated => Value (Some translated)
  | RaisedAttributeError _ => Value None
  | RaisedException e =>
      if Py.contains "invalid destination language" (Py.lower e)
      then InvalidDestinationLanguageError else Value None
  end.

(** The history when the attempt of index [a] starts: every earlier
    attempt [j] was a call followed by a sleep of [(j + 1) * 2]. *)
Definition attempts_history (text lang : string) (history : list event)
    (a : nat) : list event :=
  history
  ++ flat_map
       (fun j => [Translate text lang;
                  Sleep (inject_Z (Z.of_nat ((j + 1) * 2)))])
       (seq 0 a).

(** The conditions under which the classifier puts the item
    [(key, english_value)] on the work list, read on the tree that the
    classification starts from. *)
Definition may_enqueue (target_entries : dict string)
    (target_data_elements : dict nat) (tree : list data_elem)
    (key english_value : string) : Prop :=
  is_technical key = false
  ∧ comment_status_of target_data_elements tree key ≠ Some status_complete
  ∧ (∀ s, comment_status_of target_data_elements tree key = Some s →
          Py.startswith s status_error_permanent = false)
  ∧ (dict_get key target_entries = None
     ∨ dict_get key target_entries = Some english_value).

(** The sweep leaves the element as it is. *)
Definition swept (english_entries : dict string) (data : data_elem) : Prop :=
  sweep_elem english_entries false data = data.

(** No key of [keys] is resolved to the element at [p]. *)
Definition untargeted (tree : list data_elem) (keys : list string) (p : nat)
  : Prop :=
  ∀ key, key ∈ keys → lookup_element tree key ≠ Some p.

(** What write-backs whose translations have their keys in [keys] keep of
    a tree: the swept elements that no such key is resolved to, and what
    the other keys are resolved to. *)
Definition steady (english_entries : dict string) (keys : list string)
    (tree tree' : list data_elem) : Prop :=
  (∀ p e, tree !! p = Some e → swept english_entries e →
          untargeted tree keys p →
          tree' !! p = Some e ∧ untargeted tree' keys p)
  ∧ (∀ key, key ∉ keys →
            lookup_element tree' key = lookup_element tree key).

(** The status of an entry when the classifier reads it, after the first
    sweep of the run. *)
Definition status_at_classification (english_entries : dict string)
    (data : data_elem) : option string :=
  get_comment_status (sweep_elem english_entries false data).

Local Abbreviation set_complete := (set_comment_status status_complete).

(** The calls of a history, oldest first: the text sent and the
    destination language of each. *)
Fixpoint calls (history : list event) : list (string * string) :=
  match history with
  | [] => []
  | Translate text dest :: history => (text, dest) :: calls history
  | Sleep _ :: history => calls history
  end.

(** The time slept in a history, in seconds. *)
Fixpoint total_sleep (history : list event) : Q :=
  match history with
  | [] => 0
  | Translate _ _ :: history => total_sleep history
  | Sleep seconds :: history => seconds + total_sleep history
  end.

(** The service has returned [translated] to a call that [history] holds
    and that was made after the events of [since]: a call for [text] and
    the language [dest]. *)
Definition answered_in (translator : option Translator)
    (since history : list event) (text dest translated : string) : Prop :=
  ∃ tr before,
    translator = Some tr
    ∧ since `prefix_of` before
    ∧ (before ++ [Translate text dest]) `prefix_of` history
    ∧ tr before text dest = Returned translated.

(** * Properties *)

(** ** Dictionaries *)

Section dict_facts.
Context {V : Type}.
Implicit Types (d : dict V) (k : string) (v : V).

Lemma dict_get_set_eq k v d : dict_get k (dict_set k v d) = Some v.
Proof.
  induction d as [|[k' v'] d IH]; cbn.
  - by rewrite String.eqb_refl.
  - destruct (String.eqb_spec k' k) as [->|Hne]; cbn.
    + by rewrite String.eqb_refl.
    + by apply String.eqb_neq in Hne as ->.
Qed.

Lemma dict_get_set_ne k k' v d :
  k ≠ k' → dict_get k' (dict_set k v d) = dict_get k' d.
Proof.
  intros Hne. induction d as [|[k0 v0] d IH]; cbn.
  - by apply String.eqb_neq in Hne as ->.
  - destruct (String.eqb_spec k0 k) as [->|Hne0]; cbn.
    + by apply String.eqb_neq in Hne as ->.
    + by rewrite IH.
Qed.

Lemma dict_get_Some k v d : dict_get k d = Some v → (k, v) ∈ d.
Proof.
  induction d as [|[k0 v0] d IH]; cbn; [done|].
  destruct (String.eqb_spec k0 k) as [->|Hne].
  - intros [= ->]. left.
  - intros H. right. by apply IH.
Qed.

Lemma dict_get_None k d : dict_get k d = None ↔ k ∉ dict_keys d.
Proof.
  unfold dict_keys. induction d as [|[k0 v0] d IH]; cbn.
  - split; [intros _; apply not_elem_of_nil | done].
  - rewrite not_elem_of_cons.
    destruct (String.eqb_spec k0 k) as [->|Hne].
    + split; [done | by intros [? _]].
    + rewrite IH. split; [by split; [congruence|] | by intros [_ ?]].
Qed.

Lemma dict_get_is_Some k d : is_Some (dict_get k d) ↔ k ∈ dict_keys d.
Proof.
  rewrite <- not_eq_None_Some, dict_get_None.
  split; [apply dec_stable | tauto].
Qed.

Lemma dict_mem_true k d : dict_mem k d = true ↔ k ∈ dict_keys d.
Proof.
  rewrite <- dict_get_is_Some. unfold dict_mem.
  destruct (dict_get k d) as [v|]; split; by intros H.
Qed.

Lemma elem_of_dict_keys_set k k' v d :
  k' ∈ dict_keys (dict_set k v d) ↔ k' = k ∨ k' ∈ dict_keys d.
Proof.
  rewrite <- !dict_get_is_Some.
  destruct (decide (k = k')) as [->|Hne].
  - rewrite dict_get_set_eq. split; [by left | by eexists].
  - rewrite dict_get_set_ne by done.
    split; [by right | by intros [->|?]].
Qed.

End dict_facts.

(** ** The completion sweep *)

Lemma get_comment_status_set s e :
  Py.truthy s = true →
  get_comment_status (set_comment_status s e) = Some (Py.strip s).
Proof. unfold get_comment_status. cbn. by intros ->. Qed.

Lemma sweep_elem_name en b e : elem_name (sweep_elem en b e) = elem_name e.
Proof.
  unfold sweep_elem.
  repeat (case_match; try done).
Qed.

Lemma sweep_elem_value en b e :
  elem_value (sweep_elem en b e) = elem_value e.
Proof.
  unfold sweep_elem.
  repeat (case_match; try done).
Qed.

Lemma sweep_elem_keeps_status en b e s :
  get_comment_status e = Some s →
  (∀ name, elem_name e = Some name → is_app_or_unit name = false) →
  sweep_elem en b e = e.
Proof.
  intros Hs Happ. unfold sweep_elem.
  destruct (elem_name e) as [name|]; [|done].
  destruct (elem_value e); [|done].
  rewrite (Happ name eq_refl), Hs. by destruct (negb _).
Qed.

Lemma sweep_elem_idemp en b e :
  sweep_elem en b (sweep_elem en b e) = sweep_elem en b e.
Proof.
  unfold sweep_elem at 2 3.
  destruct (elem_name e) as [name|] eqn:Hname;
    destruct (elem_value e) as [text|] eqn:Hvalue;
    try (unfold sweep_elem; by rewrite Hname, ?Hvalue).
  destruct (Py.truthy name) eqn:Hn; cbn;
    [|unfold sweep_elem; by rewrite Hname, Hvalue, Hn].
  destruct (is_app_or_unit name) eqn:Happ.
  { unfold sweep_elem. cbn. by rewrite Hname, Hvalue, Hn, Happ. }
  destruct (get_comment_status e) as [s|] eqn:Hs.
  { apply (sweep_elem_keeps_status _ _ _ s); [done|]. congruence. }
  assert (∀ s', Py.truthy s' = true →
    sweep_elem en b (set_comment_status s' e) = set_comment_status s' e)
    as Hset.
  { intros s' Hs'.
    apply (sweep_elem_keeps_status _ _ _ (Py.strip s'));
      [by apply get_comment_status_set|].
    cbn. congruence. }
  repeat case_match; by apply Hset.
Qed.

Lemma update_resw_file_sweep_only tree en b :
  update_resw_file tree [] [] en b = completion_sweep en b tree.
Proof. done. Qed.

Lemma completion_sweep_idemp en b tree :
  completion_sweep en b (completion_sweep en b tree)
  = completion_sweep en b tree.
Proof.
  unfold completion_sweep. rewrite <- list_fmap_compose.
  apply list_fmap_ext. intros _ e _. apply sweep_elem_idemp.
Qed.

Lemma sweep_elem_marker en b e name text :
  elem_name e = Some name → Py.truthy name = true →
  elem_value e = Some text →
  ∃ marker, elem_comment (sweep_elem en b e) = Some marker ∧ marker ≠ "".
Proof.
  intros Hname Hn Hvalue. unfold sweep_elem. rewrite Hname, Hvalue, Hn. cbn.
  destruct (is_app_or_unit name); [by eexists|].
  destruct (get_comment_status e) as [s|] eqn:Hs.
  - unfold get_comment_status in Hs.
    destruct (elem_comment e) as [marker|]; [|done].
    exists marker. split; [done|]. intros ->. done.
  - repeat case_match; by eexists.
Qed.

Lemma sweep_elem_backfill en b e name text :
  elem_name e = Some name → Py.truthy name = true →
  elem_value e = Some text →
  is_app_or_unit name = false → get_comment_status e = None →
  sweep_elem en b e
  = set_comment_status (backfilled_status en b name text) e.
Proof.
  intros Hname Hn Hvalue Happ Hs. unfold sweep_elem, backfilled_status.
  rewrite Hname, Hvalue, Hn, Happ, Hs. cbn.
  unfold dict_mem, dict_get_or. by repeat case_match.
Qed.

Lemma get_comment_status_backfilled en b name text e :
  elem_comment e = Some (backfilled_status en b name text) →
  get_comment_status e = Some (backfilled_status en b name text).
Proof.
  unfold get_comment_status, backfilled_status. intros ->.
  by repeat case_match.
Qed.

(** The status after the sweep is not empty, unless the comment that the
    entry came with holds only white space. *)
Lemma sweep_elem_status_not_empty en b e name text :
  elem_name e = Some name → Py.truthy name = true →
  elem_value e = Some text →
  get_comment_status e ≠ Some "" →
  ∃ status,
    get_comment_status (sweep_elem en b e) = Some status ∧ status ≠ "".
Proof.
  intros Hname Hn Hvalue Hblank.
  destruct (is_app_or_unit name) eqn:Happ.
  { unfold sweep_elem. rewrite Hname, Hvalue, Hn, Happ. cbn [negb].
    by exists status_complete. }
  destruct (get_comment_status e) as [s|] eqn:Hs.
  - rewrite (sweep_elem_keeps_status _ _ _ s); [|done|congruence].
    exists s. split; [done|]. by intros ->.
  - rewrite (get_comment_status_backfilled en b name text).
    + eexists. split; [done|]. unfold backfilled_status.
      by repeat case_match.
    + by erewrite sweep_elem_backfill.
Qed.

(** C8, as amended.  The completion sweep, [update_resw_file] with an
    empty work list, is idempotent: sweeping a second time changes
    nothing.  After one sweep an entry, a named element with a value, has
    a comment whose text is not empty, and its status is not empty unless
    the comment it came with holds only white space.  An entry that had a
    status and is not one of the four names forced to complete is left as
    it was; an entry that had none gets the status of the content rule,
    complete in the English file and elsewhere complete or incomplete as
    its value differs from the English value or not. *)
Theorem completion_sweep_idempotent_and_total
    (english_entries : dict string) (is_english_file : bool)
    (tree : list data_elem) (p : nat) (data : data_elem)
    (name text : string) :
  let sweep t := update_resw_file t [] [] english_entries is_english_file in
  tree !! p = Some data →
  elem_name data = Some name → Py.truthy name = true →
  elem_value data = Some text →
  sweep (sweep tree) = sweep tree
  ∧ ∃ data',
      sweep tree !! p = Some data'
      ∧ elem_name data' = Some name
      ∧ elem_value data' = Some text
      ∧ (∃ marker, elem_comment data' = Some marker ∧ marker ≠ "")
      ∧ (get_comment_status data ≠ Some "" →
         ∃ status, get_comment_status data' = Some status ∧ status ≠ "")
      ∧ (get_comment_status data = None → is_app_or_unit name = false →
         elem_comment data'
         = Some (backfilled_status english_entries is_english_file name
                   text)
         ∧ get_comment_status data'
           = Some (backfilled_status english_entries is_english_file name
                     text))
      ∧ (is_Some (get_comment_status data) →
         is_app_or_unit name = false → data' = data).
Proof.
  intros sweep Hp Hname Hn Hvalue. subst sweep. cbn beta.
  rewrite !update_resw_file_sweep_only. split.
  { apply completion_sweep_idemp. }
  exists (sweep_elem english_entries is_english_file data).
  split; [unfold completion_sweep; by rewrite list_lookup_fmap, Hp|].
  split; [by rewrite sweep_elem_name|].
  split; [by rewrite sweep_elem_value|].
  split; [by eapply sweep_elem_marker|].
  split; [by eapply sweep_elem_status_not_empty|].
  split.
  - intros Hs Happ.
    assert (elem_comment (sweep_elem english_entries is_english_file data)
            = Some (backfilled_status english_entries is_english_file name
                      text)) as Hfill
      by by erewrite sweep_elem_backfill.
    split; [done|]. by apply get_comment_status_backfilled.
  - intros [s Hs] Happ. apply (sweep_elem_keeps_status _ _ _ s); [done|].
    congruence.
Qed.

(** A store that predates the status comments. *)
Lemma completion_sweep_witness :
  let en := [("Greeting", "Hello")] in
  let tree := [DataElem (Some "Greeting") (Some "Bonjour") None] in
  update_resw_file (update_resw_file tree [] [] en false) [] [] en false
  = update_resw_file tree [] [] en false
  ∧ ∃ data',
      update_resw_file tree [] [] en false !! 0 = Some data'
      ∧ elem_comment data' = Some status_complete
      ∧ get_comment_status data' = Some status_complete
      ∧ ∃ status, get_comment_status data' = Some status ∧ status ≠ "".
Proof.
  destruct (completion_sweep_idempotent_and_total
              [("Greeting", "Hello")] false
              [DataElem (Some "Greeting") (Some "Bonjour") None] 0
              (DataElem (Some "Greeting") (Some "Bonjour") None)
              "Greeting" "Bonjour"
              eq_refl eq_refl eq_refl eq_refl)
    as (Hidemp & data' & Hp & _ & _ & _ & Hstatus & Hfill & _).
  split; [exact Hidemp|].
  exists data'. split; [exact Hp|].
  destruct Hfill as [Hcomment Hget]; [reflexivity | reflexivity|].
  split; [exact Hcomment|]. split; [exact Hget|].
  apply Hstatus. discriminate.
Defined.

(** C8 as stated fails: an entry whose comment holds only white space has
    the empty status, and the sweep, which takes any comment for a marker,
    leaves it so. *)
Lemma completion_sweep_blank_counterexample :
  let en := [("Greeting", "Hello")] in
  let tree := [DataElem (Some "Greeting") (Some "Hello") (Some "  ")] in
  update_resw_file tree [] [] en false = tree
  ∧ get_comment_status (DataElem (Some "Greeting") (Some "Hello") (Some "  "))
    = Some ""
  ∧ ¬ (∃ data' status,
         update_resw_file tree [] [] en false !! 0 = Some data'
         ∧ get_comment_status data' = Some status
         ∧ status ≠ "").
Proof.
  split; [vm_compute; reflexivity|]. split; [vm_compute; reflexivity|].
  intros (data' & status & Hp & Hs & Hne). vm_compute in Hp.
  injection Hp as <-. vm_compute in Hs. by injection Hs as <-.
Qed.

(** ** The element lookup *)

Lemma tree_data_elements_snoc tree e :
  tree_data_elements (tree ++ [e])
  = match elem_name e with
    | Some name =>
        if Py.truthy name
        then dict_set name (length tree) (tree_data_elements tree)
        else tree_data_elements tree
    | None => tree_data_elements tree
    end.
Proof.
  unfold tree_data_elements.
  rewrite imap_app, fold_left_app. cbn. by rewrite Nat.add_0_r.
Qed.

Lemma lookup_element_snoc tree e key :
  lookup_element (tree ++ [e]) key
  = if decide (elem_name e = Some key ∧ Py.truthy key = true)
    then Some (length tree) else lookup_element tree key.
Proof.
  unfold lookup_element. rewrite tree_data_elements_snoc.
  destruct (elem_name e) as [name|];
    [|rewrite decide_False; [done | by intros [? _]]].
  destruct (Py.truthy name) eqn:Hn.
  - destruct (decide (name = key)) as [->|Hne].
    + by rewrite dict_get_set_eq, decide_True.
    + rewrite dict_get_set_ne by done.
      rewrite decide_False; [done | intros [? _]; congruence].
  - rewrite decide_False; [done | intros [? ?]; congruence].
Qed.

Lemma lookup_element_Some tree key p :
  lookup_element tree key = Some p →
  ∃ e, tree !! p = Some e ∧ elem_name e = Some key ∧ Py.truthy key = true.
Proof.
  induction tree as [|e tree IH] using rev_ind; [done|].
  rewrite lookup_element_snoc. case_decide as Hd.
  - intros [= <-]. exists e. by rewrite list_lookup_middle.
  - intros (e' & ? & ?)%IH. exists e'. split; [|done].
    by apply lookup_app_l_Some.
Qed.

Lemma lookup_element_lt tree key p :
  lookup_element tree key = Some p → p < length tree.
Proof.
  intros (e & He & _)%lookup_element_Some. by eapply lookup_lt_Some.
Qed.

(** The lookup only depends on the names, in order. *)
Lemma tree_data_elements_names t1 t2 :
  elem_name <$> t1 = elem_name <$> t2 →
  tree_data_elements t1 = tree_data_elements t2.
Proof.
  revert t2. induction t1 as [|e1 t1 IH] using rev_ind; intros t2 Heq.
  { symmetry in Heq. by apply fmap_nil_inv in Heq as ->. }
  rewrite fmap_app in Heq. symmetry in Heq.
  apply fmap_app_inv in Heq as (t2' & l2 & Ht & Hl & ->).
  destruct l2 as [|e2 [|]]; simplify_eq/=.
  rewrite !tree_data_elements_snoc.
  assert (length t1 = length t2') as ->.
  { by rewrite <- (length_fmap elem_name t1), Ht, length_fmap. }
  rewrite (IH t2') by done. by rewrite H.
Qed.

Lemma lookup_element_names t1 t2 key :
  elem_name <$> t1 = elem_name <$> t2 →
  lookup_element t1 key = lookup_element t2 key.
Proof.
  intros H. unfold lookup_element. by rewrite (tree_data_elements_names t1 t2).
Qed.

(** Elements appended to a tree do not change what the lookup gives
    among the elements that were there. *)
Lemma lookup_element_app_lt tree ext key p :
  lookup_element (tree ++ ext) key = Some p → p < length tree →
  lookup_element tree key = Some p.
Proof.
  induction ext as [|e ext IH] using rev_ind.
  { by rewrite app_nil_r. }
  rewrite app_assoc, lookup_element_snoc. case_decide.
  - intros [= <-]. rewrite length_app. lia.
  - done.
Qed.

Lemma lookup_element_app_other tree ext key :
  (∀ e, e ∈ ext → elem_name e ≠ Some key) →
  lookup_element (tree ++ ext) key = lookup_element tree key.
Proof.
  induction ext as [|e ext IH] using rev_ind; intros Hext.
  { by rewrite app_nil_r. }
  rewrite app_assoc, lookup_element_snoc. rewrite decide_False.
  - apply IH. intros e' He'. apply Hext, elem_of_app. by left.
  - intros [He _]. apply (Hext e); [|done].
    apply elem_of_app. right. by apply list_elem_of_singleton.
Qed.

(** ** Writing translations back *)

Lemma apply_translation_name en errs key tv e :
  elem_name (apply_translation en errs key tv e) = elem_name e.
Proof. unfold apply_translation. by repeat case_match. Qed.

Lemma fmap_name_alter (f : data_elem → data_elem) i (tree : list data_elem) :
  (∀ e, elem_name (f e) = elem_name e) →
  elem_name <$> alter f i tree = elem_name <$> tree.
Proof.
  intros Hf. apply list_eq. intros j. rewrite !list_lookup_fmap.
  destruct (decide (i = j)) as [->|].
  - rewrite list_lookup_alter_eq. destruct (tree !! j); cbn; [|done].
    by rewrite Hf.
  - by rewrite list_lookup_alter_ne.
Qed.

Section process_translation.
Context (en errs : dict string).
Implicit Types (st : list data_elem * dict nat) (e : data_elem).
Implicit Types (trs : dict (option string)) (tv : option string).
Implicit Types (key k : string) (p : nat).

(** A step leaves alone every element that its key is not resolved
    to. *)
Lemma process_translation_other st key tv p e :
  st.1 !! p = Some e → dict_get key st.2 ≠ Some p →
  (process_translation en errs st (key, tv)).1 !! p = Some e.
Proof.
  destruct st as [tree elements]. cbn. intros He Hkey.
  destruct (dict_get key elements) as [i|]; cbn.
  - rewrite list_lookup_alter_ne; [done | congruence].
  - by apply lookup_app_l_Some.
Qed.

Lemma process_translation_target st key tv p e :
  st.1 !! p = Some e → dict_get key st.2 = Some p →
  (process_translation en errs st (key, tv)).1 !! p
  = Some (apply_translation en errs key tv e)
  ∧ (process_translation en errs st (key, tv)).2 = st.2.
Proof.
  destruct st as [tree elements]. cbn. intros He ->. cbn.
  by rewrite list_lookup_alter_eq, He.
Qed.

(** New references are to new elements. *)
Lemma process_translation_elements st key tv k p :
  p < length st.1 →
  dict_get k (process_translation en errs st (key, tv)).2 = Some p →
  dict_get k st.2 = Some p.
Proof.
  destruct st as [tree elements]. cbn. intros Hp.
  destruct (dict_get key elements) as [i|] eqn:Hkey; cbn; [done|].
  destruct (decide (key = k)) as [->|Hne].
  - rewrite dict_get_set_eq. intros [= <-]. lia.
  - by rewrite dict_get_set_ne.
Qed.

Lemma process_translation_elements_keep st key tv k p :
  dict_get k st.2 = Some p →
  dict_get k (process_translation en errs st (key, tv)).2 = Some p.
Proof.
  destruct st as [tree elements]. cbn. intros Hk.
  destruct (dict_get key elements) as [i|] eqn:Hkey; cbn; [done|].
  rewrite dict_get_set_ne; [done | congruence].
Qed.

Lemma fold_process_translation_other trs st p e :
  st.1 !! p = Some e →
  (∀ key, key ∈ dict_keys trs → dict_get key st.2 ≠ Some p) →
  (fold_left (process_translation en errs) trs st).1 !! p = Some e.
Proof.
  revert st. induction trs as [|[key tv] trs IH]; intros st He Hkeys;
    [done|].
  cbn [fold_left]. apply IH.
  - apply process_translation_other; [done|].
    apply Hkeys. by left.
  - intros k Hk Hget.
    apply process_translation_elements in Hget;
      [|by eapply lookup_lt_Some].
    revert Hget. apply Hkeys. by right.
Qed.

Lemma fold_process_translation_target trs st p e k tv :
  st.1 !! p = Some e → dict_get k st.2 = Some p →
  NoDup (dict_keys trs) → (k, tv) ∈ trs →
  (∀ key, key ∈ dict_keys trs → key ≠ k → dict_get key st.2 ≠ Some p) →
  (fold_left (process_translation en errs) trs st).1 !! p
  = Some (apply_translation en errs k tv e).
Proof.
  revert st. induction trs as [|[key tv'] trs IH];
    intros st He Hk Hnodup Hin Hkeys.
  { by apply elem_of_nil in Hin. }
  cbn in Hnodup. apply NoDup_cons in Hnodup as [Hkey Hnodup].
  cbn [fold_left]. apply elem_of_cons in Hin as [[= <- <-]|Hin].
  - destruct (process_translation_target st k tv p e He Hk) as [He' Hel].
    apply fold_process_translation_other; [done|].
    rewrite Hel. intros key' Hkey'. apply Hkeys; [by right|].
    intros ->. done.
  - assert (key ≠ k) as Hne.
    { intros ->. apply Hkey.
      apply (list_elem_of_fmap_2 fst) in Hin. done. }
    apply IH; try done.
    + apply process_translation_other; [done|].
      apply Hkeys; [by left | done].
    + by apply process_translation_elements_keep.
    + intros key' Hkey' Hne' Hget.
      apply process_translation_elements in Hget;
        [|by eapply lookup_lt_Some].
      revert Hget. apply Hkeys; [by right | done].
Qed.

(** The names that were there stay, in order; the names that come are
    keys of the translations. *)
Lemma fold_process_translation_names trs st :
  ∃ ext,
    elem_name <$> (fold_left (process_translation en errs) trs st).1
    = (elem_name <$> st.1) ++ (Some <$> ext)
    ∧ ext ⊆ dict_keys trs.
Proof.
  revert st. induction trs as [|[key tv] trs IH]; intros st.
  { exists []. by rewrite app_nil_r. }
  cbn [fold_left].
  destruct (IH (process_translation en errs st (key, tv)))
    as (ext & -> & Hext).
  destruct st as [tree elements]. cbn.
  destruct (dict_get key elements) as [i|]; cbn.
  - exists ext. split.
    + by rewrite fmap_name_alter by apply apply_translation_name.
    + intros x Hx. right. by apply Hext.
  - exists (key :: ext). split.
    + by rewrite fmap_app, <- app_assoc.
    + intros x [->|Hx]%elem_of_cons; [by left|]. right. by apply Hext.
Qed.
End process_translation.

Lemma update_resw_file_lookup tree trs errs en b p :
  update_resw_file tree trs errs en b !! p
  = sweep_elem en b
      <$> (fold_left (process_translation en errs) trs
             (tree, tree_data_elements tree)).1 !! p.
Proof.
  unfold update_resw_file.
  destruct (fold_left _ _ _) as [tree' elements'] eqn:Hfold. cbn.
  unfold completion_sweep. by rewrite list_lookup_fmap.
Qed.

(** An element that no key of the translations is resolved to is only
    swept. *)
Lemma update_resw_file_other tree trs errs en b p e :
  tree !! p = Some e →
  (∀ key, key ∈ dict_keys trs → lookup_element tree key ≠ Some p) →
  update_resw_file tree trs errs en b !! p = Some (sweep_elem en b e).
Proof.
  intros He Hkeys. rewrite update_resw_file_lookup.
  by rewrite (fold_process_translation_other _ _ _ _ p e).
Qed.

(** The element that a key of the translations is resolved to gets the
    translation, then the sweep. *)
Lemma update_resw_file_target tree trs errs en b p e key tv :
  tree !! p = Some e → lookup_element tree key = Some p →
  NoDup (dict_keys trs) → (key, tv) ∈ trs →
  update_resw_file tree trs errs en b !! p
  = Some (sweep_elem en b (apply_translation en errs key tv e)).
Proof.
  intros He Hkey Hnodup Hin. rewrite update_resw_file_lookup.
  rewrite (fold_process_translation_target _ _ _ _ p e key tv); try done.
  intros key' _ Hne Hkey'.
  apply lookup_element_Some in Hkey as (e1 & He1 & Hn1 & _).
  apply lookup_element_Some in Hkey' as (e2 & He2 & Hn2 & _).
  cbn in *. congruence.
Qed.

Lemma update_resw_file_names tree trs errs en b :
  ∃ ext,
    elem_name <$> update_resw_file tree trs errs en b
    = (elem_name <$> tree) ++ (Some <$> ext)
    ∧ ext ⊆ dict_keys trs.
Proof.
  destruct (fold_process_translation_names en errs trs
              (tree, tree_data_elements tree)) as (ext & Hnames & Hext).
  exists ext. split; [|done]. cbn [fst] in Hnames. rewrite <- Hnames.
  unfold update_resw_file.
  destruct (fold_left _ _ _) as [tree' elements']. cbn.
  unfold completion_sweep. rewrite <- list_fmap_compose.
  apply list_fmap_ext. intros _ e _. apply sweep_elem_name.
Qed.

(** ** Outcomes of a write-back for one entry *)

Lemma not_technical_not_app_or_unit key :
  is_technical key = false → is_app_or_unit key = false.
Proof.
  unfold is_technical, is_app_or_unit, TECHNICAL_KEYS. cbn.
  repeat (destruct (_ =s= _); cbn; try done).
Qed.

Lemma sweep_elem_marked en b e s :
  Py.truthy s = true →
  (∀ name, elem_name e = Some name → is_app_or_unit name = false) →
  sweep_elem en b (set_comment_status s e) = set_comment_status s e.
Proof.
  intros Hs Happ.
  apply (sweep_elem_keeps_status _ _ _ (Py.strip s));
    [by apply get_comment_status_set | done].
Qed.

Lemma sweep_elem_complete en b e :
  sweep_elem en b (set_comment_status status_complete e)
  = set_comment_status status_complete e.
Proof.
  unfold sweep_elem. cbn.
  destruct (elem_name e) as [name|]; [|done].
  destruct (elem_value e); [|done].
  by repeat case_match.
Qed.

(** A failed translation of an entry that still shows the English text:
    what [apply_translation] leaves. *)
Lemma apply_translation_failed en errs key e :
  value_text e = dict_get_or key "" en →
  dict_get_or key "Translation failed" errs ≠ "Translation same as English" →
  apply_translation en errs key None e
  = set_comment_status
      (if dict_get_or key "" en =s= "Tab" then status_complete
       else match get_comment_status e with
            | Some s =>
                if Py.truthy s && Py.startswith s status_error_prefix
                then status_error_permanent
                else status_error_prefix
                     +:+ dict_get_or key "Translation failed" errs
            | None =>
                status_error_prefix
                +:+ dict_get_or key "Translation failed" errs
            end)
      {| elem_name := elem_name e;
         elem_value := Some (value_text e);
         elem_comment := elem_comment e |}.
Proof.
  intros Hvalue Herr. unfold apply_translation.
  rewrite Hvalue, String.eqb_refl. cbn.
  apply String.eqb_neq in Herr as ->.
  destruct (_ =s= "Tab"); [done|].
  unfold get_comment_status. cbn. by repeat case_match.
Qed.

Lemma apply_translation_tab en errs key e :
  dict_get_or key "" en = "Tab" →
  apply_translation en errs key None e
  = set_comment_status status_complete
      (if value_text e =s= "Tab"
       then {| elem_name := elem_name e;
               elem_value := Some (value_text e);
               elem_comment := elem_comment e |}
       else e).
Proof.
  intros Htab. unfold apply_translation. rewrite Htab.
  destruct (value_text e =s= "Tab"); cbn; [|done].
  by destruct (_ =s= "Translation same as English").
Qed.

Lemma apply_translation_same en errs key e :
  dict_get_or key "Translation failed" errs = "Translation same as English" →
  apply_translation en errs key None e
  = set_comment_status status_complete
      (if value_text e =s= dict_get_or key "" en
       then {| elem_name := elem_name e;
               elem_value := Some (value_text e);
               elem_comment := elem_comment e |}
       else e).
Proof.
  intros Hsame. unfold apply_translation. rewrite Hsame.
  by destruct (value_text e =s= _).
Qed.

(** C3, as amended.  When [update_resw_file] records a failed translation
    for an entry that still shows the English value and whose stored
    status begins with [status:error:], the status becomes
    [status:error:permanent], never a plain error again; the one exception
    is an English value that is exactly "Tab", for which the entry becomes
    complete.  The value is not changed. *)
Theorem two_strikes_escalation
    (tree : list data_elem) (translations : dict (option string))
    (translation_errors english_entries : dict string)
    (key : string) (p : nat) (data : data_elem) (s : string) :
  NoDup (dict_keys translations) →
  lookup_element tree key = Some p → tree !! p = Some data →
  is_technical key = false →
  value_text data = dict_get_or key "" english_entries →
  get_comment_status data = Some s →
  Py.startswith s status_error_prefix = true →
  (key, None) ∈ translations →
  dict_get_or key "Translation failed" translation_errors
  ≠ "Translation same as English" →
  ∃ data',
    update_resw_file tree translations translation_errors english_entries
      false !! p = Some data'
    ∧ elem_comment data'
      = Some (if dict_get_or key "" english_entries =s= "Tab"
              then status_complete else status_error_permanent)
    ∧ value_text data' = value_text data.
Proof.
  intros Hnodup Hkey Hp Htech Hvalue Hs Hprefix Hin Herr.
  erewrite update_resw_file_target by done.
  rewrite apply_translation_failed by done.
  rewrite Hs, Hprefix.
  assert (Py.truthy s = true) as ->.
  { destruct s; [|done]. by vm_compute in Hprefix. }
  cbn [andb]. eexists. split; [done|].
  apply lookup_element_Some in Hkey as (e & He & Hname & _).
  assert (e = data) as -> by congruence.
  rewrite sweep_elem_marked.
  - done.
  - by destruct (_ =s= "Tab").
  - cbn. intros name. rewrite Hname. intros [= <-].
    by apply not_technical_not_app_or_unit.
Qed.

(** A second failure for an entry stored with an error. *)
Lemma two_strikes_escalation_witness :
  let en := [("Greeting", "Hello")] in
  let tree :=
    [DataElem (Some "Greeting") (Some "Hello")
       (Some "status:error:Translation service returned None")] in
  ∃ data',
    update_resw_file tree [("Greeting", None)]
      [("Greeting", "Translation service returned None")] en false !! 0
    = Some data'
    ∧ elem_comment data' = Some status_error_permanent
    ∧ value_text data' = "Hello".
Proof.
  apply (two_strikes_escalation
           [DataElem (Some "Greeting") (Some "Hello")
              (Some "status:error:Translation service returned None")]
           [("Greeting", None)]
           [("Greeting", "Translation service returned None")]
           [("Greeting", "Hello")] "Greeting" 0
           (DataElem (Some "Greeting") (Some "Hello")
              (Some "status:error:Translation service returned None"))
           "status:error:Translation service returned None").
  - apply NoDup_singleton.
  - reflexivity.
  - reflexivity.
  - reflexivity.
  - reflexivity.
  - reflexivity.
  - reflexivity.
  - apply list_elem_of_singleton. reflexivity.
  - discriminate.
Defined.

(** C3 as stated fails: an entry stored with an error whose English value
    is "Tab" becomes complete when the translation fails again. *)
Lemma two_strikes_counterexample :
  let en := [("TabHeader.Text", "Tab")] in
  let tree :=
    [DataElem (Some "TabHeader.Text") (Some "Tab")
       (Some "status:error:Translation service returned None")] in
  let translator : Translator := λ _ _ _, RaisedException "connection reset" in
  translate_text "Tab" "fr" (Some translator) default_max_retries []
  = (Value None, [Translate "Tab" "fr"])
  ∧ process_language (Some translator) en "fr-FR" tree []
    = ([DataElem (Some "TabHeader.Text") (Some "Tab")
          (Some "status:complete")],
       [Translate "Tab" "fr"; Sleep (2 # 10); Sleep 1])
  ∧ Some "status:complete" ≠ Some status_error_permanent.
Proof.
  split; [vm_compute; reflexivity|]. split; [vm_compute; reflexivity|].
  discriminate.
Qed.

Lemma mark_unsupported_lookup en untranslated tree p :
  mark_unsupported en untranslated tree !! p
  = mark_unsupported_elem en untranslated <$> tree !! p.
Proof. unfold mark_unsupported. by rewrite list_lookup_fmap. Qed.

(** C10.  For an entry whose English value is exactly "Tab", a failed
    translation recorded by [update_resw_file] and the marking of the
    unsupported-language path both give the status complete, not an
    error status. *)
Theorem tab_failure_is_complete
    (tree : list data_elem) (translations : dict (option string))
    (translation_errors english_entries untranslated : dict string)
    (key text : string) (p : nat) (data : data_elem) :
  tree !! p = Some data →
  elem_name data = Some key → elem_value data = Some text →
  dict_get_or key "" english_entries = "Tab" →
  NoDup (dict_keys translations) →
  lookup_element tree key = Some p →
  (key, None) ∈ translations →
  dict_mem key untranslated = true →
  elem_comment
    <$> update_resw_file tree translations translation_errors
          english_entries false !! p
  = Some (Some status_complete)
  ∧ elem_comment <$> mark_unsupported english_entries untranslated tree !! p
    = Some (Some status_complete).
Proof.
  intros Hp Hname Hvalue Htab Hnodup Hkey Hin Hmem. split.
  - erewrite update_resw_file_target by done.
    rewrite apply_translation_tab by done.
    by rewrite sweep_elem_complete.
  - rewrite mark_unsupported_lookup, Hp. cbn.
    unfold mark_unsupported_elem. rewrite Hname, Hmem, Hvalue, Htab.
    by destruct (text =s= "Tab").
Qed.

(** A "Tab" entry whose translation failed. *)
Lemma tab_failure_is_complete_witness :
  let en := [("TabHeader.Text", "Tab")] in
  let tree :=
    [DataElem (Some "TabHeader.Text") (Some "Tab")
       (Some "status:incomplete")] in
  elem_comment
    <$> update_resw_file tree [("TabHeader.Text", None)]
          [("TabHeader.Text", "Translation service returned None")] en false
        !! 0
  = Some (Some status_complete)
  ∧ elem_comment <$> mark_unsupported en en tree !! 0
    = Some (Some status_complete).
Proof.
  apply (tab_failure_is_complete
           [DataElem (Some "TabHeader.Text") (Some "Tab")
              (Some "status:incomplete")]
           [("TabHeader.Text", None)]
           [("TabHeader.Text", "Translation service returned None")]
           [("TabHeader.Text", "Tab")] [("TabHeader.Text", "Tab")]
           "TabHeader.Text" "Tab" 0
           (DataElem (Some "TabHeader.Text") (Some "Tab")
              (Some "status:incomplete"))).
  - reflexivity.
  - reflexivity.
  - reflexivity.
  - reflexivity.
  - apply NoDup_singleton.
  - reflexivity.
  - apply list_elem_of_singleton. reflexivity.
  - reflexivity.
Defined.

Lemma NoDup_dict_keys_set {V} k (v : V) (d : dict V) :
  NoDup (dict_keys d) → NoDup (dict_keys (dict_set k v d)).
Proof.
  unfold dict_keys. induction d as [|[k0 v0] d IH]; cbn.
  - intros _. apply NoDup_singleton.
  - rewrite NoDup_cons. intros [Hk0 Hd].
    destruct (String.eqb_spec k0 k) as [->|Hne]; cbn.
    + by apply NoDup_cons.
    + apply NoDup_cons. split; [|by apply IH].
      fold (dict_keys (dict_set k v d)). rewrite elem_of_dict_keys_set.
      intros [?|?]; done.
Qed.

(** C6, as amended.  The driver records a result as "Translation same as
    English" exactly when the service returned a text that equals the
    English value once white space is stripped from both ends of both, not
    only when the two are identical.  An entry recorded so is marked
    complete by [update_resw_file] with its value kept, without going
    through the error statuses. *)
Theorem same_as_english_up_to_strip
    (key english_value : string) (translated : option string)
    (history' : list event) (st : loop_state)
    (tree : list data_elem) (english_entries : dict string)
    (p : nat) (data : data_elem) :
  dict_get key (translation_errors st) = None →
  NoDup (dict_keys (translations st)) →
  lookup_element tree key = Some p → tree !! p = Some data →
  let st' := record_result key english_value translated history' st in
  (dict_get key (translation_errors st') = Some "Translation same as English"
   ↔ ∃ text, translated = Some text
             ∧ Py.strip text = Py.strip english_value)
  ∧ (dict_get key (translation_errors st')
     = Some "Translation same as English" →
     ∃ data',
       update_resw_file tree (translations st') (translation_errors st')
         english_entries false !! p = Some data'
       ∧ elem_comment data' = Some status_complete
       ∧ value_text data' = value_text data).
Proof.
  intros Hfresh Hnodup Hkey Hp st'.
  assert (dict_get key (translation_errors st')
          = Some "Translation same as English"
          → (key, None) ∈ translations st'
            ∧ ∃ text, translated = Some text
                      ∧ Py.strip text = Py.strip english_value) as Hsame.
  { subst st'. unfold record_result.
    destruct translated as [text|]; cbn.
    - destruct (String.eqb_spec (Py.strip text) (Py.strip english_value));
        cbn.
      + intros _. split; [|by eauto].
        apply dict_get_Some, dict_get_set_eq.
      + by rewrite Hfresh.
    - by rewrite dict_get_set_eq. }
  split; [split|].
  - by intros [_ ?]%Hsame.
  - intros (text & -> & Heq). subst st'. unfold record_result.
    apply String.eqb_eq in Heq as ->. cbn. apply dict_get_set_eq.
  - intros Hmarker. destruct (Hsame Hmarker) as [Hin _].
    assert (NoDup (dict_keys (translations st'))) as Hnodup'.
    { subst st'. unfold record_result.
      repeat case_match; cbn; by apply NoDup_dict_keys_set. }
    erewrite update_resw_file_target by done.
    rewrite apply_translation_same
      by (unfold dict_get_or; by rewrite Hmarker).
    rewrite sweep_elem_complete. eexists. split; [done|].
    split; [done|]. by destruct (_ =s= _).
Qed.

(** The service gives back the English text. *)
Lemma same_as_english_up_to_strip_witness :
  let tree :=
    [DataElem (Some "OK.Content") (Some "OK") (Some "status:incomplete")] in
  let st :=
    {| lang_file := tree; translations := []; translation_errors := [];
       consecutive_failures := 0; history := [] |} in
  let st' := record_result "OK.Content" "OK" (Some "OK") [] st in
  dict_get "OK.Content" (translation_errors st')
  = Some "Translation same as English"
  ∧ ∃ data',
      update_resw_file tree (translations st') (translation_errors st')
        [("OK.Content", "OK")] false !! 0 = Some data'
      ∧ elem_comment data' = Some status_complete
      ∧ value_text data' = "OK".
Proof.
  intros tree st st'.
  destruct (same_as_english_up_to_strip "OK.Content" "OK" (Some "OK") [] st
              tree [("OK.Content", "OK")] 0
              (DataElem (Some "OK.Content") (Some "OK")
                 (Some "status:incomplete")))
    as [Hiff Hcomplete].
  - reflexivity.
  - apply NoDup_nil_2.
  - reflexivity.
  - reflexivity.
  - split.
    + apply Hiff. exists "OK". split; reflexivity.
    + apply Hcomplete. apply Hiff. exists "OK". split; reflexivity.
Defined.

(** C6 as stated fails: a returned text that differs from the English
    value by a trailing space is recorded as the same, and the entry
    becomes complete with its value kept. *)
Lemma same_as_english_counterexample :
  let en := [("Greeting", "Hello")] in
  let tree :=
    [DataElem (Some "Greeting") (Some "Hello") (Some "status:incomplete")] in
  let translator : Translator := λ _ text _, Returned (text +:+ " ") in
  "Hello " ≠ "Hello"
  ∧ translate_text "Hello" "fr" (Some translator) default_max_retries []
    = (Value (Some "Hello "), [Translate "Hello" "fr"])
  ∧ dict_get "Greeting"
      (translation_errors
         (record_result "Greeting" "Hello" (Some "Hello ") []
            {| lang_file := tree; translations := [];
               translation_errors := []; consecutive_failures := 0;
               history := [] |}))
    = Some "Translation same as English"
  ∧ (process_language (Some translator) en "fr-FR" tree []).1
    = [DataElem (Some "Greeting") (Some "Hello") (Some "status:complete")].
Proof.
  split; [discriminate|]. split; [vm_compute; reflexivity|].
  split; vm_compute; reflexivity.
Qed.

(** ** The retry policy of the gateway *)

Lemma attempts_history_S text lang history a :
  attempts_history text lang history (S a)
  = (attempts_history text lang history a ++ [Translate text lang])
    ++ [Sleep (wait_time a)].
Proof.
  unfold attempts_history. rewrite seq_S, flat_map_app. cbn.
  by rewrite <- !app_assoc.
Qed.

Lemma translate_attempts_policy (translator : Translator)
    (text lang : string) (history : list event) (max_retries : nat) :
  let before := attempts_history text lang history in
  let answer a := translator (before a) text lang in
  ∀ m a0, a0 + S m = max_retries →
    ∃ n, a0 ≤ n < max_retries
      ∧ translate_attempts translator text lang max_retries
          (seq a0 (S m)) (before a0)
        = (surfaced (answer n), before n ++ [Translate text lang])
      ∧ (∀ a, a0 ≤ a < n → retryable (answer a) = true)
      ∧ (n < max_retries - 1 → retryable (answer n) = false).
Proof.
  intros before answer m. induction m as [|m IH]; intros a0 Hmax.
  - exists a0. split; [lia|].
    assert ((a0 <? max_retries - 1) = false) as Hlast
      by (apply Nat.ltb_ge; lia).
    split; [|split; [intros; lia | intros; lia]].
    cbn [seq translate_attempts]. rewrite Hlast. fold (answer a0).
    destruct (answer a0) as [t|e|e] eqn:Hans; cbn [surfaced]; [done| |].
    + by destruct (Py.any_in _ _).
    + destruct (Py.contains _ _); [done|]. by destruct (Py.any_in _ _).
  - assert ((a0 <? max_retries - 1) = true) as Hmore
      by (apply Nat.ltb_lt; lia).
    destruct (IH (S a0)) as (n & Hn & Hrun & Hretried & Hstop); [lia|].
    assert (retryable (answer a0) = true →
      ∃ n, a0 ≤ n < max_retries
        ∧ translate_attempts translator text lang max_retries
            (seq (S a0) (S m))
            ((before a0 ++ [Translate text lang]) ++ [Sleep (wait_time a0)])
          = (surfaced (answer n), before n ++ [Translate text lang])
        ∧ (∀ a, a0 ≤ a < n → retryable (answer a) = true)
        ∧ (n < max_retries - 1 → retryable (answer n) = false)) as Hretry.
    { intros Hr. exists n. split; [lia|]. split.
      - subst before. cbn beta. rewrite <- attempts_history_S. apply Hrun.
      - split; [|done]. intros a Ha.
        destruct (decide (a = a0)) as [->|]; [done|]. apply Hretried. lia. }
    assert (retryable (answer a0) = false →
      ∀ res, res = surfaced (answer a0) →
      ∃ n, a0 ≤ n < max_retries
        ∧ (res, before a0 ++ [Translate text lang])
          = (surfaced (answer n), before n ++ [Translate text lang])
        ∧ (∀ a, a0 ≤ a < n → retryable (answer a) = true)
        ∧ (n < max_retries - 1 → retryable (answer n) = false)) as Hstop0.
    { intros Hr res ->. exists a0. split; [lia|]. split; [done|].
      split; [intros; lia | done]. }
    change (seq a0 (S (S m))) with (a0 :: seq (S a0) (S m)).
    cbn [translate_attempts]. rewrite Hmore. fold (answer a0).
    unfold retryable, surfaced in Hretry, Hstop0.
    destruct (answer a0) as [t|e|e].
    + by apply Hstop0.
    + destruct (Py.any_in api_fault_markers e); [by apply Hretry|].
      by apply Hstop0.
    + destruct (Py.contains _ _); [by apply Hstop0|].
      destruct (Py.any_in rate_limit_indicators _); [by apply Hretry|].
      by apply Hstop0.
Qed.

(** C5.  A call of [translate_text] with the default ceiling makes the
    attempts [0 .. n] for some [n < 10], that is at most 10 calls of the
    service.  Every attempt before the last one failed in one of the two
    retried classes, a rate limit or a client fault, and was followed by a
    sleep of [(attempt + 1) * 2]; unless the ceiling is reached the last
    answer is not in these classes, and it is what the caller gets.  In
    particular any other exception on the first attempt is surfaced after
    that single call. *)
Theorem translate_text_retry_policy
    (translator : Translator) (text target_lang : string)
    (history : list event) :
  let sent := text_clean text in
  let before := attempts_history sent target_lang history in
  let answer a := translator (before a) sent target_lang in
  ∃ n, n < 10
    ∧ translate_text text target_lang (Some translator)
        default_max_retries history
      = (surfaced (answer n), before n ++ [Translate sent target_lang])
    ∧ (∀ a, a < n → retryable (answer a) = true)
    ∧ (n < 9 → retryable (answer n) = false)
    ∧ (retryable (answer 0) = false → n = 0).
Proof.
  intros sent before answer.
  destruct (translate_attempts_policy translator sent target_lang history
              default_max_retries 9 0 eq_refl)
    as (n & Hn & Hrun & Hretried & Hstop).
  exists n. split; [unfold default_max_retries in Hn; lia|].
  split; [|split; [|split]].
  - unfold translate_text. etrans; [|apply Hrun]. f_equal.
    unfold attempts_history. cbn. by rewrite app_nil_r.
  - intros a Ha. apply Hretried. lia.
  - done.
  - intros Hfirst. destruct n as [|n]; [done|].
    assert (retryable (answer 0) = true) by (apply Hretried; lia).
    congruence.
Qed.

(** ** The classifier *)

Section classifier.
Context (te : dict string) (tde : dict nat).
Implicit Types (st : list data_elem * dict string) (e : data_elem).
Implicit Types (en : dict string) (key k ev : string) (p : nat).

Lemma mark_complete_if_present_lookup key tree p e :
  tree !! p = Some e →
  mark_complete_if_present key tde tree !! p = Some e
  ∨ (mark_complete_if_present key tde tree !! p = Some (set_complete e)
     ∧ dict_get key tde = Some p).
Proof.
  intros He. unfold mark_complete_if_present.
  destruct (dict_get key tde) as [i|]; [|by left].
  destruct (decide (i = p)) as [->|Hne].
  - right. by rewrite list_lookup_alter_eq, He.
  - left. by rewrite list_lookup_alter_ne.
Qed.

Lemma mark_complete_if_present_names key tree :
  elem_name <$> mark_complete_if_present key tde tree = elem_name <$> tree.
Proof.
  unfold mark_complete_if_present.
  destruct (dict_get key tde); [|done]. by apply fmap_name_alter.
Qed.

Lemma classify_entry_tree st key ev :
  (classify_entry te tde st (key, ev)).1 = st.1
  ∨ (classify_entry te tde st (key, ev)).1
    = mark_complete_if_present key tde st.1.
Proof.
  destruct st as [tree u]. unfold classify_entry.
  repeat case_match; cbn; auto.
Qed.

Lemma classify_entry_untranslated_cases st key ev :
  (classify_entry te tde st (key, ev)).2 = st.2
  ∨ (classify_entry te tde st (key, ev)).2 = dict_set key ev st.2.
Proof.
  destruct st as [tree u]. unfold classify_entry.
  repeat case_match; cbn; auto.
Qed.

Lemma classify_entry_lookup st key ev p e :
  st.1 !! p = Some e →
  (classify_entry te tde st (key, ev)).1 !! p = Some e
  ∨ ((classify_entry te tde st (key, ev)).1 !! p = Some (set_complete e)
     ∧ dict_get key tde = Some p).
Proof.
  intros He. destruct (classify_entry_tree st key ev) as [->| ->].
  - by left.
  - by apply mark_complete_if_present_lookup.
Qed.

Lemma classify_entry_names st key ev :
  elem_name <$> (classify_entry te tde st (key, ev)).1
  = elem_name <$> st.1.
Proof.
  destruct (classify_entry_tree st key ev) as [->| ->]; [done|].
  apply mark_complete_if_present_names.
Qed.

Lemma find_untranslated_names en st :
  elem_name <$> (fold_left (classify_entry te tde) en st).1
  = elem_name <$> st.1.
Proof.
  revert st. induction en as [|[key ev] en IH]; intros st; [done|].
  cbn [fold_left]. by rewrite IH, classify_entry_names.
Qed.

(** The classifier only ever sets a status to complete. *)
Lemma find_untranslated_lookup en st p e :
  st.1 !! p = Some e →
  ∃ e', (fold_left (classify_entry te tde) en st).1 !! p = Some e'
    ∧ (e' = e
       ∨ (e' = set_complete e
          ∧ ∃ key, key ∈ dict_keys en ∧ dict_get key tde = Some p)).
Proof.
  revert st e. induction en as [|[key ev] en IH]; intros st e He.
  { exists e. by split; [|left]. }
  cbn [fold_left].
  destruct (classify_entry_lookup st key ev p e He) as [He1|[He1 Hkey]].
  - destruct (IH _ _ He1) as (e' & He' & [->|[-> (k & Hk & Hget)]]).
    + exists e. by split; [|left].
    + exists (set_complete e). split; [done|]. right. split; [done|].
      exists k. split; [by right | done].
  - destruct (IH _ _ He1) as (e' & He' & [->|[-> _]]).
    + exists (set_complete e). split; [done|]. right. split; [done|].
      exists key. split; [by left | done].
    + exists (set_complete e). split; [done|]. right. split; [done|].
      exists key. split; [by left | done].
Qed.

Lemma comment_status_of_step st key ev k :
  comment_status_of tde (classify_entry te tde st (key, ev)).1 k
  = comment_status_of tde st.1 k
  ∨ comment_status_of tde (classify_entry te tde st (key, ev)).1 k
    = Some status_complete.
Proof.
  unfold comment_status_of. destruct (dict_get k tde) as [i|]; [|by left].
  destruct (st.1 !! i) as [e|] eqn:He.
  - destruct (classify_entry_lookup st key ev i e He) as [->|[-> _]];
      [by left | by right].
  - left. apply lookup_ge_None in He.
    rewrite (proj2 (lookup_ge_None _ i)); [done|].
    rewrite <- (length_fmap elem_name), classify_entry_names, length_fmap.
    done.
Qed.

Lemma may_enqueue_step st key ev k ev' :
  may_enqueue te tde (classify_entry te tde st (key, ev)).1 k ev' →
  may_enqueue te tde st.1 k ev'.
Proof.
  intros (Htech & Hcomplete & Hperm & Hte).
  destruct (comment_status_of_step st key ev k) as [Heq|Heq];
    [|by rewrite Heq in Hcomplete].
  rewrite Heq in Hcomplete, Hperm. done.
Qed.

Lemma permanent_check_false s :
  Py.truthy s && Py.startswith s status_error_permanent = false →
  Py.startswith s status_error_permanent = false.
Proof. by destruct s. Qed.

Lemma classify_entry_untranslated st key ev k :
  k ∈ dict_keys (classify_entry te tde st (key, ev)).2 →
  k ∈ dict_keys st.2 ∨ (k = key ∧ may_enqueue te tde st.1 key ev).
Proof.
  destruct st as [tree u]. unfold classify_entry, may_enqueue. cbn [fst snd].
  destruct (is_technical key) eqn:Htech; [by left|].
  destruct (is_app_or_unit key) eqn:Happ; [by left|].
  assert (∀ A B C : Prop, (k = key → A ∧ B ∧ C) →
    k ∈ dict_keys (dict_set key ev u) →
    k ∈ dict_keys u ∨ (k = key ∧ false = false ∧ A ∧ B ∧ C)) as Henq.
  { intros A B C HABC [->|Hk]%elem_of_dict_keys_set; [right | by left].
    split; [done|]. split; [done|]. by apply HABC. }
  destruct (comment_status_of tde tree key) as [s|] eqn:Hcs.
  - destruct (String.eqb_spec s status_complete) as [->|Hs]; [by left|].
    destruct (Py.truthy s && Py.startswith s status_error_permanent)
      eqn:Hperm; [by left|].
    apply permanent_check_false in Hperm.
    destruct (dict_get key te) as [tv|] eqn:Hte.
    + destruct (String.eqb_spec tv ev) as [->|Htv]; cbn [negb];
        [|by left].
      destruct (s =s= status_incomplete);
        [|destruct (Py.startswith s status_error_prefix); [|by left]];
        cbn [fst snd]; apply Henq; intros _;
        (split; [congruence|]); (split; [|by right]);
        by intros ? [= <-].
    + cbn [fst snd]. apply Henq. intros _.
      split; [congruence|]. split; [|by left]. by intros ? [= <-].
  - destruct (dict_get key te) as [tv|] eqn:Hte.
    + destruct (String.eqb_spec tv ev) as [->|Htv]; cbn [negb];
        [|by left].
      cbn [fst snd]. apply Henq. intros _.
      split; [done|]. split; [done | by right].
    + cbn [fst snd]. apply Henq. intros _.
      split; [done|]. split; [done | by left].
Qed.

Lemma find_untranslated_keys en st k :
  k ∈ dict_keys (fold_left (classify_entry te tde) en st).2 →
  k ∈ dict_keys st.2 ∨ ∃ ev, (k, ev) ∈ en ∧ may_enqueue te tde st.1 k ev.
Proof.
  revert st. induction en as [|[key ev] en IH]; intros st; [by left|].
  cbn [fold_left]. intros [Hk|(ev' & Hin & Henq)]%IH.
  - apply classify_entry_untranslated in Hk as [Hk|[-> Henq]];
      [by left|].
    right. exists ev. split; [by left | done].
  - right. exists ev'. split; [by right|]. by eapply may_enqueue_step.
Qed.

Lemma find_untranslated_nodup en st :
  NoDup (dict_keys st.2) →
  NoDup (dict_keys (fold_left (classify_entry te tde) en st).2).
Proof.
  revert st. induction en as [|[key ev] en IH]; intros st Hst; [done|].
  cbn [fold_left]. apply IH.
  destruct (classify_entry_untranslated_cases st key ev) as [->| ->];
    [done|]. by apply NoDup_dict_keys_set.
Qed.

(** When the classifier marks an element complete or finds it
    complete. *)
Lemma classify_entry_marks st p e k ev :
  st.1 !! p = Some e → dict_get k tde = Some p →
  (is_technical k = true
   ∨ get_comment_status e = Some status_complete
   ∨ ((∀ s, get_comment_status e = Some s →
            Py.startswith s status_error_permanent = false)
      ∧ ∃ tv, dict_get k te = Some tv ∧ tv ≠ ev)) →
  ∃ e', (classify_entry te tde st (k, ev)).1 !! p = Some e'
    ∧ (e' = e ∨ e' = set_complete e)
    ∧ get_comment_status e' = Some status_complete.
Proof.
  destruct st as [tree u]. cbn [fst]. intros He Hk Hcond.
  assert (mark_complete_if_present k tde tree !! p
          = Some (set_complete e)) as Hmark.
  { unfold mark_complete_if_present.
    by rewrite Hk, list_lookup_alter_eq, He. }
  unfold classify_entry, comment_status_of. rewrite Hk, He. cbn [mbind].
  change (option_bind _ _ get_comment_status (Some e))
    with (get_comment_status e).
  destruct (is_technical k) eqn:Htech; cbn [fst];
    [exists (set_complete e); by split; [|split; [right|]]|].
  destruct (is_app_or_unit k) eqn:Happ; cbn [fst];
    [exists (set_complete e); by split; [|split; [right|]]|].
  destruct Hcond as [?|[Hs|[Hperm (tv & Hte & Htv)]]]; [done| |].
  - rewrite Hs. cbn. exists e. by split; [|split; [left|]].
  - rewrite Hte. apply String.eqb_neq in Htv as ->. cbn [negb].
    destruct (get_comment_status e) as [s|] eqn:Hs; cbn [fst];
      [|exists (set_complete e); by split; [|split; [right|]]].
    destruct (String.eqb_spec s status_complete) as [->|Hne]; cbn [fst];
      [exists e; by split; [|split; [left|]]|].
    rewrite (Hperm s eq_refl), andb_false_r. cbn [fst].
    exists (set_complete e). by split; [|split; [right|]].
Qed.

Lemma find_untranslated_marks en st p e k ev :
  st.1 !! p = Some e → dict_get k tde = Some p → (k, ev) ∈ en →
  (is_technical k = true
   ∨ get_comment_status e = Some status_complete
   ∨ ((∀ s, get_comment_status e = Some s →
            Py.startswith s status_error_permanent = false)
      ∧ ∃ tv, dict_get k te = Some tv ∧ tv ≠ ev)) →
  ∃ e', (fold_left (classify_entry te tde) en st).1 !! p = Some e'
    ∧ (e' = e ∨ e' = set_complete e)
    ∧ get_comment_status e' = Some status_complete.
Proof.
  revert st e. induction en as [|[key ev'] en IH];
    intros st e He Hk Hin Hcond.
  { by apply elem_of_nil in Hin. }
  cbn [fold_left]. apply elem_of_cons in Hin as [[= <- <-]|Hin].
  - destruct (classify_entry_marks st p e k ev He Hk Hcond)
      as (e1 & He1 & Hcases & Hs1).
    destruct (find_untranslated_lookup en _ p e1 He1)
      as (e' & He' & [->|[-> _]]).
    + by exists e1.
    + exists (set_complete e1). split; [done|]. split; [|done].
      right. by destruct Hcases as [->| ->].
  - destruct (classify_entry_lookup st key ev' p e He) as [He1|[He1 _]].
    + by apply IH.
    + destruct (IH _ (set_complete e) He1 Hk Hin) as (e' & He' & Hc & Hs).
      { right. by left. }
      exists e'. split; [done|]. split; [|done].
      right. by destruct Hc as [->| ->].
Qed.
End classifier.

(** ** Write-backs keep what they are not asked to change *)

Lemma update_resw_file_as_app tree trs errs en b :
  ∃ ext : list data_elem,
    elem_name <$> update_resw_file tree trs errs en b
    = elem_name <$> (tree ++ ext)
    ∧ ∀ e, e ∈ ext → ∃ key, elem_name e = Some key ∧ key ∈ dict_keys trs.
Proof.
  destruct (update_resw_file_names tree trs errs en b)
    as (ext & Hnames & Hext).
  exists ((λ key, DataElem (Some key) None None) <$> ext). split.
  - rewrite Hnames, fmap_app. f_equal.
    rewrite <- list_fmap_compose. by apply list_fmap_ext.
  - intros e (key & -> & Hkey)%list_elem_of_fmap.
    exists key. split; [done|]. by apply Hext.
Qed.

Lemma update_resw_file_lookup_lt tree trs errs en b key p :
  lookup_element (update_resw_file tree trs errs en b) key = Some p →
  p < length tree → lookup_element tree key = Some p.
Proof.
  destruct (update_resw_file_as_app tree trs errs en b) as (ext & Hn & _).
  rewrite (lookup_element_names _ _ key Hn).
  apply lookup_element_app_lt.
Qed.

Lemma update_resw_file_lookup_other tree trs errs en b key :
  key ∉ dict_keys trs →
  lookup_element (update_resw_file tree trs errs en b) key
  = lookup_element tree key.
Proof.
  intros Hkey.
  destruct (update_resw_file_as_app tree trs errs en b) as (ext & Hn & Hext).
  rewrite (lookup_element_names _ _ key Hn).
  apply lookup_element_app_other.
  intros e (key' & Hname & Hin)%Hext. rewrite Hname. intros [= ->]. done.
Qed.

Lemma lookup_element_other_key tree key key' p :
  lookup_element tree key = Some p → key' ≠ key →
  lookup_element tree key' ≠ Some p.
Proof.
  intros (e & He & Hname & _)%lookup_element_Some Hne
         (e' & He' & Hname' & _)%lookup_element_Some.
  congruence.
Qed.

Section steady.
Context (en : dict string).
Implicit Types (K : list string) (T : list data_elem).

Lemma steady_refl K T : steady en K T T.
Proof. by split. Qed.

Lemma steady_trans K T1 T2 T3 :
  steady en K T1 T2 → steady en K T2 T3 → steady en K T1 T3.
Proof.
  intros [H12 L12] [H23 L23]. split.
  - intros p e He Hs Hu. destruct (H12 p e He Hs Hu) as [He2 Hu2].
    by apply H23.
  - intros key Hkey. by rewrite L23, L12.
Qed.

Lemma steady_update K T trs errs :
  dict_keys trs ⊆ K → steady en K T (update_resw_file T trs errs en false).
Proof.
  intros Hsub. split.
  - intros p e He Hs Hu. split.
    + rewrite (update_resw_file_other _ _ _ _ _ p e); [by rewrite Hs|done|].
      intros key Hkey. apply Hu. by apply Hsub.
    + intros key Hkey Hget. apply (Hu key Hkey).
      eapply update_resw_file_lookup_lt; [done|].
      by eapply lookup_lt_Some.
  - intros key Hkey. apply update_resw_file_lookup_other.
    intros Hin. apply Hkey. by apply Hsub.
Qed.
End steady.

(** ** The translation loop *)

Lemma dict_keys_set_subseteq {V} k (v : V) (d : dict V) (K : list string) :
  k ∈ K → dict_keys d ⊆ K → dict_keys (dict_set k v d) ⊆ K.
Proof.
  intros Hk Hd k' [->|Hk']%elem_of_dict_keys_set; [done|]. by apply Hd.
Qed.

Lemma batch_keys_subseteq {V} (v : V) (l : dict string) (d : dict V)
    (K : list string) :
  dict_keys l ⊆ K → dict_keys d ⊆ K →
  dict_keys (fold_left (λ d '(remaining_key, _), dict_set remaining_key v d)
               l d) ⊆ K.
Proof.
  revert d. induction l as [|[k x] l IH]; intros d Hl Hd; [done|].
  cbn [fold_left]. apply IH.
  - intros k' Hk'. apply Hl. by right.
  - apply dict_keys_set_subseteq; [|done]. apply Hl. by left.
Qed.

Lemma save_batch_cleared en st :
  translations (save_batch en st) = []
  ∧ translation_errors (save_batch en st) = []
  ∧ history (save_batch en st) = history st.
Proof.
  unfold save_batch.
  destruct (translations st) eqn:Ht, (translation_errors st) eqn:He;
    cbn; rewrite ?Ht, ?He; done.
Qed.

Lemma save_batch_steady en K st :
  dict_keys (translations st) ⊆ K →
  steady en K (lang_file st) (lang_file (save_batch en st)).
Proof.
  intros Hsub. unfold save_batch.
  destruct (translations st) eqn:Ht, (translation_errors st) eqn:He;
    cbn [lang_file]; first [apply steady_refl | by apply steady_update].
Qed.

Lemma record_result_file key ev tv h st :
  lang_file (record_result key ev tv h st) = lang_file st.
Proof. unfold record_result. by repeat case_match. Qed.

Lemma record_result_keys key ev tv h st K :
  key ∈ K → dict_keys (translations st) ⊆ K →
  dict_keys (translations (record_result key ev tv h st)) ⊆ K.
Proof.
  intros Hk Hsub. unfold record_result.
  repeat case_match; cbn [translations]; by apply dict_keys_set_subseteq.
Qed.

Section translate_loop.
Context (translator : option Translator) (en : dict string).
Context (lang : string) (U : dict string).

Lemma abandon_language_steady K i key h' st :
  dict_keys (translations st) ⊆ K → key ∈ K → dict_keys U ⊆ K →
  steady en K (lang_file st)
    (lang_file (abandon_language en U i key h' st)).
Proof.
  intros Hsub Hkey HU. unfold abandon_language. cbn [lang_file].
  destruct (save_batch_cleared en st) as (-> & -> & _).
  eapply steady_trans; [by apply save_batch_steady|].
  eapply steady_trans; apply steady_update.
  - cbn. intros k [->|[]%elem_of_nil]%elem_of_cons. done.
  - apply batch_keys_subseteq; [|by intros ? ?%elem_of_nil].
    intros k Hk. apply HU. unfold dict_keys in *.
    rewrite fmap_drop in Hk. by eapply subseteq_drop.
Qed.

Lemma translate_loop_steady K items :
  ∀ i st st' broke,
    dict_keys (translations st) ⊆ K → dict_keys items ⊆ K →
    translate_loop translator en lang U i items st = (st', broke) →
    (broke = false →
     steady en K (lang_file st) (lang_file st')
     ∧ dict_keys (translations st') ⊆ K)
    ∧ (dict_keys U ⊆ K → steady en K (lang_file st) (lang_file st')).
Proof.
  induction items as [|[key ev] items IH];
    intros i st st' broke Hsub Hitems.
  { intros [= <- <-]. split; [by split; [apply steady_refl|]|].
    intros _. apply steady_refl. }
  assert (key ∈ K) as Hkey by (apply Hitems; by left).
  assert (dict_keys items ⊆ K) as Hitems'
    by (intros k Hk; apply Hitems; by right).
  assert (∀ st2,
    lang_file st2 = lang_file st → dict_keys (translations st2) ⊆ K →
    translate_loop translator en lang U (S i) items
      (if should_save U i then save_batch en st2 else st2) = (st', broke) →
    (broke = false →
     steady en K (lang_file st) (lang_file st')
     ∧ dict_keys (translations st') ⊆ K)
    ∧ (dict_keys U ⊆ K → steady en K (lang_file st) (lang_file st')))
    as Hcontinue.
  { intros st2 Hfile Hsub2 Hloop. rewrite <- Hfile.
    set (st3 := if should_save U i then save_batch en st2 else st2) in *.
    assert (steady en K (lang_file st2) (lang_file st3)
            ∧ dict_keys (translations st3) ⊆ K) as [H23 Hsub3].
    { subst st3. destruct (should_save U i).
      - split; [by apply save_batch_steady|].
        destruct (save_batch_cleared en st2) as (-> & _).
        by intros ? ?%elem_of_nil.
      - split; [apply steady_refl | done]. }
    destruct (IH (S i) st3 st' broke Hsub3 Hitems' Hloop) as [Hno Hall].
    split.
    - intros Hb. destruct (Hno Hb) as [H3 Hsub']. split; [|done].
      by eapply steady_trans.
    - intros HU. eapply steady_trans; [done | by apply Hall]. }
  cbn [translate_loop]. destruct translator as [tr|].
  - destruct (translate_text ev lang (Some tr) default_max_retries
                (history st)) as [[tv|] h'].
    + apply Hcontinue; [apply record_result_file|].
      by apply record_result_keys.
    + intros [= <- <-]. split; [done|]. intros HU.
      by apply abandon_language_steady.
  - apply Hcontinue; [done|]. cbn [record_unavailable translations].
    by apply dict_keys_set_subseteq.
Qed.

Lemma translate_loop_app xs ys i st :
  translate_loop translator en lang U i (xs ++ ys) st
  = let '(st', broke) := translate_loop translator en lang U i xs st in
    if broke then (st', true)
    else translate_loop translator en lang U (i + length xs) ys st'.
Proof.
  revert i st. induction xs as [|[key ev] xs IH]; intros i st.
  { cbn. by rewrite Nat.add_0_r. }
  cbn [app translate_loop length].
  replace (i + S (length xs)) with (S i + length xs) by lia.
  destruct translator as [tr|].
  - destruct (translate_text _ _ _ _ _) as [[tv|] h']; [|done].
    apply IH.
  - apply IH.
Qed.
End translate_loop.

Lemma dict_keys_app {V} (d1 d2 : dict V) :
  dict_keys (d1 ++ d2) = dict_keys d1 ++ dict_keys d2.
Proof. unfold dict_keys. apply fmap_app. Qed.

Lemma abandon_language_target en U i key h' st p e :
  lookup_element (lang_file st) key = Some p → lang_file st !! p = Some e →
  swept en e →
  key ∉ dict_keys (translations st) → key ∉ dict_keys (drop i U) →
  lang_file (abandon_language en U i key h' st) !! p
  = Some (sweep_elem en false
            (apply_translation en [(key, "Invalid destination language")]
               key None e)).
Proof.
  intros Hkey He Hswept Hpending Hremaining.
  destruct (save_batch_steady en (dict_keys (translations st)) st)
    as [Hframe Hlookup]; [done|].
  destruct (Hframe p e He Hswept) as [He2 _].
  { intros k Hk. apply (lookup_element_other_key _ key); [done|].
    by intros ->. }
  specialize (Hlookup key Hpending). rewrite Hkey in Hlookup.
  unfold abandon_language. cbn [lang_file].
  destruct (save_batch_cleared en st) as (-> & -> & _).
  set (T2 := lang_file (save_batch en st)) in *. cbn [dict_set].
  set (x := sweep_elem en false _).
  assert (update_resw_file T2 [(key, None)]
            [(key, "Invalid destination language")] en false !! p
          = Some x) as Hcurrent.
  { eapply update_resw_file_target; try done.
    - cbn. apply NoDup_singleton.
    - by left. }
  rewrite (update_resw_file_other _ _ _ _ _ p x Hcurrent).
  - subst x. by rewrite sweep_elem_idemp.
  - intros k Hk Hget.
    apply update_resw_file_lookup_lt in Hget; [|by eapply lookup_lt_Some].
    destruct (decide (k = key)) as [->|Hne].
    + apply Hremaining.
      revert Hk. apply batch_keys_subseteq; [done|].
      by intros ? ?%elem_of_nil.
    + by apply (lookup_element_other_key T2 key k p).
Qed.

(** X25.  When [translate_text] raises [InvalidDestinationLanguageError]
    on the item that follows [pre] in the work list, the loop is left at
    once: the history of the loop ends with the failing call, so no
    further translation call is made for the language.  The entry of the
    failing item, when it still shows the English value, that value is
    not "Tab", the key is not technical and its status was not an error,
    gets the status [status:error:Invalid destination language]. *)
Theorem invalid_language_short_circuit
    (translator : option Translator) (english_entries : dict string)
    (lang : string) (pre post : dict string) (key english_value : string)
    (st0 st1 : loop_state) (history' : list event)
    (p : nat) (data : data_elem) (s : string) :
  let untranslated := pre ++ (key, english_value) :: post in
  NoDup (dict_keys untranslated) →
  translations st0 = [] → translation_errors st0 = [] →
  translate_loop translator english_entries lang untranslated 1 pre st0
  = (st1, false) →
  translate_text english_value lang translator default_max_retries
    (history st1)
  = (InvalidDestinationLanguageError, history') →
  lookup_element (lang_file st0) key = Some p →
  lang_file st0 !! p = Some data →
  is_technical key = false →
  value_text data = english_value →
  dict_get_or key "" english_entries = english_value →
  english_value ≠ "Tab" →
  get_comment_status data = Some s →
  Py.startswith s status_error_prefix = false →
  ∃ st,
    translate_loop translator english_entries lang untranslated 1
      untranslated st0 = (st, true)
    ∧ history st = history'
    ∧ ∃ data',
        lang_file st !! p = Some data'
        ∧ elem_comment data'
          = Some "status:error:Invalid destination language"
        ∧ value_text data' = english_value.
Proof.
  intros U Hnodup Htr0 Herr0 Hpre Hraise Hkey Hp Htech Hvalue Hen Htab Hs
    Hprefix.
  subst U. rewrite dict_keys_app in Hnodup. cbn in Hnodup.
  apply NoDup_app in Hnodup as (_ & Hpre_post & Hpost).
  apply NoDup_cons in Hpost as [Hkey_post _].
  assert (key ∉ dict_keys pre) as Hkey_pre.
  { intros Hin. apply (Hpre_post key Hin). by left. }
  assert (swept english_entries data) as Hswept.
  { apply (sweep_elem_keeps_status _ _ _ s); [done|].
    apply lookup_element_Some in Hkey as (e & He & Hname & _).
    assert (e = data) as -> by congruence.
    intros name. rewrite Hname. intros [= <-].
    by apply not_technical_not_app_or_unit. }
  destruct (translate_loop_steady translator english_entries lang
              (pre ++ (key, english_value) :: post) (dict_keys pre) pre
              1 st0 st1 false) as [Hsteady _]; try done.
  { rewrite Htr0. by intros ? ?%elem_of_nil. }
  destruct (Hsteady eq_refl) as [[Hframe Hlookup] Hpending].
  destruct (Hframe p data Hp Hswept) as [Hp1 _].
  { intros k Hk. apply (lookup_element_other_key _ key); [done|].
    by intros ->. }
  specialize (Hlookup key Hkey_pre). rewrite Hkey in Hlookup.
  rewrite translate_loop_app, Hpre. cbn [translate_loop].
  destruct translator as [tr|]; [|done].
  rewrite Hraise. eexists. split; [done|]. split; [done|].
  assert (dict_get_or key "Translation failed"
            [(key, "Invalid destination language")]
          = "Invalid destination language") as Hreason.
  { unfold dict_get_or. cbn. by rewrite String.eqb_refl. }
  rewrite (abandon_language_target _ _ _ _ _ _ p data); try done.
  - rewrite apply_translation_failed; [|congruence|].
    + rewrite Hen, Hreason. apply String.eqb_neq in Htab as ->.
      rewrite Hs, Hprefix, andb_false_r.
      eexists. split; [done|].
      rewrite sweep_elem_marked; [by rewrite Hvalue|done|].
      cbn. apply lookup_element_Some in Hkey as (e & He & Hname & _).
      assert (e = data) as -> by congruence.
      intros name. rewrite Hname. intros [= <-].
      by apply not_technical_not_app_or_unit.
    + by rewrite Hreason.
  - intros Hin. by apply Hkey_pre, Hpending.
  - rewrite cons_middle, app_assoc, drop_app_length'; [done|].
    rewrite length_app. cbn. lia.
Qed.

(** The service rejects the language on the second of three items. *)
Lemma invalid_language_short_circuit_witness :
  let translator : Translator :=
    λ _ text _, if text =s= "Ex"
                then RaisedException "Invalid destination language"
                else Returned ("fr:" +:+ text) in
  let en := [("A", "a"); ("X", "Ex"); ("B", "b")] in
  let st0 :=
    {| lang_file :=
         [DataElem (Some "A") (Some "a") (Some "status:incomplete");
          DataElem (Some "X") (Some "Ex") (Some "status:incomplete");
          DataElem (Some "B") (Some "b") (Some "status:incomplete")];
       translations := []; translation_errors := [];
       consecutive_failures := 0; history := [] |} in
  ∃ st,
    translate_loop (Some translator) en "fr" en 1 en st0 = (st, true)
    ∧ history st
      = [Translate "a" "fr"; Sleep (2 # 10); Translate "Ex" "fr"]
    ∧ ∃ data',
        lang_file st !! 1 = Some data'
        ∧ elem_comment data'
          = Some "status:error:Invalid destination language"
        ∧ value_text data' = "Ex".
Proof.
  intros translator en st0.
  apply (invalid_language_short_circuit (Some translator) en "fr"
           [("A", "a")] [("B", "b")] "X" "Ex" st0
           (translate_loop (Some translator) en "fr" en 1 [("A", "a")]
              st0).1
           [Translate "a" "fr"; Sleep (2 # 10); Translate "Ex" "fr"]
           1 (DataElem (Some "X") (Some "Ex") (Some "status:incomplete"))
           "status:incomplete").
  - apply (bool_decide_unpack _). vm_compute. exact I.
  - reflexivity.
  - reflexivity.
  - vm_compute. reflexivity.
  - vm_compute. reflexivity.
  - vm_compute. reflexivity.
  - reflexivity.
  - reflexivity.
  - reflexivity.
  - reflexivity.
  - discriminate.
  - reflexivity.
  - reflexivity.
Defined.

(** C2 as stated fails: after the service has rejected the language on the
    second of three items, the first item is complete with its
    translation, and the other two carry an error with a reason, not
    [status:error:permanent]. *)
Lemma invalid_language_counterexample :
  let translator : Translator :=
    λ _ text _, if text =s= "Ex"
                then RaisedException "Invalid destination language"
                else Returned ("fr:" +:+ text) in
  let en := [("A", "a"); ("X", "Ex"); ("B", "b")] in
  let tree :=
    [DataElem (Some "A") (Some "a") None;
     DataElem (Some "X") (Some "Ex") None;
     DataElem (Some "B") (Some "b") None] in
  (classify_language en tree).2 = en
  ∧ process_language (Some translator) en "fr-FR" tree []
    = ([DataElem (Some "A") (Some "fr:a") (Some "status:complete");
        DataElem (Some "X") (Some "Ex")
          (Some "status:error:Invalid destination language");
        DataElem (Some "B") (Some "b")
          (Some "status:error:Invalid destination language")],
       [Translate "a" "fr"; Sleep (2 # 10); Translate "Ex" "fr"; Sleep 1])
  ∧ ¬ Forall (λ data, elem_comment data = Some status_error_permanent)
        (process_language (Some translator) en "fr-FR" tree []).1.
Proof.
  split; [vm_compute; reflexivity|]. split; [vm_compute; reflexivity|].
  intros H. apply Forall_cons_1 in H as [H _]. vm_compute in H.
  discriminate.
Qed.

(** C2.  At that input the item that follows the failing one ends the
    run with [status:error:Invalid destination language], an error with a
    reason, where the handler announces permanent errors for the remaining
    items and the path of the unsupported languages writes
    [status:error:permanent] for the same entry.  The next run has the
    item on its work list again. *)
Lemma invalid_language_remaining_item :
  let translator : Translator :=
    λ _ text _, if text =s= "Ex"
                then RaisedException "Invalid destination language"
                else Returned ("fr:" +:+ text) in
  let en := [("A", "a"); ("X", "Ex"); ("B", "b")] in
  let tree :=
    [DataElem (Some "A") (Some "a") None;
     DataElem (Some "X") (Some "Ex") None;
     DataElem (Some "B") (Some "b") None] in
  let result := process_language (Some translator) en "fr-FR" tree [] in
  result.1 !! 2
  = Some (DataElem (Some "B") (Some "b")
            (Some "status:error:Invalid destination language"))
  ∧ (process_language (Some translator) en "fj-FJ" tree []).1 !! 2
    = Some (DataElem (Some "B") (Some "b") (Some status_error_permanent))
  ∧ (classify_language en result.1).2 = [("X", "Ex"); ("B", "b")].
Proof.
  split; [vm_compute; reflexivity|]. split; vm_compute; reflexivity.
Qed.

(** ** A whole run for one language *)

Lemma parse_entries_snoc tree e :
  parse_entries (tree ++ [e])
  = match elem_name e, elem_value e with
    | Some name, Some text =>
        if Py.truthy name then dict_set name text (parse_entries tree)
        else parse_entries tree
    | _, _ => parse_entries tree
    end.
Proof. unfold parse_entries. by rewrite fold_left_app. Qed.

(** The value that [parse_resw_file] reports for a key is the value of
    the element the key is resolved to, when that element has one. *)
Lemma parse_entries_lookup tree key p e text :
  lookup_element tree key = Some p → tree !! p = Some e →
  elem_value e = Some text →
  dict_get key (parse_entries tree) = Some text.
Proof.
  revert p e. induction tree as [|x tree IH] using rev_ind; [done|].
  intros p e. rewrite lookup_element_snoc, parse_entries_snoc.
  case_decide as Hd.
  - destruct Hd as [Hname Hk]. intros [= <-].
    rewrite list_lookup_middle by done. intros [= <-] Hvalue.
    by rewrite Hname, Hvalue, Hk, dict_get_set_eq.
  - intros Hkey He Hvalue.
    assert (Py.truthy key = true) as Hk.
    { by apply lookup_element_Some in Hkey as (? & _ & _ & ?). }
    rewrite lookup_app_l in He by by eapply lookup_element_lt.
    specialize (IH p e Hkey He Hvalue).
    destruct (elem_name x) as [name|] eqn:Hname; [|done].
    destruct (elem_value x); [|done].
    destruct (Py.truthy name); [|done].
    rewrite dict_get_set_ne; [done|]. intros ->. by apply Hd.
Qed.

Lemma completion_sweep_lookup en b tree p :
  completion_sweep en b tree !! p = sweep_elem en b <$> tree !! p.
Proof. unfold completion_sweep. by rewrite list_lookup_fmap. Qed.

Lemma completion_sweep_names en b tree :
  elem_name <$> completion_sweep en b tree = elem_name <$> tree.
Proof.
  unfold completion_sweep. rewrite <- list_fmap_compose.
  apply list_fmap_ext. intros _ e _. apply sweep_elem_name.
Qed.

(** The status after the sweep is the stored status, or one that the
    sweep has set. *)
Lemma sweep_elem_status en b e :
  get_comment_status (sweep_elem en b e) = get_comment_status e
  ∨ get_comment_status (sweep_elem en b e) = Some status_complete
  ∨ (get_comment_status (sweep_elem en b e) = Some status_incomplete
     ∧ get_comment_status e = None).
Proof.
  unfold sweep_elem.
  destruct (elem_name e) as [name|]; [|by left].
  destruct (elem_value e) as [text|]; [|by left].
  destruct (negb (Py.truthy name)); [by left|].
  destruct (is_app_or_unit name); [right; by left|].
  destruct (get_comment_status e) as [s|] eqn:Hs; [by left|].
  repeat case_match; first [right; by left | right; by right].
Qed.

(** An entry stored as complete or permanently failed is still so when
    the classifier reads it. *)
Lemma stored_status_at_classification en data s :
  get_comment_status data = Some s →
  s = status_complete ∨ Py.startswith s status_error_permanent = true →
  ∃ s', status_at_classification en data = Some s'
    ∧ (s' = status_complete
       ∨ Py.startswith s' status_error_permanent = true).
Proof.
  intros Hs Hstatus. unfold status_at_classification.
  destruct (sweep_elem_status en false data) as [Heq|[Heq|[_ Hnone]]].
  - exists s. by rewrite Heq.
  - exists status_complete. split; [done | by left].
  - congruence.
Qed.

Lemma swept_sweep_elem en e : swept en (sweep_elem en false e).
Proof. apply sweep_elem_idemp. Qed.

Lemma swept_set_complete en e : swept en (set_complete e).
Proof. apply sweep_elem_complete. Qed.

Section run.
Context (en : dict string) (tree : list data_elem).

Local Abbreviation T1 := (completion_sweep en false tree).
Local Abbreviation te := (parse_entries T1).
Local Abbreviation tde := (tree_data_elements T1).

Lemma classify_language_unfold :
  classify_language en tree
  = fold_left (classify_entry te tde) en (T1, []).
Proof. done. Qed.

Lemma classify_language_resolves key :
  lookup_element (classify_language en tree).1 key
  = lookup_element tree key.
Proof.
  rewrite classify_language_unfold.
  rewrite (lookup_element_names _ T1)
    by apply find_untranslated_names.
  apply lookup_element_names, completion_sweep_names.
Qed.

(** After the classification an element is what the sweep made of it,
    possibly marked complete for an English key resolved to it. *)
Lemma classify_language_lookup p d :
  tree !! p = Some d →
  ∃ e, (classify_language en tree).1 !! p = Some e
    ∧ swept en e
    ∧ (e = sweep_elem en false d
       ∨ (e = set_complete (sweep_elem en false d)
          ∧ ∃ key, key ∈ dict_keys en
                   ∧ lookup_element tree key = Some p)).
Proof.
  intros Hd. rewrite classify_language_unfold.
  assert (T1 !! p = Some (sweep_elem en false d)) as H1.
  { by rewrite completion_sweep_lookup, Hd. }
  destruct (find_untranslated_lookup te tde en (T1, []) p _ H1)
    as (e & He & [->|[-> (key & Hkey & Hget)]]).
  - exists (sweep_elem en false d).
    split; [done|]. split; [apply swept_sweep_elem | by left].
  - exists (set_complete (sweep_elem en false d)).
    split; [done|]. split; [apply swept_set_complete|]. right.
    split; [done|]. exists key. split; [done|].
    rewrite <- Hget. symmetry.
    apply lookup_element_names, completion_sweep_names.
Qed.

(** A key is on the work list only if it is an English key that is not
    technical and whose element was not complete or permanently failed
    when the classification started. *)
Lemma classify_language_enqueued key :
  key ∈ dict_keys (classify_language en tree).2 →
  ∃ ev, (key, ev) ∈ en ∧ may_enqueue te tde T1 key ev.
Proof.
  rewrite classify_language_unfold.
  intros [[]%elem_of_nil|?]%find_untranslated_keys. done.
Qed.

Lemma classify_language_nodup :
  NoDup (dict_keys (classify_language en tree).2).
Proof.
  rewrite classify_language_unfold. apply find_untranslated_nodup.
  apply NoDup_nil_2.
Qed.

Lemma comment_status_of_resolved key p d :
  lookup_element tree key = Some p → tree !! p = Some d →
  comment_status_of tde T1 key
  = get_comment_status (sweep_elem en false d).
Proof.
  intros Hkey Hd. unfold comment_status_of.
  assert (dict_get key tde = Some p) as ->.
  { rewrite <- Hkey. apply lookup_element_names, completion_sweep_names. }
  by rewrite completion_sweep_lookup, Hd.
Qed.
End run.

Lemma dict_get_NoDup {V} k (v : V) (d : dict V) :
  NoDup (dict_keys d) → (k, v) ∈ d → dict_get k d = Some v.
Proof.
  unfold dict_keys. induction d as [|[k0 v0] d IH]; cbn.
  { by intros _ ?%elem_of_nil. }
  rewrite NoDup_cons. intros [Hk0 Hd] [[= <- <-]|Hin]%elem_of_cons.
  - by rewrite String.eqb_refl.
  - destruct (String.eqb_spec k0 k) as [->|Hne]; [|by apply IH].
    destruct Hk0. by apply (list_elem_of_fmap_2 fst) in Hin.
Qed.

Lemma mark_unsupported_elem_value en U e :
  elem_value (mark_unsupported_elem en U e) = elem_value e
  ∧ elem_name (mark_unsupported_elem en U e) = elem_name e.
Proof. unfold mark_unsupported_elem. by repeat case_match. Qed.

Lemma mark_unsupported_elem_other en U e :
  (∀ key, elem_name e = Some key → key ∉ dict_keys U) →
  mark_unsupported_elem en U e = e.
Proof.
  intros Hname. unfold mark_unsupported_elem.
  destruct (elem_name e) as [name|]; [|done].
  destruct (dict_mem name U) eqn:Hmem; [|done].
  apply dict_mem_true in Hmem. by destruct (Hname name eq_refl).
Qed.

Section process_language.
Context (translator : option Translator) (en : dict string).
Context (lang_code : string) (tree : list data_elem) (h : list event).

(** The translation pass only writes to the elements that the keys of
    the work list are resolved to. *)
Lemma process_language_untargeted p e :
  (classify_language en tree).1 !! p = Some e → swept en e →
  untargeted (classify_language en tree).1
    (dict_keys (classify_language en tree).2) p →
  ∃ e', (process_language translator en lang_code tree h).1 !! p = Some e'
    ∧ elem_value e' = elem_value e
    ∧ elem_name e' = elem_name e
    ∧ (¬ (unsupported_language lang_code = true
          ∧ ∃ key, elem_name e = Some key
                   ∧ key ∈ dict_keys (classify_language en tree).2) →
       e' = e).
Proof.
  intros He Hswept Hun. unfold process_language.
  destruct (classify_language en tree) as [T2 U] eqn:Hclass.
  cbn [fst snd] in *.
  destruct U as [|u U']; [by exists e|]. set (U := u :: U') in *.
  destruct (unsupported_language lang_code) eqn:Hunsupported.
  - cbn [fst]. rewrite mark_unsupported_lookup, He. cbn.
    eexists. split; [done|].
    destruct (mark_unsupported_elem_value en U e) as [-> ->].
    split; [done|]. split; [done|]. intros Hnot.
    apply mark_unsupported_elem_other. intros key Hname Hkey.
    apply Hnot. split; [done|]. by exists key.
  - destruct (translate_loop _ _ _ _ _ _ _) as [st broke] eqn:Hloop.
    cbn [fst].
    apply (translate_loop_steady _ _ _ _ (dict_keys U)) in Hloop
      as [_ Hsteady]; [|by intros ? ?%elem_of_nil|done].
    destruct (Hsteady (reflexivity _)) as [Hframe _].
    destruct (Hframe p e He Hswept Hun) as [He' _].
    by exists e.
Qed.

(** It leaves alone every swept element whose name is not on the work
    list. *)
Lemma process_language_keeps p e :
  (classify_language en tree).1 !! p = Some e → swept en e →
  (∀ key, elem_name e = Some key →
          key ∉ dict_keys (classify_language en tree).2) →
  (process_language translator en lang_code tree h).1 !! p = Some e.
Proof.
  intros He Hswept Hname.
  destruct (process_language_untargeted p e He Hswept)
    as (e' & He' & _ & _ & Heq).
  - intros key Hkey (x & Hx & Hn & _)%lookup_element_Some.
    assert (x = e) as -> by congruence. by apply (Hname key).
  - rewrite He', Heq; [done|].
    intros (_ & key & Hn & Hkey). by apply (Hname key).
Qed.
End process_language.

(** C4.  An entry whose status, when the classifier reads it, is complete
    or begins with [status:error:permanent] has the same value at the end
    of the run for its language, whatever the translation service
    answers. *)
Theorem complete_and_permanent_values_kept
    (translator : option Translator) (english_entries : dict string)
    (lang_code : string) (tree : list data_elem) (history : list event)
    (p : nat) (data : data_elem) (s : string) :
  tree !! p = Some data →
  status_at_classification english_entries data = Some s →
  s = status_complete ∨ Py.startswith s status_error_permanent = true →
  ∃ data',
    (process_language translator english_entries lang_code tree history).1
      !! p = Some data'
    ∧ elem_value data' = elem_value data.
Proof.
  unfold status_at_classification. intros Hp Hs Hstatus.
  destruct (classify_language_lookup english_entries tree p data Hp)
    as (e & He & Hswept & Hcases).
  destruct (process_language_untargeted translator english_entries lang_code
              tree history p e He Hswept) as (e' & He' & Hvalue & _).
  - intros key Hkey Hget.
    rewrite classify_language_resolves in Hget.
    apply classify_language_enqueued in Hkey
      as (ev & _ & _ & Hcomplete & Hperm & _).
    rewrite (comment_status_of_resolved _ _ _ p data) in Hcomplete, Hperm
      by done.
    destruct Hstatus as [->|Hstatus]; [done|].
    by rewrite (Hperm s Hs) in Hstatus.
  - exists e'. split; [done|]. rewrite Hvalue.
    destruct Hcases as [->|[-> _]]; cbn; apply sweep_elem_value.
Qed.

(** A permanently failed entry that still shows the English text. *)
Lemma complete_and_permanent_values_kept_witness :
  let en := [("Greeting", "Hello")] in
  let tree :=
    [DataElem (Some "Greeting") (Some "Hello")
       (Some "status:error:permanent")] in
  let translator : Translator := λ _ text _, Returned ("fr:" +:+ text) in
  ∃ data',
    (process_language (Some translator) en "fr-FR" tree []).1 !! 0
    = Some data'
    ∧ elem_value data' = Some "Hello".
Proof.
  intros en tree translator.
  apply (complete_and_permanent_values_kept (Some translator) en "fr-FR"
           tree [] 0
           (DataElem (Some "Greeting") (Some "Hello")
              (Some "status:error:permanent"))
           "status:error:permanent").
  - reflexivity.
  - reflexivity.
  - right. reflexivity.
Defined.

(** C9, as amended.  An entry of a target file whose key is not an English
    key is only touched by the completion sweep: a run never changes its
    value, and leaves its status as it is when it has one; when it has
    none the sweep gives it the status incomplete.  (Of the four names
    forced to complete, the sweep makes the status complete.) *)
Theorem keys_outside_reference_only_swept
    (translator : option Translator) (english_entries : dict string)
    (lang_code : string) (tree : list data_elem) (history : list event)
    (p : nat) (data : data_elem) (key : string) :
  tree !! p = Some data → elem_name data = Some key →
  key ∉ dict_keys english_entries →
  ∃ data',
    (process_language translator english_entries lang_code tree history).1
      !! p = Some data'
    ∧ data' = sweep_elem english_entries false data
    ∧ elem_value data' = elem_value data
    ∧ (is_app_or_unit key = false → is_Some (get_comment_status data) →
       data' = data)
    ∧ (is_app_or_unit key = false → get_comment_status data = None →
       Py.truthy key = true → is_Some (elem_value data) →
       elem_comment data' = Some status_incomplete)
    ∧ (is_app_or_unit key = true → is_Some (elem_value data) →
       elem_comment data' = Some status_complete).
Proof.
  intros Hp Hname Hkey.
  destruct (classify_language_lookup english_entries tree p data Hp)
    as (e & He & Hswept & [->|[_ (key' & Hkey' & Hget)]]).
  - exists (sweep_elem english_entries false data).
    split; [|split; [done|split; [apply sweep_elem_value|split; [|split]]]].
    + apply process_language_keeps; try done.
      intros key'. rewrite sweep_elem_name, Hname. intros [= <-].
      intros (ev & Hin & _)%classify_language_enqueued.
      apply Hkey. by apply (list_elem_of_fmap_2 fst) in Hin.
    + intros Happ [s Hs]. apply (sweep_elem_keeps_status _ _ _ s); [done|].
      intros name. rewrite Hname. by intros [= <-].
    + intros Happ Hs Htruthy [text Hvalue].
      rewrite (sweep_elem_backfill _ _ _ key text) by done.
      unfold backfilled_status. cbn.
      apply dict_get_None in Hkey. by rewrite Hkey.
    + intros Happ [text Hvalue]. unfold sweep_elem.
      rewrite Hname, Hvalue, Happ. by destruct key.
  - apply lookup_element_Some in Hget as (x & Hx & Hn & _).
    assert (x = data) as -> by congruence.
    assert (key' = key) as -> by congruence. done.
Qed.

(** An entry that the English file no longer has. *)
Lemma keys_outside_reference_only_swept_witness :
  let en := [("Greeting", "Hello")] in
  let tree :=
    [DataElem (Some "Greeting") (Some "Bonjour") (Some "status:complete");
     DataElem (Some "Legacy") (Some "Ancien") (Some "status:complete")] in
  ∃ data',
    (process_language None en "fr-FR" tree []).1 !! 1 = Some data'
    ∧ data' = DataElem (Some "Legacy") (Some "Ancien") (Some "status:complete").
Proof.
  intros en tree.
  destruct (keys_outside_reference_only_swept None en "fr-FR" tree [] 1
              (DataElem (Some "Legacy") (Some "Ancien")
                 (Some "status:complete"))
              "Legacy")
    as (data' & Hp & _ & _ & Hsame & _).
  - reflexivity.
  - reflexivity.
  - apply (bool_decide_unpack _). vm_compute. exact I.
  - exists data'. split; [exact Hp|]. apply Hsame; [reflexivity|].
    eexists. reflexivity.
Defined.

(** C9 as stated fails: an entry whose key is not an English key and that
    has no status gets the status incomplete. *)
Lemma keys_outside_reference_counterexample :
  let en := [("Greeting", "Hello")] in
  let tree :=
    [DataElem (Some "Greeting") (Some "Bonjour") (Some "status:complete");
     DataElem (Some "Legacy") (Some "Ancien") None] in
  dict_mem "Legacy" en = false
  ∧ (process_language None en "fr-FR" tree []).1
    = [DataElem (Some "Greeting") (Some "Bonjour") (Some "status:complete");
       DataElem (Some "Legacy") (Some "Ancien") (Some "status:incomplete")]
  ∧ elem_comment
      (DataElem (Some "Legacy") (Some "Ancien") (Some "status:incomplete"))
    ≠ elem_comment (DataElem (Some "Legacy") (Some "Ancien") None).
Proof.
  split; [reflexivity|]. split; [vm_compute; reflexivity | discriminate].
Qed.

(** C7.  For a technical key of the English file, the work list of a run
    never has the key, and the entry that the key is resolved to ends the
    run with the status complete and its value untouched, also when the
    value equals the English value. *)
Theorem technical_keys_complete_never_enqueued
    (translator : option Translator) (english_entries : dict string)
    (lang_code : string) (tree : list data_elem) (history : list event)
    (p : nat) (data : data_elem) (key : string) :
  is_technical key = true →
  key ∈ dict_keys english_entries →
  lookup_element tree key = Some p → tree !! p = Some data →
  (key ∉ dict_keys (classify_language english_entries tree).2)
  ∧ ∃ data',
      (process_language translator english_entries lang_code tree history).1
        !! p = Some data'
      ∧ get_comment_status data' = Some status_complete
      ∧ elem_value data' = elem_value data.
Proof.
  intros Htech Hkey Hget Hp.
  assert (key ∉ dict_keys (classify_language english_entries tree).2)
    as Hnot.
  { intros (ev & _ & Hno & _)%classify_language_enqueued. congruence. }
  split; [done|].
  apply list_elem_of_fmap in Hkey as ([k ev] & -> & Hin). cbn in *.
  set (T1 := completion_sweep english_entries false tree).
  destruct (find_untranslated_marks (parse_entries T1)
              (tree_data_elements T1) english_entries (T1, []) p
              (sweep_elem english_entries false data) k ev)
    as (e' & He' & Hcases & Hs); try done.
  { subst T1. cbn. by rewrite completion_sweep_lookup, Hp. }
  { rewrite <- Hget. apply lookup_element_names, completion_sweep_names. }
  { by left. }
  exists e'. split; [|split; [done|]].
  - apply process_language_keeps; try done.
    + destruct Hcases as [->| ->];
        [apply swept_sweep_elem | apply swept_set_complete].
    + intros key' Hname'.
      assert (elem_name e' = Some k) as Hname.
      { apply lookup_element_Some in Hget as (x & Hx & Hn & _).
        assert (x = data) as -> by congruence.
        destruct Hcases as [->| ->]; cbn; by rewrite sweep_elem_name. }
      assert (key' = k) as -> by congruence. done.
  - destruct Hcases as [->| ->]; cbn; apply sweep_elem_value.
Qed.

(** A technical key that the sweep does not force to complete. *)
Lemma technical_keys_complete_never_enqueued_witness :
  let en := [("URLPresetButton.Content", "URL"); ("Greeting", "Hello")] in
  let tree :=
    [DataElem (Some "URLPresetButton.Content") (Some "URL")
       (Some "status:incomplete")] in
  ("URLPresetButton.Content" ∉ dict_keys (classify_language en tree).2)
  ∧ ∃ data',
      (process_language None en "fr-FR" tree []).1 !! 0 = Some data'
      ∧ get_comment_status data' = Some status_complete
      ∧ elem_value data'
        = elem_value
            (DataElem (Some "URLPresetButton.Content") (Some "URL")
               (Some "status:incomplete")).
Proof.
  intros en tree.
  apply (technical_keys_complete_never_enqueued None en "fr-FR" tree [] 0
           (DataElem (Some "URLPresetButton.Content") (Some "URL")
              (Some "status:incomplete"))
           "URLPresetButton.Content").
  - reflexivity.
  - apply list_elem_of_here.
  - reflexivity.
  - reflexivity.
Defined.

(** C1, as amended.  In a run for one language, an entry whose value
    differs from the English value and whose stored status does not begin
    with [status:error:permanent] ends with the status complete and its
    value untouched, whatever else its stored status was, and its key is
    never on the work list.  The entry is the element that the script
    resolves the key to. *)
Theorem divergence_marks_complete
    (translator : option Translator) (english_entries : dict string)
    (lang_code : string) (tree : list data_elem) (history : list event)
    (p : nat) (data : data_elem) (key text english_value : string) :
  NoDup (dict_keys english_entries) →
  lookup_element tree key = Some p → tree !! p = Some data →
  elem_value data = Some text →
  dict_get key english_entries = Some english_value →
  text ≠ english_value →
  (∀ s, get_comment_status data = Some s →
        Py.startswith s status_error_permanent = false) →
  (key ∉ dict_keys (classify_language english_entries tree).2)
  ∧ ∃ data',
      (process_language translator english_entries lang_code tree history).1
        !! p = Some data'
      ∧ get_comment_status data' = Some status_complete
      ∧ elem_value data' = Some text.
Proof.
  intros Hnodup Hget Hp Hvalue Hen Hdiff Hperm.
  set (T1 := completion_sweep english_entries false tree).
  set (e1 := sweep_elem english_entries false data).
  assert (T1 !! p = Some e1) as H1.
  { subst T1. by rewrite completion_sweep_lookup, Hp. }
  assert (lookup_element T1 key = Some p) as Hget1.
  { rewrite <- Hget. apply lookup_element_names, completion_sweep_names. }
  assert (dict_get key (parse_entries T1) = Some text) as Hte.
  { apply (parse_entries_lookup T1 key p e1); try done.
    subst e1. by rewrite sweep_elem_value. }
  assert (key ∉ dict_keys (classify_language english_entries tree).2)
    as Hnot.
  { intros (ev & Hin & _ & _ & _ & Hvalue')%classify_language_enqueued.
    fold T1 in Hvalue'. rewrite Hte in Hvalue'.
    destruct Hvalue' as [|[= ->]]; [done|].
    apply (dict_get_NoDup _ _ _ Hnodup) in Hin. congruence. }
  split; [done|].
  destruct (find_untranslated_marks (parse_entries T1)
              (tree_data_elements T1) english_entries (T1, []) p
              e1 key english_value)
    as (e' & He' & Hcases & Hs); try done.
  { by apply dict_get_Some. }
  { right. right. split; [|by exists text].
    intros s Hs. subst e1.
    destruct (sweep_elem_status english_entries false data)
      as [Heq|[Heq|[Heq _]]]; rewrite Heq in Hs.
    - by apply Hperm.
    - by injection Hs as <-.
    - by injection Hs as <-. }
  exists e'. split; [|split; [done|]].
  - apply process_language_keeps; try done.
    + destruct Hcases as [->| ->];
        [apply swept_sweep_elem | apply swept_set_complete].
    + intros key' Hname'.
      assert (elem_name e' = Some key) as Hname.
      { apply lookup_element_Some in Hget as (x & Hx & Hn & _).
        assert (x = data) as -> by congruence.
        destruct Hcases as [->| ->]; subst e1; cbn;
          by rewrite sweep_elem_name. }
      assert (key' = key) as -> by congruence. done.
  - destruct Hcases as [->| ->]; subst e1; cbn;
      by rewrite sweep_elem_value.
Qed.

(** An entry translated by hand after a failed attempt. *)
Lemma divergence_marks_complete_witness :
  let en := [("Greeting", "Hello")] in
  let tree :=
    [DataElem (Some "Greeting") (Some "Bonjour")
       (Some "status:error:Translation service returned None")] in
  ("Greeting" ∉ dict_keys (classify_language en tree).2)
  ∧ ∃ data',
      (process_language None en "fr-FR" tree []).1 !! 0 = Some data'
      ∧ get_comment_status data' = Some status_complete
      ∧ elem_value data' = Some "Bonjour".
Proof.
  apply (divergence_marks_complete None [("Greeting", "Hello")] "fr-FR"
           [DataElem (Some "Greeting") (Some "Bonjour")
              (Some "status:error:Translation service returned None")]
           [] 0
           (DataElem (Some "Greeting") (Some "Bonjour")
              (Some "status:error:Translation service returned None"))
           "Greeting" "Bonjour" "Hello").
  - apply NoDup_singleton.
  - reflexivity.
  - reflexivity.
  - reflexivity.
  - reflexivity.
  - discriminate.
  - intros s [= <-]. reflexivity.
Defined.

(** C1 as stated fails: an entry stored as [status:error:permanent] whose
    value differs from the English value keeps that status in a run. *)
Lemma divergence_counterexample :
  let en := [("Greeting", "Hello")] in
  let tree :=
    [DataElem (Some "Greeting") (Some "Bonjour")
       (Some "status:error:permanent")] in
  let translator : Translator := λ _ text _, Returned ("fr:" +:+ text) in
  "Bonjour" ≠ "Hello"
  ∧ (process_language (Some translator) en "fr-FR" tree []).1
    = [DataElem (Some "Greeting") (Some "Bonjour")
         (Some "status:error:permanent")]
  ∧ get_comment_status
      (DataElem (Some "Greeting") (Some "Bonjour")
         (Some "status:error:permanent"))
    ≠ Some status_complete.
Proof.
  split; [discriminate|]. split; [vm_compute; reflexivity|].
  vm_compute. discriminate.
Qed.

(** ** What the parsers give *)

Lemma lookup_element_None tree key q e :
  lookup_element tree key = None → Py.truthy key = true →
  tree !! q = Some e → elem_name e ≠ Some key.
Proof.
  revert q e. induction tree as [|e0 tree IH] using rev_ind; [done|].
  intros q e. rewrite lookup_element_snoc. case_decide as Hd; [done|].
  intros Hnone Hk [[_ Hq]|[-> ->]]%lookup_snoc_Some.
  - by eapply IH.
  - intros Hname. by apply Hd.
Qed.

(** X1.  The element lookup that the script builds from a tree resolves
    a key to the last element that carries it as its name: it gives [p]
    exactly when the key is not empty, the element at [p] is named [key]
    and no later element is; it gives nothing exactly when, for a key that
    is not empty, no element is named [key]. *)
Theorem lookup_element_last_wins (tree : list data_elem) (key : string)
    (p : nat) :
  (lookup_element tree key = Some p
   ↔ Py.truthy key = true
     ∧ (∃ data, tree !! p = Some data ∧ elem_name data = Some key)
     ∧ (∀ q data, p < q → tree !! q = Some data →
                  elem_name data ≠ Some key))
  ∧ (lookup_element tree key = None
     ↔ (Py.truthy key = true →
        ∀ q data, tree !! q = Some data → elem_name data ≠ Some key)).
Proof.
  split.
  - revert p. induction tree as [|x tree IH] using rev_ind; intros p.
    { split; [done|]. by intros (_ & (d & Hd & _) & _). }
    rewrite lookup_element_snoc. case_decide as Hx.
    + destruct Hx as [Hname Hk]. split.
      * intros [= <-]. split; [done|]. split.
        -- exists x. by rewrite list_lookup_middle.
        -- intros q d Hq Hd. apply lookup_lt_Some in Hd.
           rewrite length_app in Hd. cbn in Hd. lia.
      * intros (_ & (d & Hd & Hn) & Hlast). f_equal.
        destruct (decide (p = length tree)) as [->|Hne]; [done|].
        assert (p < length tree).
        { apply lookup_lt_Some in Hd. rewrite length_app in Hd. cbn in Hd.
          lia. }
        destruct (Hlast (length tree) x); [done| |done].
        by rewrite list_lookup_middle.
    + rewrite IH. split.
      * intros (Hk & (d & Hd & Hn) & Hlast). split; [done|]. split.
        -- exists d. split; [|done]. by apply lookup_app_l_Some.
        -- intros q d' Hq [[_ Hd']|[-> ->]]%lookup_snoc_Some.
           ++ by eapply Hlast.
           ++ intros Hname. by apply Hx.
      * intros (Hk & (d & Hd & Hn) & Hlast). split; [done|].
        apply lookup_snoc_Some in Hd as [[_ Hd]|[-> ->]].
        -- split; [by exists d|]. intros q d' Hq Hd'.
           apply (Hlast q d' Hq). by apply lookup_app_l_Some.
        -- by destruct Hx.
  - split.
    + intros Hnone Hk q d Hd. by eapply lookup_element_None.
    + intros Hno. destruct (lookup_element tree key) as [p0|] eqn:Hp; [|done].
      apply lookup_element_Some in Hp as (e & He & Hn & Hk).
      by destruct (Hno Hk p0 e He).
Qed.

Lemma parse_entries_nodup tree : NoDup (dict_keys (parse_entries tree)).
Proof.
  induction tree as [|x tree IH] using rev_ind; [apply NoDup_nil_2|].
  rewrite parse_entries_snoc. repeat case_match; try done.
  by apply NoDup_dict_keys_set.
Qed.

(** X2.  [parse_resw_file] reports every key once, and the value it
    reports for [key] is the value of the last element named [key] that
    has a value child: the later elements of that name have none. *)
Theorem parse_entries_last_value (tree : list data_elem) (key text : string) :
  NoDup (dict_keys (parse_entries tree))
  ∧ (dict_get key (parse_entries tree) = Some text
     ↔ Py.truthy key = true
       ∧ ∃ p data,
           tree !! p = Some data ∧ elem_name data = Some key
           ∧ elem_value data = Some text
           ∧ ∀ q data', p < q → tree !! q = Some data' →
                        elem_name data' = Some key →
                        elem_value data' = None).
Proof.
  split; [apply parse_entries_nodup|].
  revert text. induction tree as [|x tree IH] using rev_ind; intros text.
  { split; [done|]. by intros (_ & p & d & Hd & _). }
  rewrite parse_entries_snoc.
  destruct (decide (elem_name x = Some key ∧ Py.truthy key = true
                    ∧ is_Some (elem_value x)))
    as [(Hname & Hk & [vx Hvx])|Hnot].
  - rewrite Hname, Hvx, Hk, dict_get_set_eq. split.
    + intros [= <-]. split; [done|]. exists (length tree), x.
      rewrite list_lookup_middle by done. repeat split; try done.
      intros q d Hq Hd. apply lookup_lt_Some in Hd.
      rewrite length_app in Hd. cbn in Hd. lia.
    + intros (_ & p & d & Hd & Hn & Hv & Hlast).
      apply lookup_snoc_Some in Hd as [[Hp Hd]|[-> ->]]; [|congruence].
      specialize (Hlast (length tree) x Hp).
      rewrite list_lookup_middle in Hlast by done.
      specialize (Hlast eq_refl Hname). congruence.
  - assert (dict_get key
              match elem_name x, elem_value x with
              | Some name, Some text =>
                  if Py.truthy name
                  then dict_set name text (parse_entries tree)
                  else parse_entries tree
              | _, _ => parse_entries tree
              end = dict_get key (parse_entries tree)) as ->.
    { destruct (elem_name x) as [name|] eqn:Hname; [|done].
      destruct (elem_value x) as [vx|] eqn:Hvx; [|done].
      destruct (Py.truthy name) eqn:Hk; [|done].
      rewrite dict_get_set_ne; [done|]. intros ->. apply Hnot.
      split; [done|]. split; [done|]. by exists vx. }
    rewrite IH. split.
    + intros (Hk & p & d & Hd & Hn & Hv & Hlast). split; [done|].
      exists p, d. split; [by apply lookup_app_l_Some|].
      split; [done|]. split; [done|].
      intros q d' Hq [[_ Hd']|[-> ->]]%lookup_snoc_Some Hn'.
      * by eapply Hlast.
      * destruct (elem_value d') as [v|] eqn:Hv'; [|done].
        destruct Hnot. split; [done|]. split; [done|]. by exists v.
    + intros (Hk & p & d & Hd & Hn & Hv & Hlast). split; [done|].
      apply lookup_snoc_Some in Hd as [[Hp Hd]|[-> ->]].
      * exists p, d. repeat split; try done.
        intros q d' Hq Hd'. apply (Hlast q d' Hq).
        by apply lookup_app_l_Some.
      * destruct Hnot. split; [done|]. split; [done|]. by exists text.
Qed.

(** ** The text that is sent *)

Lemma drop_chars_drop_chars n m s :
  Py.drop_chars n (Py.drop_chars m s) = Py.drop_chars (m + n) s.
Proof.
  revert s. induction m as [|m IH]; intros s; [done|].
  destruct s as [|c s]; cbn; [by destruct n | apply IH].
Qed.

Lemma lstrip_drop_chars s : ∃ n, Py.lstrip s = Py.drop_chars n s.
Proof.
  induction s as [|c s [n IH]]; [by exists 0|]. cbn.
  destruct (Py.isspace c); [by exists (S n) | by exists 0].
Qed.

Lemma span_not_drop_chars stop s :
  (Py.span_not stop s).2
  = Py.drop_chars (String.length (Py.span_not stop s).1) s.
Proof.
  induction s as [|c s IH]; [done|]. cbn.
  destruct (Ascii.eqb c stop); [done|].
  destruct (Py.span_not stop s) as [a b]. cbn in *. done.
Qed.

(** X3.  The cleaning of a text before it is sent only removes leading
    characters, and a text that does not begin with an opening bracket is
    sent as it is. *)
Theorem text_clean_only_drops (text : string) :
  (∃ n, text_clean text = Py.drop_chars n text)
  ∧ (String.prefix "[" text = false → text_clean text = text).
Proof.
  split.
  - unfold text_clean.
    destruct (String.prefix "[HQ:" text || String.prefix "[MT:" text);
      [|by exists 0].
    pose proof (span_not_drop_chars "]"%char (Py.drop_chars 4 text)) as Hspan.
    destruct (Py.span_not _ _) as [body rest]. cbn [fst snd] in Hspan.
    destruct body as [|b body]; [by exists 0|].
    destruct rest as [|r rest]; [by exists 0|].
    destruct (lstrip_drop_chars rest) as [n ->].
    exists (4 + String.length (String b body) + 1 + n).
    rewrite <- !drop_chars_drop_chars, <- Hspan. done.
  - intros Hbracket. unfold text_clean.
    destruct text as [|c text]; [done|].
    cbn [String.prefix] in Hbracket |- *.
    destruct (ascii_dec "["%char c); [by destruct text | done].
Qed.

Lemma span_not_app stop body rest :
  Py.contains (String stop "") body = false →
  Py.span_not stop (body +:+ String stop rest) = (body, String stop rest).
Proof.
  induction body as [|c body IH].
  - intros _. change ("" +:+ String stop rest) with (String stop rest).
    cbn. by rewrite Ascii.eqb_refl.
  - change (String c body +:+ String stop rest)
      with (String c (body +:+ String stop rest)).
    cbn [Py.contains Py.span_not String.prefix].
    destruct (ascii_dec stop c) as [->|Hne].
    + by destruct body.
    + cbn [orb]. intros Hbody. rewrite (IH Hbody).
      assert (Ascii.eqb c stop = false) as ->; [|done].
      apply Ascii.eqb_neq. congruence.
Qed.

(** X4.  A leading [[HQ:...]] or [[MT:...]] tag whose body is not empty
    and holds no closing bracket is removed, with the white space that
    follows it. *)
Theorem text_clean_removes_tag (body rest : string) :
  body ≠ "" → Py.contains "]" body = false →
  text_clean ("[HQ:" +:+ body +:+ "]" +:+ rest) = Py.lstrip rest
  ∧ text_clean ("[MT:" +:+ body +:+ "]" +:+ rest) = Py.lstrip rest.
Proof.
  intros Hbody Hclose.
  assert (∀ t : string,
    match Py.span_not "]"%char (body +:+ "]" +:+ rest) with
    | (String _ _, String _ rest') => Py.lstrip rest'
    | _ => t
    end = Py.lstrip rest) as Hspan.
  { intros t. change ("]" +:+ rest) with (String "]" rest).
    rewrite span_not_app by done. by destruct body. }
  set (x := body +:+ "]" +:+ rest) in *.
  split; unfold text_clean.
  - change ("[HQ:" +:+ x)
      with (String "[" (String "H" (String "Q" (String ":" x)))).
    replace (String.prefix "[HQ:"
               (String "[" (String "H" (String "Q" (String ":" x)))))
      with true by (by destruct x).
    cbn [orb Py.drop_chars]. apply Hspan.
  - change ("[MT:" +:+ x)
      with (String "[" (String "M" (String "T" (String ":" x)))).
    replace (String.prefix "[MT:"
               (String "[" (String "M" (String "T" (String ":" x)))))
      with true by (by destruct x).
    rewrite orb_true_r. cbn [Py.drop_chars]. apply Hspan.
Qed.

Lemma text_clean_removes_tag_witness :
  text_clean ("[HQ:" +:+ " fr-FR" +:+ "]" +:+ "  Bonjour") = "Bonjour"
  ∧ text_clean ("[MT:" +:+ " fr-FR" +:+ "]" +:+ "  Bonjour") = "Bonjour".
Proof.
  apply (text_clean_removes_tag " fr-FR" "  Bonjour"); [discriminate|].
  reflexivity.
Defined.

(** ** Bounds of one call of the gateway *)

Lemma calls_app h1 h2 : calls (h1 ++ h2) = calls h1 ++ calls h2.
Proof.
  induction h1 as [|[t d|s] h1 IH]; cbn; [done| |done]. by rewrite IH.
Qed.

Lemma total_sleep_app h1 h2 :
  (total_sleep (h1 ++ h2) == total_sleep h1 + total_sleep h2)%Q.
Proof.
  induction h1 as [|[t d|s] h1 IH]; cbn.
  - ring.
  - done.
  - rewrite IH. ring.
Qed.

Lemma attempts_history_calls text lang h a :
  length (calls (attempts_history text lang h a)) = length (calls h) + a.
Proof.
  induction a as [|a IH].
  - unfold attempts_history. cbn. rewrite app_nil_r. lia.
  - rewrite attempts_history_S, !calls_app, !length_app, IH. cbn. lia.
Qed.

Lemma attempts_history_sleep text lang h a :
  (total_sleep (attempts_history text lang h a)
   == total_sleep h + inject_Z (Z.of_nat (a * (a + 1))))%Q.
Proof.
  induction a as [|a IH].
  - unfold attempts_history. cbn. rewrite app_nil_r. ring.
  - rewrite attempts_history_S, !total_sleep_app, IH. cbn [total_sleep].
    unfold wait_time.
    replace (Z.of_nat (S a * (S a + 1)))
      with (Z.of_nat (a * (a + 1)) + Z.of_nat ((a + 1) * 2))%Z by lia.
    rewrite inject_Z_plus. ring.
Qed.

(** X5.  One call of [translate_text] makes [n] calls of the service,
    [n] at most [max_retries], and sleeps [(n - 1) * n] seconds in all;
    when it makes no call it returns [None] and leaves the history as it
    is. *)
Theorem translate_text_bounds
    (translator : option Translator) (text target_lang : string)
    (max_retries : nat) (history : list event) :
  ∃ n,
    n ≤ max_retries
    ∧ length (calls (translate_text text target_lang translator max_retries
                       history).2)
      = length (calls history) + n
    ∧ (total_sleep (translate_text text target_lang translator max_retries
                      history).2
       == total_sleep history + inject_Z (Z.of_nat ((n - 1) * n)))%Q
    ∧ (n = 0 →
       translate_text text target_lang translator max_retries history
       = (Value None, history)).
Proof.
  destruct translator as [translator|]; cbn [translate_text].
  { destruct max_retries as [|m].
    - exists 0. cbn. split; [lia|]. split; [lia|]. split; [ring | done].
    - destruct (translate_attempts_policy translator (text_clean text)
                  target_lang history (S m) m 0 eq_refl)
        as (n & Hn & Hrun & _).
      cbn zeta in Hrun.
      assert (attempts_history (text_clean text) target_lang history 0
              = history) as H0.
      { unfold attempts_history. cbn. by rewrite app_nil_r. }
      rewrite H0 in Hrun. rewrite Hrun. cbn [snd].
      exists (S n). split; [lia|].
      rewrite calls_app, length_app, total_sleep_app,
        attempts_history_calls, attempts_history_sleep.
      cbn [calls length total_sleep].
      split; [lia|]. split; [|done].
      replace ((S n - 1) * S n) with (n * (n + 1)) by lia. ring. }
  exists 0. cbn. split; [lia|]. split; [lia|]. split; [ring | done].
Qed.

(** ** What a write-back does to one entry *)

Section write_back_folds.
Context (en errs : dict string).
Implicit Types (st : list data_elem * dict nat) (e : data_elem).
Implicit Types (trs : dict (option string)) (tv : option string).

(** Elements whose value differs from the English value keep it. *)
Lemma fold_process_translation_diverged trs st p e :
  st.1 !! p = Some e →
  (∀ k, elem_name e = Some k → value_text e ≠ dict_get_or k "" en) →
  (∀ k, dict_get k st.2 = Some p → elem_name e = Some k) →
  ∃ e', (fold_left (process_translation en errs) trs st).1 !! p = Some e'
    ∧ elem_name e' = elem_name e ∧ elem_value e' = elem_value e.
Proof.
  revert st e. induction trs as [|[key tv] trs IH]; intros st e He Hdiff Hrefs.
  { by exists e. }
  cbn [fold_left].
  assert (∃ e1, (process_translation en errs st (key, tv)).1 !! p = Some e1
            ∧ elem_name e1 = elem_name e ∧ elem_value e1 = elem_value e)
    as (e1 & He1 & Hn1 & Hv1).
  { destruct (decide (dict_get key st.2 = Some p)) as [Hkey|Hkey].
    - destruct (process_translation_target en errs st key tv p e He Hkey)
        as [-> _].
      eexists. split; [done|]. unfold apply_translation.
      apply Hrefs, Hdiff in Hkey. apply String.eqb_neq in Hkey as ->.
      done.
    - exists e. split; [|done]. by apply process_translation_other. }
  destruct (IH _ e1 He1) as (e' & He' & Hn' & Hv').
  - intros k. rewrite Hn1. intros Hk. unfold value_text. rewrite Hv1.
    by apply Hdiff.
  - intros k Hk. rewrite Hn1. apply Hrefs.
    eapply process_translation_elements; [|done]. by eapply lookup_lt_Some.
  - exists e'. split; [done|]. by rewrite Hn', Hv', Hn1, Hv1.
Qed.

Lemma process_translation_length st key tv :
  length st.1 ≤ length (process_translation en errs st (key, tv)).1.
Proof.
  destruct st as [tree elements]. cbn.
  destruct (dict_get key elements); cbn.
  - by rewrite length_alter.
  - rewrite length_app. lia.
Qed.

Lemma process_translation_refs st key tv :
  (∀ k i, dict_get k st.2 = Some i → i < length st.1) →
  ∀ k i, dict_get k (process_translation en errs st (key, tv)).2 = Some i →
         i < length (process_translation en errs st (key, tv)).1.
Proof.
  destruct st as [tree elements]. cbn. intros Hrefs k i.
  destruct (dict_get key elements) as [j|] eqn:Hkey; cbn.
  - rewrite length_alter. apply Hrefs.
  - rewrite length_app. cbn. destruct (decide (key = k)) as [->|Hne].
    + rewrite dict_get_set_eq. intros [= <-]. lia.
    + rewrite dict_get_set_ne by done. intros ?%Hrefs. lia.
Qed.

(** A key that has no element gets one. *)
Lemma fold_process_translation_new trs st key tv :
  NoDup (dict_keys trs) → (key, tv) ∈ trs →
  dict_get key st.2 = None →
  (∀ k i, dict_get k st.2 = Some i → i < length st.1) →
  ∃ p, length st.1 ≤ p
    ∧ (fold_left (process_translation en errs) trs st).1 !! p
      = Some (new_data en key tv).
Proof.
  revert st. induction trs as [|[k0 tv0] trs IH];
    intros st Hnodup Hin Hkey Hrefs.
  { by apply elem_of_nil in Hin. }
  cbn in Hnodup. apply NoDup_cons in Hnodup as [Hk0 Hnodup].
  cbn [fold_left]. apply elem_of_cons in Hin as [[= <- <-]|Hin].
  - exists (length st.1). split; [done|].
    apply fold_process_translation_other.
    + destruct st as [tree elements]. cbn in *. rewrite Hkey. cbn.
      by rewrite list_lookup_middle.
    + intros k Hk Hget. destruct st as [tree elements]. cbn in *.
      rewrite Hkey in Hget. cbn in Hget.
      rewrite dict_get_set_ne in Hget by (by intros ->).
      apply Hrefs in Hget. lia.
  - assert (k0 ≠ key) as Hne.
    { intros ->. apply Hk0. by apply (list_elem_of_fmap_2 fst) in Hin. }
    destruct (IH (process_translation en errs st (k0, tv0)))
      as (p & Hp & Hnew); try done.
    + destruct st as [tree elements]. cbn in *.
      destruct (dict_get k0 elements); cbn; [done|].
      by rewrite dict_get_set_ne.
    + by apply process_translation_refs.
    + exists p. split; [|done].
      pose proof (process_translation_length st k0 tv0). lia.
Qed.

(** The elements that come are for keys that had none, at most one for
    each translation. *)
Lemma fold_process_translation_shape trs st :
  ∃ ext,
    elem_name <$> (fold_left (process_translation en errs) trs st).1
    = (elem_name <$> st.1) ++ (Some <$> ext)
    ∧ (∀ k, k ∈ ext → k ∈ dict_keys trs ∧ dict_get k st.2 = None)
    ∧ length ext ≤ length trs.
Proof.
  revert st. induction trs as [|[key tv] trs IH]; intros st.
  { exists []. rewrite app_nil_r. split; [done|]. split; [|done].
    by intros k ?%elem_of_nil. }
  cbn [fold_left].
  destruct (IH (process_translation en errs st (key, tv)))
    as (ext & -> & Hext & Hlen).
  assert (∀ k, dict_get k (process_translation en errs st (key, tv)).2 = None
               → dict_get k st.2 = None) as Hback.
  { intros k Hk. destruct (dict_get k st.2) as [i|] eqn:Hi; [|done].
    by rewrite (process_translation_elements_keep en errs st key tv k i Hi)
      in Hk. }
  destruct st as [tree elements]. cbn in *.
  destruct (dict_get key elements) as [i|] eqn:Hkey; cbn in *.
  - exists ext. split.
    + by rewrite fmap_name_alter by apply apply_translation_name.
    + split; [|lia]. intros k Hk. destruct (Hext k Hk) as [Hin Hnone].
      split; [by right | by apply Hback].
  - exists (key :: ext). split.
    + by rewrite fmap_app, <- app_assoc.
    + split; [|cbn; lia]. intros k [->|Hk]%elem_of_cons.
      * split; [by left | done].
      * destruct (Hext k Hk) as [Hin Hnone].
        split; [by right | by apply Hback].
Qed.
End write_back_folds.

Lemma tree_data_elements_refs tree k i :
  dict_get k (tree_data_elements tree) = Some i → i < length tree.
Proof. apply lookup_element_lt. Qed.

(** X6.  [update_resw_file] never overwrites a value that differs from
    the English value: whatever the translations are, such an entry keeps
    its name and its value. *)
Theorem update_resw_file_keeps_diverged_values
    (tree : list data_elem) (translations : dict (option string))
    (translation_errors english_entries : dict string)
    (is_english_file : bool) (p : nat) (data : data_elem) :
  tree !! p = Some data →
  (∀ key, elem_name data = Some key →
          value_text data ≠ dict_get_or key "" english_entries) →
  ∃ data',
    update_resw_file tree translations translation_errors english_entries
      is_english_file !! p = Some data'
    ∧ elem_name data' = elem_name data
    ∧ elem_value data' = elem_value data.
Proof.
  intros Hp Hdiff. rewrite update_resw_file_lookup.
  destruct (fold_process_translation_diverged english_entries
              translation_errors translations
              (tree, tree_data_elements tree) p data Hp Hdiff)
    as (e' & -> & Hn & Hv).
  - intros k (e & He & Hname & _)%lookup_element_Some. cbn in He. congruence.
  - eexists. split; [done|]. by rewrite sweep_elem_name, sweep_elem_value.
Qed.

Lemma update_resw_file_keeps_diverged_values_witness :
  ∃ data',
    update_resw_file
      [DataElem (Some "Greeting") (Some "Bonjour") (Some "status:incomplete")]
      [("Greeting", Some "Salut")] [] [("Greeting", "Hello")] false !! 0
    = Some data'
    ∧ elem_name data' = Some "Greeting"
    ∧ elem_value data' = Some "Bonjour".
Proof.
  apply (update_resw_file_keeps_diverged_values
           [DataElem (Some "Greeting") (Some "Bonjour")
              (Some "status:incomplete")]
           [("Greeting", Some "Salut")] [] [("Greeting", "Hello")] false 0
           (DataElem (Some "Greeting") (Some "Bonjour")
              (Some "status:incomplete"))).
  - reflexivity.
  - intros key [= <-]. discriminate.
Defined.

(** X7.  For a non-technical key of the translations that is resolved
    to no element, [update_resw_file] appends an entry: with the
    translation and the status complete when the translation is not
    empty, with the English value and the status incomplete otherwise. *)
Theorem update_resw_file_creates_missing_entry
    (tree : list data_elem) (translations : dict (option string))
    (translation_errors english_entries : dict string)
    (key : string) (translated_value : option string) :
  NoDup (dict_keys translations) →
  (key, translated_value) ∈ translations →
  lookup_element tree key = None →
  is_technical key = false →
  ∃ p,
    length tree ≤ p
    ∧ update_resw_file tree translations translation_errors english_entries
        false !! p
      = Some
          {| elem_name := Some key;
             elem_value :=
               Some (if Py.truthy_opt translated_value
                     then default "" translated_value
                     else dict_get_or key "" english_entries);
             elem_comment :=
               Some (if Py.truthy_opt translated_value
                     then status_complete else status_incomplete) |}.
Proof.
  intros Hnodup Hin Hkey Htech.
  destruct (fold_process_translation_new english_entries translation_errors
              translations (tree, tree_data_elements tree) key
              translated_value Hnodup Hin Hkey)
    as (p & Hp & Hnew).
  { intros k i. apply tree_data_elements_refs. }
  exists p. split; [done|]. rewrite update_resw_file_lookup, Hnew.
  cbn [fmap option_fmap option_map]. f_equal.
  assert (new_data english_entries key translated_value
          = set_comment_status
              (if Py.truthy_opt translated_value
               then status_complete else status_incomplete)
              {| elem_name := Some key;
                 elem_value :=
                   Some (if Py.truthy_opt translated_value
                         then default "" translated_value
                         else dict_get_or key "" english_entries);
                 elem_comment := None |}) as ->.
  { unfold new_data, set_comment_status. cbn.
    destruct translated_value as [text|]; cbn; [|done].
    by destruct (Py.truthy text). }
  rewrite sweep_elem_marked; [done| |].
  - by destruct (Py.truthy_opt translated_value).
  - cbn. intros name [= <-]. by apply not_technical_not_app_or_unit.
Qed.

Lemma update_resw_file_creates_missing_entry_witness :
  ∃ p,
    0 ≤ p
    ∧ update_resw_file [] [("Greeting", Some "Bonjour")] []
        [("Greeting", "Hello")] false !! p
      = Some (DataElem (Some "Greeting") (Some "Bonjour")
                (Some "status:complete")).
Proof.
  apply (update_resw_file_creates_missing_entry [] 
           [("Greeting", Some "Bonjour")] [] [("Greeting", "Hello")]
           "Greeting" (Some "Bonjour")).
  - apply NoDup_singleton.
  - apply list_elem_of_singleton. reflexivity.
  - reflexivity.
  - reflexivity.
Defined.

(** X8.  An entry whose value equals the English value and whose key
    has a non-empty translation gets the translation as its value and the
    status complete. *)
Theorem update_resw_file_stores_translation
    (tree : list data_elem) (translations : dict (option string))
    (translation_errors english_entries : dict string)
    (key text : string) (p : nat) (data : data_elem) :
  NoDup (dict_keys translations) →
  lookup_element tree key = Some p → tree !! p = Some data →
  value_text data = dict_get_or key "" english_entries →
  (key, Some text) ∈ translations → text ≠ "" →
  update_resw_file tree translations translation_errors english_entries
    false !! p
  = Some {| elem_name := Some key;
            elem_value := Some text;
            elem_comment := Some status_complete |}.
Proof.
  intros Hnodup Hkey Hp Hvalue Hin Htext.
  erewrite update_resw_file_target by done.
  unfold apply_translation. rewrite Hvalue, String.eqb_refl. cbn [negb].
  assert (Py.truthy text = true) as -> by (by destruct text).
  apply lookup_element_Some in Hkey as (e & He & Hname & _).
  assert (e = data) as -> by congruence.
  rewrite sweep_elem_complete. cbn. by rewrite Hname.
Qed.

Lemma update_resw_file_stores_translation_witness :
  update_resw_file
    [DataElem (Some "Greeting") (Some "Hello") (Some "status:incomplete")]
    [("Greeting", Some "Bonjour")] [] [("Greeting", "Hello")] false !! 0
  = Some (DataElem (Some "Greeting") (Some "Bonjour")
            (Some "status:complete")).
Proof.
  apply (update_resw_file_stores_translation
           [DataElem (Some "Greeting") (Some "Hello")
              (Some "status:incomplete")]
           [("Greeting", Some "Bonjour")] [] [("Greeting", "Hello")]
           "Greeting" "Bonjour" 0
           (DataElem (Some "Greeting") (Some "Hello")
              (Some "status:incomplete"))).
  - apply NoDup_singleton.
  - reflexivity.
  - reflexivity.
  - reflexivity.
  - apply list_elem_of_singleton. reflexivity.
  - discriminate.
Defined.

(** X9.  The first failure of a key: when the entry of a non-technical
    key equals the English value, which is not [Tab], has no error status
    yet, and its translation failed for another reason than being the
    same as English, the entry gets the status [status:error:] followed
    by the message, and keeps its value. *)
Theorem update_resw_file_first_failure
    (tree : list data_elem) (translations : dict (option string))
    (translation_errors english_entries : dict string)
    (key : string) (p : nat) (data : data_elem) :
  NoDup (dict_keys translations) →
  lookup_element tree key = Some p → tree !! p = Some data →
  is_technical key = false →
  value_text data = dict_get_or key "" english_entries →
  dict_get_or key "" english_entries ≠ "Tab" →
  (∀ s, get_comment_status data = Some s →
        Py.startswith s status_error_prefix = false) →
  (key, None) ∈ translations →
  dict_get_or key "Translation failed" translation_errors
  ≠ "Translation same as English" →
  ∃ data',
    update_resw_file tree translations translation_errors english_entries
      false !! p = Some data'
    ∧ elem_comment data'
      = Some (status_error_prefix
              +:+ dict_get_or key "Translation failed" translation_errors)
    ∧ value_text data' = value_text data.
Proof.
  intros Hnodup Hkey Hp Htech Hvalue Htab Hfirst Hin Herr.
  erewrite update_resw_file_target by done.
  rewrite apply_translation_failed by done.
  apply String.eqb_neq in Htab as ->.
  assert (match get_comment_status data with
          | Some s =>
              if Py.truthy s && Py.startswith s status_error_prefix
              then status_error_permanent
              else status_error_prefix
                   +:+ dict_get_or key "Translation failed"
                         translation_errors
          | None =>
              status_error_prefix
              +:+ dict_get_or key "Translation failed" translation_errors
          end
          = status_error_prefix
            +:+ dict_get_or key "Translation failed" translation_errors)
    as ->.
  { destruct (get_comment_status data) as [s|] eqn:Hs; [|done].
    by rewrite (Hfirst s eq_refl), andb_false_r. }
  apply lookup_element_Some in Hkey as (e & He & Hname & _).
  assert (e = data) as -> by congruence.
  eexists. split; [done|].
  rewrite sweep_elem_marked; [done|done|].
  cbn. intros name. rewrite Hname. intros [= <-].
  by apply not_technical_not_app_or_unit.
Qed.

Lemma update_resw_file_first_failure_witness :
  ∃ data',
    update_resw_file
      [DataElem (Some "Greeting") (Some "Hello") (Some "status:incomplete")]
      [("Greeting", None)] [] [("Greeting", "Hello")] false !! 0
    = Some data'
    ∧ elem_comment data' = Some "status:error:Translation failed"
    ∧ value_text data' = "Hello".
Proof.
  apply (update_resw_file_first_failure
           [DataElem (Some "Greeting") (Some "Hello")
              (Some "status:incomplete")]
           [("Greeting", None)] [] [("Greeting", "Hello")] "Greeting" 0
           (DataElem (Some "Greeting") (Some "Hello")
              (Some "status:incomplete"))).
  - apply NoDup_singleton.
  - reflexivity.
  - reflexivity.
  - reflexivity.
  - reflexivity.
  - discriminate.
  - intros s [= <-]. reflexivity.
  - apply list_elem_of_singleton. reflexivity.
  - discriminate.
Defined.

(** X10.  An empty translated text changes nothing: the entry of a
    non-technical key that equals the English value and has a status
    keeps its comment and its value. *)
Theorem update_resw_file_ignores_empty_translation
    (tree : list data_elem) (translations : dict (option string))
    (translation_errors english_entries : dict string)
    (key s : string) (p : nat) (data : data_elem) :
  NoDup (dict_keys translations) →
  lookup_element tree key = Some p → tree !! p = Some data →
  is_technical key = false →
  value_text data = dict_get_or key "" english_entries →
  get_comment_status data = Some s →
  (key, Some "") ∈ translations →
  ∃ data',
    update_resw_file tree translations translation_errors english_entries
      false !! p = Some data'
    ∧ elem_comment data' = elem_comment data
    ∧ value_text data' = value_text data.
Proof.
  intros Hnodup Hkey Hp Htech Hvalue Hs Hin.
  erewrite update_resw_file_target by done.
  unfold apply_translation. rewrite Hvalue, String.eqb_refl. cbn [negb].
  cbn [Py.truthy String.eqb negb].
  eexists. split; [done|].
  rewrite (sweep_elem_keeps_status _ _ _ s); [done|done|].
  cbn. apply lookup_element_Some in Hkey as (e & He & Hname & _).
  assert (e = data) as -> by congruence.
  intros name. rewrite Hname. intros [= <-].
  by apply not_technical_not_app_or_unit.
Qed.

Lemma update_resw_file_ignores_empty_translation_witness :
  ∃ data',
    update_resw_file
      [DataElem (Some "Greeting") (Some "Hello")
         (Some "status:error:Translation service returned None")]
      [("Greeting", Some "")] [] [("Greeting", "Hello")] false !! 0
    = Some data'
    ∧ elem_comment data'
      = Some "status:error:Translation service returned None"
    ∧ value_text data' = "Hello".
Proof.
  apply (update_resw_file_ignores_empty_translation
           [DataElem (Some "Greeting") (Some "Hello")
              (Some "status:error:Translation service returned None")]
           [("Greeting", Some "")] [] [("Greeting", "Hello")] "Greeting"
           "status:error:Translation service returned None" 0
           (DataElem (Some "Greeting") (Some "Hello")
              (Some "status:error:Translation service returned None"))).
  - apply NoDup_singleton.
  - reflexivity.
  - reflexivity.
  - reflexivity.
  - reflexivity.
  - reflexivity.
  - apply list_elem_of_singleton. reflexivity.
Defined.

(** X11.  [update_resw_file] never removes or reorders entries: the
    names of the result are the names of the tree followed by new keys;
    each new key is a key of the translations that was resolved to no
    element, and there are at most as many as translations. *)
Theorem update_resw_file_only_appends
    (tree : list data_elem) (translations : dict (option string))
    (translation_errors english_entries : dict string)
    (is_english_file : bool) :
  ∃ new_keys,
    elem_name
      <$> update_resw_file tree translations translation_errors
            english_entries is_english_file
    = (elem_name <$> tree) ++ (Some <$> new_keys)
    ∧ (∀ key, key ∈ new_keys →
              key ∈ dict_keys translations
              ∧ lookup_element tree key = None)
    ∧ length new_keys ≤ length translations.
Proof.
  destruct (fold_process_translation_shape english_entries
              translation_errors translations
              (tree, tree_data_elements tree)) as (ext & Hnames & Hext & Hlen).
  exists ext. split; [|done]. cbn [fst] in Hnames. rewrite <- Hnames.
  unfold update_resw_file.
  destruct (fold_left _ _ _) as [tree' elements']. cbn.
  unfold completion_sweep. rewrite <- list_fmap_compose.
  apply list_fmap_ext. intros _ e _. apply sweep_elem_name.
Qed.

(** X12.  In the tree that one call of [update_resw_file] builds, every
    entry that has a non-empty name and a value has a non-empty comment,
    and the entries of the application name and of the three unit names
    have the comment [status:complete], whatever they had before. *)
Theorem update_resw_file_marks_every_entry
    (tree : list data_elem) (translations : dict (option string))
    (translation_errors english_entries : dict string)
    (is_english_file : bool) (p : nat) (data : data_elem)
    (name text : string) :
  update_resw_file tree translations translation_errors english_entries
    is_english_file !! p = Some data →
  elem_name data = Some name → Py.truthy name = true →
  elem_value data = Some text →
  (∃ marker, elem_comment data = Some marker ∧ marker ≠ "")
  ∧ (is_app_or_unit name = true →
     elem_comment data = Some status_complete).
Proof.
  intros Hp Hname Hn Hvalue.
  rewrite update_resw_file_lookup in Hp.
  destruct (_ !! p) as [e|] eqn:He; [|done]. injection Hp as <-.
  rewrite sweep_elem_name in Hname. rewrite sweep_elem_value in Hvalue.
  split; [by eapply sweep_elem_marker|].
  intros Happ. unfold sweep_elem. by rewrite Hname, Hvalue, Hn, Happ.
Qed.

Lemma update_resw_file_marks_every_entry_witness :
  (∃ marker,
     elem_comment
       (DataElem (Some "AppName") (Some "Grex") (Some "status:complete"))
     = Some marker
     ∧ marker ≠ "")
  ∧ (is_app_or_unit "AppName" = true →
     elem_comment
       (DataElem (Some "AppName") (Some "Grex") (Some "status:complete"))
     = Some status_complete).
Proof.
  apply (update_resw_file_marks_every_entry
           [DataElem (Some "AppName") (Some "Grex")
              (Some "status:incomplete")]
           [("Greeting", None)] [] [("Greeting", "Hello")] false 0
           (DataElem (Some "AppName") (Some "Grex") (Some "status:complete"))
           "AppName" "Grex");
    reflexivity.
Defined.

(** ** What the classifier enqueues *)

Lemma elem_of_dict_set {V} k (v : V) k' v' (d : dict V) :
  (k', v') ∈ dict_set k v d → (k', v') = (k, v) ∨ (k', v') ∈ d.
Proof.
  induction d as [|[k0 v0] d IH]; cbn.
  - intros ->%list_elem_of_singleton. by left.
  - destruct (k0 =s= k).
    + intros [->|Hin]%elem_of_cons; [by left|]. right. by right.
    + intros [->|Hin]%elem_of_cons; [right; by left|].
      destruct (IH Hin) as [->|?]; [by left|]. right. by right.
Qed.

Section classifier_work_list.
Context (te : dict string) (tde : dict nat).
Implicit Types (st : list data_elem * dict string).

Lemma find_untranslated_items en st k v :
  (k, v) ∈ (fold_left (classify_entry te tde) en st).2 →
  (k, v) ∈ st.2 ∨ (k, v) ∈ en.
Proof.
  revert st. induction en as [|[key ev] en IH]; intros st; [by left|].
  cbn [fold_left]. intros [Hin|Hin]%IH; [|right; by right].
  destruct (classify_entry_untranslated_cases te tde st key ev) as [Heq|Heq];
    rewrite Heq in Hin; [by left|].
  apply elem_of_dict_set in Hin as [->|Hin]; [right; by left | by left].
Qed.

Lemma find_untranslated_grows en st k :
  k ∈ dict_keys st.2 →
  k ∈ dict_keys (fold_left (classify_entry te tde) en st).2.
Proof.
  revert st. induction en as [|[key ev] en IH]; intros st Hk; [done|].
  cbn [fold_left]. apply IH.
  destruct (classify_entry_untranslated_cases te tde st key ev) as [->| ->];
    [done|]. apply elem_of_dict_keys_set. by right.
Qed.

(** The step for an item whose entry is missing or still untranslated
    puts it on the work list and leaves the tree alone. *)
Lemma classify_entry_enqueues st key ev :
  is_technical key = false →
  match comment_status_of tde st.1 key with
  | None => True
  | Some s =>
      s = status_incomplete
      ∨ (Py.startswith s status_error_prefix = true
         ∧ Py.startswith s status_error_permanent = false)
  end →
  dict_get key te = None ∨ dict_get key te = Some ev →
  classify_entry te tde st (key, ev) = (st.1, dict_set key ev st.2).
Proof.
  intros Htech Hcond Hte. destruct st as [tree u]. cbn [fst snd] in *.
  unfold classify_entry.
  rewrite Htech, (not_technical_not_app_or_unit key Htech).
  destruct (comment_status_of tde tree key) as [s|].
  - assert ((s =s= status_complete) = false) as ->.
    { apply String.eqb_neq. intros ->. by destruct Hcond as [|[]]. }
    assert (Py.startswith s status_error_permanent = false) as Hperm.
    { destruct Hcond as [->|[_ ?]]; done. }
    rewrite Hperm, andb_false_r.
    destruct Hte as [->| ->]; [done|].
    rewrite String.eqb_refl. cbn [negb].
    destruct Hcond as [->|[-> _]]; [done|].
    by destruct (s =s= status_incomplete).
  - destruct Hte as [->| ->]; [done|].
    by rewrite String.eqb_refl.
Qed.

Lemma find_untranslated_invariant (C : list data_elem → Prop) en st key :
  key ∉ dict_keys en →
  (∀ st k v, k ≠ key → C st.1 → C (classify_entry te tde st (k, v)).1) →
  C st.1 → C (fold_left (classify_entry te tde) en st).1.
Proof.
  intros Hkey Hstep. revert st Hkey.
  induction en as [|[k v] en IH]; intros st Hkey HC; [done|].
  cbn [fold_left]. cbn in Hkey. apply not_elem_of_cons in Hkey as [Hne Hkey].
  apply IH; [done|]. apply Hstep; [congruence | done].
Qed.

Lemma find_untranslated_enqueues (C : list data_elem → Prop) en st key ev :
  NoDup (dict_keys en) → (key, ev) ∈ en → is_technical key = false →
  (∀ st k v, k ≠ key → C st.1 → C (classify_entry te tde st (k, v)).1) →
  (∀ tree, C tree →
     match comment_status_of tde tree key with
     | None => True
     | Some s =>
         s = status_incomplete
         ∨ (Py.startswith s status_error_prefix = true
            ∧ Py.startswith s status_error_permanent = false)
     end) →
  dict_get key te = None ∨ dict_get key te = Some ev →
  C st.1 →
  C (fold_left (classify_entry te tde) en st).1
  ∧ key ∈ dict_keys (fold_left (classify_entry te tde) en st).2.
Proof.
  intros Hnodup Hin Htech Hstep Hcond Hte. revert st Hnodup Hin.
  induction en as [|[k v] en IH]; intros st Hnodup Hin HC.
  { by apply elem_of_nil in Hin. }
  cbn in Hnodup. apply NoDup_cons in Hnodup as [Hk Hnodup].
  cbn [fold_left]. apply elem_of_cons in Hin as [[= <- <-]|Hin].
  - rewrite classify_entry_enqueues; [|done|by apply Hcond|done]. split.
    + by apply (find_untranslated_invariant C en _ key).
    + apply find_untranslated_grows. apply elem_of_dict_keys_set. by left.
  - apply IH; [done..|]. apply Hstep; [|done].
    intros ->. apply Hk. by apply (list_elem_of_fmap_2 fst) in Hin.
Qed.
End classifier_work_list.

(** X13.  The classifier changes nothing but statuses, and only to
    complete: the tree keeps its length, and every element is as before
    or has been marked complete. *)
Theorem find_untranslated_entries_only_marks_complete
    (english_entries target_entries : dict string)
    (target_data_elements : dict nat) (tree : list data_elem)
    (p : nat) (data : data_elem) :
  tree !! p = Some data →
  let result :=
    (find_untranslated_entries english_entries target_entries
       target_data_elements tree).1 in
  length result = length tree
  ∧ ∃ data',
      result !! p = Some data'
      ∧ (data' = data ∨ data' = set_comment_status status_complete data).
Proof.
  intros Hp result. subst result. unfold find_untranslated_entries. split.
  - rewrite <- (length_fmap elem_name), find_untranslated_names.
    apply length_fmap.
  - destruct (find_untranslated_lookup target_entries target_data_elements
                english_entries (tree, []) p data Hp)
      as (e' & He' & [->|[-> _]]); eexists; (split; [done|]); auto.
Qed.

Lemma find_untranslated_entries_only_marks_complete_witness :
  let tree :=
    [DataElem (Some "Greeting") (Some "Bonjour") (Some "status:incomplete")] in
  let result :=
    (find_untranslated_entries [("Greeting", "Hello")]
       (parse_entries tree) (tree_data_elements tree) tree).1 in
  length result = 1
  ∧ ∃ data',
      result !! 0 = Some data'
      ∧ (data' = DataElem (Some "Greeting") (Some "Bonjour")
                   (Some "status:incomplete")
         ∨ data' = set_comment_status status_complete
                     (DataElem (Some "Greeting") (Some "Bonjour")
                        (Some "status:incomplete"))).
Proof.
  intros tree.
  apply (find_untranslated_entries_only_marks_complete
           [("Greeting", "Hello")] (parse_entries tree)
           (tree_data_elements tree) tree 0
           (DataElem (Some "Greeting") (Some "Bonjour")
              (Some "status:incomplete"))).
  reflexivity.
Defined.

(** X14.  The work list of the classifier holds every key once, and
    each of its items is an item of the English entries whose key is not
    technical. *)
Theorem find_untranslated_entries_work_list
    (english_entries target_entries : dict string)
    (target_data_elements : dict nat) (tree : list data_elem) :
  let untranslated :=
    (find_untranslated_entries english_entries target_entries
       target_data_elements tree).2 in
  NoDup (dict_keys untranslated)
  ∧ ∀ key english_value,
      (key, english_value) ∈ untranslated →
      (key, english_value) ∈ english_entries ∧ is_technical key = false.
Proof.
  cbn zeta. unfold find_untranslated_entries. split.
  - apply find_untranslated_nodup. apply NoDup_nil_2.
  - intros key ev Hin. split.
    + apply find_untranslated_items in Hin as [Hin|Hin]; [|done].
      by apply elem_of_nil in Hin.
    + apply (list_elem_of_fmap_2 fst) in Hin.
      apply find_untranslated_keys in Hin as [Hin|(ev' & _ & Htech & _)];
        [|done].
      by apply elem_of_nil in Hin.
Qed.

Lemma dict_items_functional {V} k (v v' : V) (d : dict V) :
  NoDup (dict_keys d) → (k, v) ∈ d → (k, v') ∈ d → v = v'.
Proof.
  intros Hd H1 H2.
  apply (dict_get_NoDup _ _ _ Hd) in H1.
  apply (dict_get_NoDup _ _ _ Hd) in H2. congruence.
Qed.

(** A key that [parse_resw_file] reports is resolved to an element. *)
Lemma parse_entries_resolved tree key text :
  dict_get key (parse_entries tree) = Some text →
  is_Some (lookup_element tree key).
Proof.
  induction tree as [|x tree IH] using rev_ind; [done|].
  rewrite lookup_element_snoc, parse_entries_snoc.
  case_decide as Hd; [done|].
  destruct (elem_name x) as [name|] eqn:Hname; [|done].
  destruct (elem_value x); [|done].
  destruct (Py.truthy name) eqn:Hn; [|done].
  rewrite dict_get_set_ne; [done|]. intros ->. by apply Hd.
Qed.

(** The value that the work list has for a key it holds. *)
Lemma find_untranslated_value te tde en key ev :
  NoDup (dict_keys en) → (key, ev) ∈ en →
  ∀ tree,
    key ∈ dict_keys (fold_left (classify_entry te tde) en (tree, [])).2 →
    dict_get key (fold_left (classify_entry te tde) en (tree, [])).2
    = Some ev.
Proof.
  intros Hnodup Hin tree Hkey.
  apply list_elem_of_fmap in Hkey as ([k v] & -> & Hkv). cbn.
  apply dict_get_NoDup.
  { apply find_untranslated_nodup. apply NoDup_nil_2. }
  pose proof Hkv as Hitem.
  apply find_untranslated_items in Hitem as [Hitem|Hitem].
  { by apply elem_of_nil in Hitem. }
  by rewrite (dict_items_functional k ev v en Hnodup Hin Hitem).
Qed.

(** X15.  A non-technical English key that no element of the file
    carries is put on the work list, with its English value. *)
Theorem find_untranslated_entries_enqueues_missing
    (english_entries : dict string) (tree : list data_elem)
    (key english_value : string) :
  NoDup (dict_keys english_entries) →
  (key, english_value) ∈ english_entries →
  is_technical key = false →
  lookup_element tree key = None →
  dict_get key
    (find_untranslated_entries english_entries (parse_entries tree)
       (tree_data_elements tree) tree).2
  = Some english_value.
Proof.
  intros Hnodup Hin Htech Hnone. unfold find_untranslated_entries.
  apply find_untranslated_value; [done | done |].
  assert (dict_get key (tree_data_elements tree) = None) as Htde by done.
  apply (find_untranslated_enqueues (parse_entries tree)
           (tree_data_elements tree) (λ _, True) english_entries (tree, [])
           key english_value); try done.
  - intros T _. unfold comment_status_of. by rewrite Htde.
  - left. destruct (dict_get key (parse_entries tree)) as [text|] eqn:Hte;
      [|done].
    apply parse_entries_resolved in Hte as [p Hp]. congruence.
Qed.

Lemma find_untranslated_entries_enqueues_missing_witness :
  dict_get "Farewell"
    (find_untranslated_entries
       [("Greeting", "Hello"); ("Farewell", "Goodbye")]
       (parse_entries
          [DataElem (Some "Greeting") (Some "Bonjour")
             (Some "status:complete")])
       (tree_data_elements
          [DataElem (Some "Greeting") (Some "Bonjour")
             (Some "status:complete")])
       [DataElem (Some "Greeting") (Some "Bonjour")
          (Some "status:complete")]).2
  = Some "Goodbye".
Proof.
  apply (find_untranslated_entries_enqueues_missing
           [("Greeting", "Hello"); ("Farewell", "Goodbye")]
           [DataElem (Some "Greeting") (Some "Bonjour")
              (Some "status:complete")]
           "Farewell" "Goodbye").
  - apply (bool_decide_unpack _). vm_compute. exact I.
  - apply (bool_decide_unpack _). vm_compute. exact I.
  - reflexivity.
  - reflexivity.
Defined.

(** X16.  An entry of a non-technical English key whose value is the
    English value and whose status is absent, incomplete or an error that
    is not permanent is put on the work list, with its English value, and
    the classifier leaves the entry as it is. *)
Theorem find_untranslated_entries_enqueues_untranslated
    (english_entries : dict string) (tree : list data_elem)
    (key english_value : string) (p : nat) (data : data_elem) :
  NoDup (dict_keys english_entries) →
  (key, english_value) ∈ english_entries →
  is_technical key = false →
  lookup_element tree key = Some p → tree !! p = Some data →
  elem_value data = Some english_value →
  match get_comment_status data with
  | None => True
  | Some status =>
      status = status_incomplete
      ∨ (Py.startswith status status_error_prefix = true
         ∧ Py.startswith status status_error_permanent = false)
  end →
  let result :=
    find_untranslated_entries english_entries (parse_entries tree)
      (tree_data_elements tree) tree in
  dict_get key result.2 = Some english_value ∧ result.1 !! p = Some data.
Proof.
  intros Hnodup Hin Htech Hkey Hp Hvalue Hstatus result. subst result.
  unfold find_untranslated_entries.
  assert (dict_get key (tree_data_elements tree) = Some p) as Htde by done.
  destruct (find_untranslated_enqueues (parse_entries tree)
              (tree_data_elements tree) (λ T, T !! p = Some data)
              english_entries (tree, []) key english_value)
    as [Hkept Henq]; try done.
  - intros st k v Hne Hst.
    destruct (classify_entry_lookup (parse_entries tree)
                (tree_data_elements tree) st k v p data Hst)
      as [?|[_ Hk]]; [done|].
    apply lookup_element_Some in Hk as (e & He & Hname & _).
    apply lookup_element_Some in Hkey as (e' & He' & Hname' & _).
    congruence.
  - intros T HT. unfold comment_status_of. by rewrite Htde, HT.
  - right. by eapply parse_entries_lookup.
  - split; [|done]. by apply find_untranslated_value.
Qed.

Lemma find_untranslated_entries_enqueues_untranslated_witness :
  let tree :=
    [DataElem (Some "Greeting") (Some "Hello")
       (Some "status:error:Translation service returned None")] in
  let result :=
    find_untranslated_entries [("Greeting", "Hello")] (parse_entries tree)
      (tree_data_elements tree) tree in
  dict_get "Greeting" result.2 = Some "Hello"
  ∧ result.1 !! 0
    = Some (DataElem (Some "Greeting") (Some "Hello")
              (Some "status:error:Translation service returned None")).
Proof.
  intros tree.
  apply (find_untranslated_entries_enqueues_untranslated
           [("Greeting", "Hello")] tree "Greeting" "Hello" 0
           (DataElem (Some "Greeting") (Some "Hello")
              (Some "status:error:Translation service returned None"))).
  - apply (bool_decide_unpack _). vm_compute. exact I.
  - apply (bool_decide_unpack _). vm_compute. exact I.
  - reflexivity.
  - reflexivity.
  - reflexivity.
  - reflexivity.
  - vm_compute. right. split; reflexivity.
Defined.

(** ** Invariants of the translation loop *)

(** The gateway only adds calls for the text and the language it was
    given, one per attempt at most, and a translation it returns is the
    answer of the service to the last call. *)
Lemma translate_attempts_events tr text lang max_retries attempts :
  ∀ h,
    ∃ added,
      (translate_attempts tr text lang max_retries attempts h).2 = h ++ added
      ∧ (∀ c, c ∈ calls added → c = (text, lang))
      ∧ length (calls added) ≤ length attempts
      ∧ (∀ t, (translate_attempts tr text lang max_retries attempts h).1
              = Value (Some t) →
              ∃ before,
                h `prefix_of` before
                ∧ h ++ added = before ++ [Translate text lang]
                ∧ tr before text lang = Returned t).
Proof.
  induction attempts as [|a attempts IH]; intros h.
  { exists []. rewrite app_nil_r. split; [done|].
    split; [by intros ? ?%elem_of_nil | done]. }
  assert (∀ res : raising (option string),
    (∀ t, res = Value (Some t) → tr h text lang = Returned t) →
    ∃ added,
      (res, h ++ [Translate text lang]).2 = h ++ added
      ∧ (∀ c, c ∈ calls added → c = (text, lang))
      ∧ length (calls added) ≤ length (a :: attempts)
      ∧ (∀ t, (res, h ++ [Translate text lang]).1 = Value (Some t) →
              ∃ before,
                h `prefix_of` before
                ∧ h ++ added = before ++ [Translate text lang]
                ∧ tr before text lang = Returned t)) as Hstop.
  { intros res Hres. exists [Translate text lang]. split; [done|].
    split; [by intros c ->%list_elem_of_singleton|].
    split; [cbn; lia|]. intros t Ht. exists h. split; [done|].
    split; [done | by apply Hres]. }
  assert (∃ added,
    (if a <? max_retries - 1
     then translate_attempts tr text lang max_retries attempts
            ((h ++ [Translate text lang]) ++ [Sleep (wait_time a)])
     else (Value None, h ++ [Translate text lang])).2 = h ++ added
    ∧ (∀ c, c ∈ calls added → c = (text, lang))
    ∧ length (calls added) ≤ length (a :: attempts)
    ∧ (∀ t, (if a <? max_retries - 1
             then translate_attempts tr text lang max_retries attempts
                    ((h ++ [Translate text lang]) ++ [Sleep (wait_time a)])
             else (Value None, h ++ [Translate text lang])).1
            = Value (Some t) →
            ∃ before,
              h `prefix_of` before
              ∧ h ++ added = before ++ [Translate text lang]
              ∧ tr before text lang = Returned t)) as Hretry.
  { destruct (a <? max_retries - 1); [|by apply Hstop].
    destruct (IH ((h ++ [Translate text lang]) ++ [Sleep (wait_time a)]))
      as (added & Hh & Hcalls & Hlen & Hans).
    exists ([Translate text lang] ++ [Sleep (wait_time a)] ++ added).
    split; [by rewrite Hh, <- !app_assoc|].
    split; [|split; [cbn; lia|]].
    - intros c. cbn.
      intros [->|Hc]%elem_of_cons; [done | by apply Hcalls].
    - intros t Ht. destruct (Hans t Ht) as (before & Hpre & Heq & Hret).
      exists before. split; [|split; [|done]].
      + etrans; [|done]. rewrite <- app_assoc. by apply prefix_app_r.
      + by rewrite <- Heq, <- !app_assoc. }
  cbn [translate_attempts].
  destruct (tr h text lang) as [t|e|e] eqn:Hanswer.
  - apply Hstop. by intros t' [= <-].
  - destruct (Py.any_in api_fault_markers e); [done | by apply Hstop].
  - destruct (Py.contains _ _); [by apply Hstop|].
    destruct (Py.any_in rate_limit_indicators _); [done | by apply Hstop].
Qed.

Lemma translate_text_events translator text lang max_retries h :
  ∃ added,
    (translate_text text lang translator max_retries h).2 = h ++ added
    ∧ (∀ c, c ∈ calls added → c = (text_clean text, lang))
    ∧ length (calls added) ≤ max_retries
    ∧ (translator = None → added = [])
    ∧ (∀ t since,
         (translate_text text lang translator max_retries h).1
         = Value (Some t) →
         since `prefix_of` h →
         answered_in translator since (h ++ added) (text_clean text) lang t).
Proof.
  unfold translate_text. destruct translator as [tr|].
  - destruct (translate_attempts_events tr (text_clean text) lang
                max_retries (seq 0 max_retries) h)
      as (added & Hh & Hcalls & Hlen & Hans).
    rewrite length_seq in Hlen.
    exists added. split; [done|]. split; [done|]. split; [done|].
    split; [done|]. intros t since Ht Hsince.
    destruct (Hans t Ht) as (before & Hpre & Heq & Hret).
    exists tr, before. split; [done|]. split; [by etrans|].
    split; [by rewrite Heq | done].
  - exists []. rewrite app_nil_r. split; [done|].
    split; [by intros ? ?%elem_of_nil|]. split; [cbn; lia | done].
Qed.

Lemma batch_items {V} (v : V) (l : dict string) (d : dict V) k v' :
  (k, v')
  ∈ fold_left (λ d '(remaining_key, _), dict_set remaining_key v d) l d →
  (k, v') ∈ d ∨ (k ∈ dict_keys l ∧ v' = v).
Proof.
  revert d. induction l as [|[k0 x] l IH]; intros d; [by left|].
  cbn [fold_left]. intros [Hin|[Hk ->]]%IH.
  - apply elem_of_dict_set in Hin as [[= -> ->]|Hin]; [|by left].
    right. split; [by left | done].
  - right. split; [by right | done].
Qed.

Section translate_loop_invariants.
Context (translator : option Translator) (en : dict string).
Context (lang : string) (U : dict string).
Context (R : list data_elem → list data_elem → Prop).
Context (P : string → option string → Prop).
Context (R_refl : ∀ T, R T T).
Context (R_trans : ∀ T1 T2 T3, R T1 T2 → R T2 T3 → R T1 T3).
Context (R_update : ∀ T trs errs,
  (∀ k tv, (k, tv) ∈ trs → P k tv) →
  R T (update_resw_file T trs errs en false)).
Context (P_none : ∀ key, key ∈ dict_keys U → P key None).
Context (P_result : ∀ key ev h t h',
  key ∈ dict_keys U →
  translate_text ev lang translator default_max_retries h
  = (Value (Some t), h') →
  P key (Some t)).

Local Abbreviation batch_ok trs := (∀ k tv, (k, tv) ∈ trs → P k tv).

Lemma save_batch_rel st :
  batch_ok (translations st) → R (lang_file st) (lang_file (save_batch en st)).
Proof.
  intros Hok. unfold save_batch.
  destruct (translations st) eqn:Ht, (translation_errors st) eqn:He;
    cbn [lang_file]; first [apply R_refl | by apply R_update].
Qed.

Lemma abandon_language_rel i key h' st :
  batch_ok (translations st) → key ∈ dict_keys U →
  R (lang_file st) (lang_file (abandon_language en U i key h' st)).
Proof.
  intros Hok Hkey. unfold abandon_language. cbn [lang_file].
  destruct (save_batch_cleared en st) as (-> & -> & _).
  eapply R_trans; [by apply save_batch_rel|].
  eapply R_trans; apply R_update.
  - cbn. intros k tv [= -> ->]%list_elem_of_singleton. by apply P_none.
  - intros k tv [[]%elem_of_nil|[Hk ->]]%batch_items. apply P_none.
    unfold dict_keys in *. rewrite fmap_drop in Hk.
    by eapply subseteq_drop.
Qed.

Lemma translate_loop_rel items :
  ∀ i st st' broke,
    batch_ok (translations st) → dict_keys items ⊆ dict_keys U →
    translate_loop translator en lang U i items st = (st', broke) →
    R (lang_file st) (lang_file st').
Proof.
  induction items as [|[key ev] items IH];
    intros i st st' broke Hok Hitems.
  { intros [= <- <-]. apply R_refl. }
  assert (key ∈ dict_keys U) as Hkey by (apply Hitems; by left).
  assert (dict_keys items ⊆ dict_keys U) as Hitems'
    by (intros k Hk; apply Hitems; by right).
  assert (∀ st2,
    lang_file st2 = lang_file st → batch_ok (translations st2) →
    translate_loop translator en lang U (S i) items
      (if should_save U i then save_batch en st2 else st2) = (st', broke) →
    R (lang_file st) (lang_file st')) as Hcontinue.
  { intros st2 Hfile Hok2 Hloop. rewrite <- Hfile.
    set (st3 := if should_save U i then save_batch en st2 else st2) in *.
    assert (R (lang_file st2) (lang_file st3)
            ∧ batch_ok (translations st3)) as [H23 Hok3].
    { subst st3. destruct (should_save U i).
      - split; [by apply save_batch_rel|].
        destruct (save_batch_cleared en st2) as (-> & _).
        by intros ? ? ?%elem_of_nil.
      - split; [apply R_refl | done]. }
    eapply R_trans; [done|]. by eapply IH. }
  cbn [translate_loop]. destruct translator as [tr|] eqn:Htr.
  - destruct (translate_text ev lang (Some tr) default_max_retries
                (history st)) as [[tv|] h'] eqn:Htext.
    + apply Hcontinue; [apply record_result_file|].
      unfold record_result. destruct tv as [t|].
      * destruct (_ =s= _); cbn [translations];
          intros k tv [[= -> ->]|Hin]%elem_of_dict_set; try by apply Hok.
        -- by apply P_none.
        -- by eapply P_result.
      * cbn [translations].
        intros k tv [[= -> ->]|Hin]%elem_of_dict_set; [|by apply Hok].
        by apply P_none.
    + intros [= <- <-]. by apply abandon_language_rel.
  - apply Hcontinue; [done|]. cbn [record_unavailable translations].
    intros k tv [[= -> ->]|Hin]%elem_of_dict_set; [|by apply Hok].
    by apply P_none.
Qed.
End translate_loop_invariants.

Lemma mod_batch_size_step n :
  S n mod BATCH_SIZE ≠ 0 → S (n mod BATCH_SIZE) = S n mod BATCH_SIZE.
Proof.
  unfold BATCH_SIZE. intros Hne.
  pose proof (Nat.div_mod_eq n 5).
  pose proof (Nat.div_mod_eq (S n) 5).
  pose proof (Nat.mod_upper_bound n 5).
  pose proof (Nat.mod_upper_bound (S n) 5).
  nia.
Qed.

Lemma dict_set_length {V} k (v : V) (d : dict V) :
  length (dict_set k v d) ≤ S (length d).
Proof.
  induction d as [|[k0 v0] d IH]; cbn; [done|].
  destruct (k0 =s= k); cbn; lia.
Qed.



Section translate_loop_history.
Context (translator : option Translator) (en : dict string).
Context (lang : string) (U : dict string).

(** The loop only adds to the history, one segment for each item it
    processes, in order.  The calls of a segment send the cleaned English
    value of its item, and there are [default_max_retries] of them at
    most. *)
Lemma translate_loop_segments items :
  ∀ i st st' broke,
    translate_loop translator en lang U i items st = (st', broke) →
    ∃ (processed : dict string) (segments : list (list event)),
      history st' = history st ++ concat segments
      ∧ processed `prefix_of` items
      ∧ Forall2
          (λ item segment,
             length (calls segment) ≤ default_max_retries
             ∧ ∀ c, c ∈ calls segment → c = (text_clean item.2, lang))
          processed segments
      ∧ (translator = None → concat segments = []).
Proof.
  induction items as [|[key ev] items IH]; intros i st st' broke.
  { intros [= <- <-]. exists [], []. cbn. rewrite app_nil_r.
    split; [done|]. split; [done|]. split; [constructor | done]. }
  assert (∀ st2 segment,
    history st2 = history st ++ segment →
    length (calls segment) ≤ default_max_retries →
    (∀ c, c ∈ calls segment → c = (text_clean ev, lang)) →
    (translator = None → segment = []) →
    translate_loop translator en lang U (S i) items
      (if should_save U i then save_batch en st2 else st2) = (st', broke) →
    ∃ (processed : dict string) (segments : list (list event)),
      history st' = history st ++ concat segments
      ∧ processed `prefix_of` (key, ev) :: items
      ∧ Forall2
          (λ item segment,
             length (calls segment) ≤ default_max_retries
             ∧ ∀ c, c ∈ calls segment → c = (text_clean item.2, lang))
          processed segments
      ∧ (translator = None → concat segments = [])) as Hcontinue.
  { intros st2 segment Hh2 Hlen2 Hcalls2 Hnone2 Hloop.
    apply IH in Hloop as (processed & segments & Hh3 & Hpre & Hall & Hnone3).
    assert (history (if should_save U i then save_batch en st2 else st2)
            = history st2) as Hsave.
    { destruct (should_save U i); [|done].
      by destruct (save_batch_cleared en st2) as (_ & _ & ->). }
    exists ((key, ev) :: processed), (segment :: segments).
    split; [|split; [|split]].
    - cbn [concat]. by rewrite Hh3, Hsave, Hh2, app_assoc.
    - by apply prefix_cons.
    - by constructor.
    - intros Hnone. cbn [concat]. by rewrite Hnone2, Hnone3. }
  cbn [translate_loop].
  destruct (translate_text_events translator ev lang default_max_retries
              (history st)) as (added & Hh & Hcalls & Hlen & Hnone & _).
  destruct translator as [tr|] eqn:Htr.
  - destruct (translate_text ev lang (Some tr) default_max_retries
                (history st)) as [[tv|] h'] eqn:Htext;
      cbn [snd] in Hh; subst h'.
    + assert (∃ s, history (record_result key ev tv
                              (history st ++ added) st)
                   = (history st ++ added) ++ [Sleep s]) as [s Hs].
      { unfold record_result. repeat case_match; by eexists. }
      assert (calls (added ++ [Sleep s]) = calls added) as Hsame.
      { rewrite calls_app. cbn. by rewrite app_nil_r. }
      apply (Hcontinue _ (added ++ [Sleep s])).
      * by rewrite Hs, app_assoc.
      * by rewrite Hsame.
      * by rewrite Hsame.
      * done.
    + intros [= <- <-]. exists [(key, ev)], [added]. cbn [concat].
      rewrite app_nil_r. split; [done|].
      split; [apply prefix_cons, prefix_nil|].
      split; [|done]. constructor; [done | constructor].
  - apply (Hcontinue _ []); [by rewrite app_nil_r|cbn; lia| |done].
    by intros ? ?%elem_of_nil.
Qed.


(** Between two saves the pending results are those of the items since
    the last multiple of the batch size. *)
Lemma translate_loop_pending items :
  ∀ i st st',
    1 ≤ i →
    length (translations st) ≤ (i - 1) mod BATCH_SIZE →
    length (translation_errors st) ≤ (i - 1) mod BATCH_SIZE →
    translate_loop translator en lang U i items st = (st', false) →
    length (translations st') ≤ (i - 1 + length items) mod BATCH_SIZE
    ∧ length (translation_errors st')
      ≤ (i - 1 + length items) mod BATCH_SIZE.
Proof.
  induction items as [|[key ev] items IH]; intros i st st' Hi Ht He.
  { intros [= <-]. cbn. by rewrite Nat.add_0_r. }
  assert (∀ st2,
    length (translations st2) ≤ S (length (translations st)) →
    length (translation_errors st2) ≤ S (length (translation_errors st)) →
    translate_loop translator en lang U (S i) items
      (if should_save U i then save_batch en st2 else st2) = (st', false) →
    length (translations st') ≤ (i - 1 + length ((key, ev) :: items))
                                mod BATCH_SIZE
    ∧ length (translation_errors st')
      ≤ (i - 1 + length ((key, ev) :: items)) mod BATCH_SIZE) as Hcontinue.
  { intros st2 Ht2 He2 Hloop.
    replace (i - 1 + length ((key, ev) :: items))
      with (S i - 1 + length items) by (cbn; lia).
    assert (S i - 1 = S (i - 1)) as Hpred by lia.
    pose proof (mod_batch_size_step (i - 1)) as Hmod.
    replace (S (i - 1)) with i in Hmod by lia.
    destruct (save_batch_cleared en st2) as (Hts & Hes & _).
    revert Hloop. apply IH; [lia|..]; rewrite Hpred; unfold should_save;
      (destruct (i mod BATCH_SIZE =? 0) eqn:Hi0; cbn [orb];
       [rewrite ?Hts, ?Hes; cbn; lia|]);
      apply Nat.eqb_neq in Hi0;
      (destruct (i =? length U); [rewrite ?Hts, ?Hes; cbn; lia|]);
      specialize (Hmod Hi0); replace (S (i - 1)) with i by lia; lia. }
  cbn [translate_loop]. destruct translator as [tr|].
  - destruct (translate_text _ _ _ _ _) as [[tv|] h']; [|done].
    apply Hcontinue; unfold record_result; repeat case_match;
      cbn [translations translation_errors];
      first [apply dict_set_length | lia].
  - apply Hcontinue; cbn [record_unavailable translations translation_errors];
      apply dict_set_length.
Qed.
(** The file after a list of write-backs. *)
Local Abbreviation write_batches batches tree :=
  (fold_left
     (λ tree (batch : dict (option string) * dict string),
        update_resw_file tree batch.1 batch.2 en false)
     batches tree).

Local Abbreviation batch_keys batches :=
  (concat ((λ batch : dict (option string) * dict string,
              dict_keys batch.1) <$> batches)).

End translate_loop_history.



(** X18.  When the loop reaches an item, fewer than [BATCH_SIZE] results
    are pending: at most as many as the items processed since the last
    multiple of the batch size. *)
Theorem translate_loop_pending_below_batch_size
    (translator : option Translator) (english_entries : dict string)
    (lang : string) (processed rest : dict string) (st0 st : loop_state) :
  translations st0 = [] → translation_errors st0 = [] →
  translate_loop translator english_entries lang (processed ++ rest) 1
    processed st0 = (st, false) →
  translate_loop translator english_entries lang (processed ++ rest) 1
    (processed ++ rest) st0
  = translate_loop translator english_entries lang (processed ++ rest)
      (1 + length processed) rest st
  ∧ length (translations st) ≤ length processed mod BATCH_SIZE
  ∧ length (translation_errors st) ≤ length processed mod BATCH_SIZE
  ∧ length processed mod BATCH_SIZE < BATCH_SIZE.
Proof.
  intros Ht He Hloop. split; [by rewrite translate_loop_app, Hloop|].
  destruct (translate_loop_pending translator english_entries lang
              (processed ++ rest) processed 1 st0 st) as [Ht' He'];
    [done | rewrite Ht; cbn; lia | rewrite He; cbn; lia | done |].
  cbn in Ht', He'. split; [done|]. split; [done|].
  by apply Nat.mod_upper_bound.
Qed.

Lemma translate_loop_pending_below_batch_size_witness :
  let processed := [("Greeting", "Hello")] in
  let rest := [("Farewell", "Goodbye")] in
  let st0 := LoopState [] [] [] 0 [] in
  let st :=
    LoopState [] [("Greeting", None)]
      [("Greeting", "Translator not available")] 0 [] in
  translate_loop None [] "fr" (processed ++ rest) 1 (processed ++ rest) st0
  = translate_loop None [] "fr" (processed ++ rest) (1 + length processed)
      rest st
  ∧ length (translations st) ≤ length processed mod BATCH_SIZE
  ∧ length (translation_errors st) ≤ length processed mod BATCH_SIZE
  ∧ length processed mod BATCH_SIZE < BATCH_SIZE.
Proof.
  intros processed rest st0 st.
  apply (translate_loop_pending_below_batch_size None [] "fr" processed rest
           st0 st); reflexivity.
Defined.

(** ** What a run keeps, adds and sends *)

Lemma classify_language_names en tree :
  elem_name <$> (classify_language en tree).1 = elem_name <$> tree.
Proof.
  rewrite classify_language_unfold, find_untranslated_names.
  apply completion_sweep_names.
Qed.

Lemma classify_language_swept en tree p e :
  (classify_language en tree).1 !! p = Some e → swept en e.
Proof.
  intros He.
  assert (p < length tree) as Hp.
  { apply lookup_lt_Some in He.
    by rewrite <- (length_fmap elem_name), classify_language_names,
      length_fmap in He. }
  apply lookup_lt_is_Some in Hp as [d Hd].
  destruct (classify_language_lookup en tree p d Hd) as (e' & He' & Hs & _).
  congruence.
Qed.

Lemma classify_language_items en tree key ev :
  (key, ev) ∈ (classify_language en tree).2 →
  (key, ev) ∈ en ∧ is_technical key = false.
Proof.
  intros Hin. split.
  - rewrite classify_language_unfold in Hin.
    apply find_untranslated_items in Hin as [[]%elem_of_nil|Hin]. done.
  - apply (list_elem_of_fmap_2 fst) in Hin.
    by apply classify_language_enqueued in Hin as (? & _ & ? & _).
Qed.

Lemma mark_unsupported_elem_comment en U e :
  elem_comment (mark_unsupported_elem en U e) = elem_comment e
  ∨ ∃ s, elem_comment (mark_unsupported_elem en U e) = Some s ∧ s ≠ "".
Proof.
  unfold mark_unsupported_elem.
  repeat case_match; first [by left | right; by eexists].
Qed.

Lemma apply_translation_value en errs key tv e :
  value_text (apply_translation en errs key tv e) = value_text e
  ∨ (tv = Some (value_text (apply_translation en errs key tv e))
     ∧ value_text e = dict_get_or key "" en).
Proof.
  unfold apply_translation.
  destruct (String.eqb_spec (value_text e) (dict_get_or key "" en))
    as [Heq|Hne]; cbn [negb]; [|by left].
  destruct tv as [text|].
  - destruct (Py.truthy text); [by right | by left].
  - repeat case_match; by left.
Qed.

Section write_back_pointwise.
Context (en errs : dict string) (Q : data_elem → data_elem → Prop).
Context (Q_refl : ∀ e, Q e e).
Context (Q_trans : ∀ e1 e2 e3, Q e1 e2 → Q e2 e3 → Q e1 e3).
Context (Q_name : ∀ e1 e2, Q e1 e2 → elem_name e2 = elem_name e1).

(** A relation that every write to an element respects holds between an
    element before and after the loop over the translations. *)
Lemma fold_process_translation_pointwise trs st p e :
  st.1 !! p = Some e →
  (∀ k, dict_get k st.2 = Some p → elem_name e = Some k) →
  (∀ k tv e, (k, tv) ∈ trs → elem_name e = Some k →
             Q e (apply_translation en errs k tv e)) →
  ∃ e', (fold_left (process_translation en errs) trs st).1 !! p = Some e'
    ∧ Q e e'.
Proof.
  revert st e. induction trs as [|[key tv] trs IH];
    intros st e He Hrefs Hstep.
  { by exists e. }
  cbn [fold_left].
  assert (∃ e1, (process_translation en errs st (key, tv)).1 !! p = Some e1
                ∧ Q e e1) as (e1 & He1 & HQ1).
  { destruct (decide (dict_get key st.2 = Some p)) as [Hkey|Hkey].
    - destruct (process_translation_target en errs st key tv p e He Hkey)
        as [He1 _].
      eexists. split; [done|]. apply Hstep; [by left | by apply Hrefs].
    - exists e. split; [|done]. by apply process_translation_other. }
  destruct (IH _ e1 He1) as (e' & He' & HQ').
  { intros k Hk. rewrite (Q_name e e1 HQ1). apply Hrefs.
    eapply process_translation_elements; [|done].
    by eapply lookup_lt_Some. }
  { intros k tv' e0 Hin. apply Hstep. by right. }
  exists e'. split; [done|]. by eapply Q_trans.
Qed.
End write_back_pointwise.

Lemma answered_in_mono translator since h added text dest t :
  answered_in translator since h text dest t →
  answered_in translator since (h ++ added) text dest t.
Proof.
  intros (tr & before & Htr & Hsince & Hcall & Hanswer).
  exists tr, before. split; [done|]. split; [done|].
  split; [by apply prefix_app_r | done].
Qed.

(** What an iteration records once [translate_text] has returned: a
    translation is kept only when it differs from the English value up to
    the white space around both. *)
Lemma record_result_shape key ev tv h' st :
  ∃ s recorded,
    history (record_result key ev tv h' st) = h' ++ [Sleep s]
    ∧ translations (record_result key ev tv h' st)
      = dict_set key recorded (translations st)
    ∧ ∀ t, recorded = Some t →
           tv = Some t ∧ Py.strip t ≠ Py.strip ev.
Proof.
  unfold record_result. destruct tv as [t|].
  - destruct (String.eqb_spec (Py.strip t) (Py.strip ev)) as [Heq|Hne].
    + by exists (2 # 10)%Q, None.
    + exists (2 # 10)%Q, (Some t). split; [done|]. split; [done|].
      by intros ? [= <-].
  - eexists _, None. split; [done|]. by split.
Qed.

Section translate_loop_values.
Context (translator : option Translator) (en : dict string).
Context (lang : string) (U : dict string) (h0 : list event).
Implicit Types (T : list data_elem) (h : list event) (e : data_elem).
Implicit Types (trs : dict (option string)).

(** The text [t] is an answer that the service gave, in a call that [h]
    holds after [h0], for the item of [key], and it differs from the
    English value of the item. *)
Local Abbreviation translated_in h key t :=
  (∃ ev, (key, ev) ∈ U ∧ Py.strip t ≠ Py.strip ev
         ∧ answered_in translator h0 h (text_clean ev) lang t).

(** The name stays, and the value changes only when it was the English
    value of the key and the service has translated the item. *)
Local Abbreviation value_rel h e e' :=
  (elem_name e' = elem_name e
   ∧ (value_text e' = value_text e
      ∨ ∃ key t, elem_name e = Some key
                 ∧ value_text e = dict_get_or key "" en
                 ∧ translated_in h key t)).

Local Abbreviation file_rel h T T' :=
  (∀ (p : nat) (e : data_elem), T !! p = Some e →
     ∃ e', T' !! p = Some e' ∧ value_rel h e e').

Local Abbreviation pending_ok h trs :=
  (∀ k t, (k, Some t) ∈ trs → translated_in h k t).

Lemma value_rel_trans h (e1 e2 e3 : data_elem) :
  value_rel h e1 e2 → value_rel h e2 e3 → value_rel h e1 e3.
Proof.
  intros [Hn12 Hv12] [Hn23 Hv23]. split; [congruence|].
  destruct Hv23 as [Hv23|(key & t & Hname & Hvalue & Htr)].
  - destruct Hv12 as [Hv12|?]; [left; congruence | by right].
  - right. exists key, t. split; [congruence|]. split; [|done].
    destruct Hv12 as [Hv12|(key' & t' & Hname' & Hvalue' & _)];
      [congruence|].
    assert (key' = key) as -> by congruence. done.
Qed.

Lemma value_rel_mono h added e (e' : data_elem) :
  value_rel h e e' → value_rel (h ++ added) e e'.
Proof.
  intros [Hname [Hvalue|(key & t & Hkey & Hvalue & ev & Hin & Hne & Hans)]].
  - split; [done | by left].
  - split; [done|]. right. exists key, t. split; [done|]. split; [done|].
    exists ev. split; [done|]. split; [done|]. by apply answered_in_mono.
Qed.

Lemma file_rel_refl h T : file_rel h T T.
Proof. intros p e He. exists e. split; [done|]. split; [done | by left]. Qed.

Lemma file_rel_trans h (T1 T2 T3 : list data_elem) :
  file_rel h T1 T2 → file_rel h T2 T3 → file_rel h T1 T3.
Proof.
  intros H12 H23 p e1 H1.
  destruct (H12 p e1 H1) as (e2 & H2 & Hr12).
  destruct (H23 p e2 H2) as (e3 & H3 & Hr23).
  exists e3. split; [done|]. by eapply value_rel_trans.
Qed.

Lemma file_rel_mono h added T (T' : list data_elem) :
  file_rel h T T' → file_rel (h ++ added) T T'.
Proof.
  intros Hrel p e He. destruct (Hrel p e He) as (e' & He' & Hr).
  exists e'. split; [done|]. by apply value_rel_mono.
Qed.

Lemma update_resw_file_value_rel h T trs errs :
  pending_ok h trs → file_rel h T (update_resw_file T trs errs en false).
Proof.
  intros Hok p e He. rewrite update_resw_file_lookup.
  pose (Q := λ e e' : data_elem, value_rel h e e').
  assert (∀ e, Q e e) as Q_refl by (by split; [|left]).
  assert (∀ e1 e2 e3, Q e1 e2 → Q e2 e3 → Q e1 e3) as Q_trans
    by (intros e1 e2 e3; apply value_rel_trans).
  assert (∀ e1 e2, Q e1 e2 → elem_name e2 = elem_name e1) as Q_name
    by (by intros e1 e2 [? _]).
  destruct (fold_process_translation_pointwise en errs Q Q_refl Q_trans
              Q_name trs (T, tree_data_elements T) p e He)
    as (e' & -> & Hname & Hvalue).
  - intros k Hk. apply lookup_element_Some in Hk as (x & Hx & Hn & _).
    cbn in Hx. congruence.
  - intros k tv e0 Hin Hname. split; [apply apply_translation_name|].
    destruct (apply_translation_value en errs k tv e0) as [->|[Htv Hvalue]];
      [by left|].
    right. exists k, (value_text (apply_translation en errs k tv e0)).
    split; [done|]. split; [done|]. apply Hok. by rewrite <- Htv.
  - cbn. eexists. split; [done|].
    rewrite sweep_elem_name. unfold value_text in *.
    by rewrite sweep_elem_value.
Qed.

Lemma save_batch_value_rel h st :
  pending_ok h (translations st) →
  file_rel h (lang_file st) (lang_file (save_batch en st)).
Proof.
  intros Hok. unfold save_batch.
  destruct (translations st) eqn:Ht, (translation_errors st) eqn:He;
    cbn [lang_file];
    first [apply file_rel_refl | by apply update_resw_file_value_rel].
Qed.

Lemma translate_loop_value_rel items :
  ∀ i st st' broke,
    h0 `prefix_of` history st →
    pending_ok (history st) (translations st) →
    items ⊆ U →
    translate_loop translator en lang U i items st = (st', broke) →
    file_rel (history st') (lang_file st) (lang_file st')
    ∧ history st `prefix_of` history st'.
Proof.
  induction items as [|[key ev] items IH];
    intros i st st' broke Hh0 Hok Hitems.
  { intros [= <- <-]. split; [apply file_rel_refl | done]. }
  assert ((key, ev) ∈ U) as Hkey by (apply Hitems; by left).
  assert (items ⊆ U) as Hitems' by (intros x Hx; apply Hitems; by right).
  assert (∀ st2 added,
    lang_file st2 = lang_file st →
    history st2 = history st ++ added →
    pending_ok (history st2) (translations st2) →
    translate_loop translator en lang U (S i) items
      (if should_save U i then save_batch en st2 else st2) = (st', broke) →
    file_rel (history st') (lang_file st) (lang_file st')
    ∧ history st `prefix_of` history st') as Hcontinue.
  { intros st2 added Hfile Hh2 Hok2 Hloop. rewrite <- Hfile.
    set (st3 := if should_save U i then save_batch en st2 else st2) in *.
    assert (file_rel (history st2) (lang_file st2) (lang_file st3)
            ∧ pending_ok (history st3) (translations st3)
            ∧ history st3 = history st2) as (H23 & Hok3 & Hh3).
    { subst st3. destruct (should_save U i).
      - split; [by apply save_batch_value_rel|].
        destruct (save_batch_cleared en st2) as (-> & _ & ->).
        split; [by intros ? ? ?%elem_of_nil | done].
      - split; [apply file_rel_refl | done]. }
    destruct (IH (S i) st3 st' broke) as [H3 [tail Htail]]; try done.
    { rewrite Hh3, Hh2. by apply prefix_app_r. }
    split.
    - eapply file_rel_trans; [|done].
      rewrite Htail, Hh3. by apply file_rel_mono.
    - rewrite Htail, Hh3, Hh2, <- app_assoc. by apply prefix_app_r. }
  assert (∀ h',
    file_rel (history st ++ h') (lang_file st)
      (lang_file (abandon_language en U i key (history st ++ h') st)))
    as Habandon.
  { intros h'. unfold abandon_language. cbn [lang_file].
    destruct (save_batch_cleared en st) as (-> & -> & _).
    set (T1 := lang_file (save_batch en st)).
    set (T2 := update_resw_file T1 _ _ en false).
    assert (file_rel (history st ++ h') (lang_file st) T1) as H01.
    { exact (file_rel_mono _ h' _ _ (save_batch_value_rel _ st Hok)). }
    assert (file_rel (history st ++ h') T1 T2) as H12.
    { apply update_resw_file_value_rel. cbn.
      by intros k t [=]%list_elem_of_singleton. }
    refine (file_rel_trans _ _ T1 _ H01 (file_rel_trans _ _ T2 _ H12 _)).
    apply update_resw_file_value_rel.
    by intros k t [[]%elem_of_nil|[_ [=]]]%batch_items. }
  cbn [translate_loop].
  destruct (translate_text_events translator ev lang default_max_retries
              (history st)) as (added & Hh & _ & _ & _ & Hanswer).
  destruct translator as [tr|] eqn:Htr.
  - destruct (translate_text ev lang (Some tr) default_max_retries
                (history st)) as [[tv|] h'] eqn:Htext;
      cbn [fst snd] in Hh, Hanswer; subst h'.
    + destruct (record_result_shape key ev tv (history st ++ added) st)
        as (s & recorded & Hhist & Htrs & Hrecorded).
      apply (Hcontinue _ (added ++ [Sleep s]));
        [apply record_result_file | by rewrite Hhist, app_assoc |].
      rewrite Hhist, Htrs.
      intros k t [[= -> Heq]|Hin]%elem_of_dict_set.
      * destruct (Hrecorded t) as [-> Hne]; [done|].
        exists ev. split; [done|]. split; [done|].
        apply answered_in_mono. by apply Hanswer.
      * destruct (Hok k t Hin) as (ev' & ? & ? & ?).
        exists ev'. split; [done|]. split; [done|].
        rewrite <- app_assoc. by apply answered_in_mono.
    + intros [= <- <-]. cbn [history].
      split; [apply Habandon | by apply prefix_app_r].
  - apply (Hcontinue _ []); [done | by rewrite app_nil_r |].
    cbn [record_unavailable translations history].
    by intros k t [[=]|Hin]%elem_of_dict_set; [apply Hok].
Qed.
End translate_loop_values.

Lemma lookup_element_app_None tree ext key :
  lookup_element (tree ++ ext) key = None → lookup_element tree key = None.
Proof.
  induction ext as [|e ext IH] using rev_ind.
  { by rewrite app_nil_r. }
  rewrite app_assoc, lookup_element_snoc. by case_decide.
Qed.

(** The entries that a write-back creates are for keys of the
    translations that were resolved to no element. *)
Lemma update_resw_file_new_keys tree trs errs en b :
  ∃ ext,
    elem_name <$> update_resw_file tree trs errs en b
    = (elem_name <$> tree) ++ (Some <$> ext)
    ∧ ∀ k, k ∈ ext → k ∈ dict_keys trs ∧ lookup_element tree k = None.
Proof.
  destruct (fold_process_translation_shape en errs trs
              (tree, tree_data_elements tree)) as (ext & Hnames & Hext & _).
  exists ext. split; [|done]. cbn [fst] in Hnames. rewrite <- Hnames.
  unfold update_resw_file.
  destruct (fold_left _ _ _) as [tree' elements']. cbn.
  unfold completion_sweep. rewrite <- list_fmap_compose.
  apply list_fmap_ext. intros _ e _. apply sweep_elem_name.
Qed.

Section process_language_invariants.
Context (translator : option Translator) (en : dict string).
Context (lang_code : string) (tree : list data_elem) (h : list event).

(** Every named entry with a value has a non-empty comment. *)
Local Abbreviation all_marked T :=
  (∀ (p : nat) (e : data_elem) name text,
     T !! p = Some e → elem_name e = Some name → Py.truthy name = true →
     elem_value e = Some text →
     ∃ marker, elem_comment e = Some marker ∧ marker ≠ "").

Lemma update_resw_file_all_marked T trs errs b :
  all_marked (update_resw_file T trs errs en b).
Proof.
  intros p e name text. rewrite update_resw_file_lookup.
  destruct (_ !! p) as [e0|]; [|done]. cbn. intros [= <-].
  rewrite sweep_elem_name, sweep_elem_value. apply sweep_elem_marker.
Qed.

Lemma process_language_all_marked :
  all_marked (process_language translator en lang_code tree h).1.
Proof.
  assert (all_marked (classify_language en tree).1) as Hclass.
  { intros p e name text He Hname Hn Hvalue.
    rewrite <- (classify_language_swept en tree p e He).
    by eapply sweep_elem_marker. }
  unfold process_language.
  destruct (classify_language en tree) as [T2 U] eqn:Hc. cbn [fst] in Hclass.
  destruct U as [|u U']; [done|]. set (U := u :: U') in *.
  destruct (unsupported_language lang_code).
  - cbn [fst]. intros p e name text. rewrite mark_unsupported_lookup.
    destruct (T2 !! p) as [e0|] eqn:He0; [|done]. cbn. intros [= <-].
    destruct (mark_unsupported_elem_value en U e0) as [-> ->].
    intros Hname Hn Hvalue.
    destruct (mark_unsupported_elem_comment en U e0) as [->|?]; [|done].
    by eapply Hclass.
  - destruct (translate_loop _ _ _ _ _ _ _) as [st broke] eqn:Hloop.
    cbn [fst].
    pose (R := λ T T' : list data_elem, all_marked T → all_marked T').
    assert (R T2 (lang_file st)) as Hrel; [|by apply Hrel].
    refine (translate_loop_rel translator en _ U R (λ _ _, True)
              _ _ _ _ _ U 1 _ st broke _ _ Hloop); try done.
    + by intros T HT.
    + intros T1 T2' T3 H12 H23 H1. exact (H23 (H12 H1)).
    + intros T trs errs _ _. apply update_resw_file_all_marked.
Qed.

Lemma process_language_names :
  ∃ new_keys,
    elem_name <$> (process_language translator en lang_code tree h).1
    = (elem_name <$> tree) ++ (Some <$> new_keys)
    ∧ ∀ k, k ∈ new_keys →
           k ∈ dict_keys (classify_language en tree).2
           ∧ lookup_element tree k = None.
Proof.
  pose proof (classify_language_names en tree) as Hnames.
  assert (∀ k, lookup_element (classify_language en tree).1 k
               = lookup_element tree k) as Hresolves
    by apply classify_language_resolves.
  unfold process_language.
  destruct (classify_language en tree) as [T2 U] eqn:Hc.
  cbn [fst snd] in *.
  destruct U as [|u U'].
  { exists []. rewrite app_nil_r. split; [done | by intros ? ?%elem_of_nil]. }
  set (U := u :: U') in *.
  destruct (unsupported_language lang_code).
  - exists []. rewrite app_nil_r. cbn [fst]. rewrite <- Hnames.
    split; [|by intros ? ?%elem_of_nil].
    unfold mark_unsupported. rewrite <- list_fmap_compose.
    apply list_fmap_ext. intros _ e _. unfold compose.
    by destruct (mark_unsupported_elem_value en U e) as [_ ->].
  - destruct (translate_loop _ _ _ _ _ _ _) as [st broke] eqn:Hloop.
    cbn [fst].
    pose (R := λ T T' : list data_elem, ∃ ext,
                 elem_name <$> T' = (elem_name <$> T) ++ (Some <$> ext)
                 ∧ ∀ k, k ∈ ext →
                        k ∈ dict_keys U ∧ lookup_element T k = None).
    assert (R T2 (lang_file st)) as (ext & Hext & Hnew).
    { refine (translate_loop_rel translator en _ U R (λ k _, k ∈ dict_keys U)
                _ _ _ _ _ U 1 _ st broke _ _ Hloop); try done.
      - intros T. exists []. rewrite app_nil_r.
        split; [done | by intros ? ?%elem_of_nil].
      - unfold R. intros T1 T2' T3 (x1 & Hx1 & H1) (x2 & Hx2 & H2).
        exists (x1 ++ x2).
        split; [by rewrite Hx2, Hx1, fmap_app, app_assoc|].
        intros k [?|Hk]%elem_of_app; [auto|].
        destruct (H2 k Hk) as [HkU Hnone]. split; [done|].
        apply (lookup_element_app_None T1
                 ((λ k, DataElem (Some k) None None) <$> x1)).
        rewrite <- Hnone. apply lookup_element_names.
        rewrite Hx1, fmap_app. f_equal.
        by rewrite <- list_fmap_compose.
      - intros T trs errs Hok.
        destruct (update_resw_file_new_keys T trs errs en false)
          as (ext & Hext & Hnew).
        exists ext. split; [done|]. intros k Hk.
        destruct (Hnew k Hk) as [Hin Hnone]. split; [|done].
        apply list_elem_of_fmap in Hin as ([k' tv] & -> & Hin).
        by eapply Hok.
      - by intros ? ? ?%elem_of_nil. }
    exists ext. rewrite <- Hnames. split; [done|].
    intros k Hk. destruct (Hnew k Hk) as [HkU Hnone].
    by rewrite <- Hresolves.
Qed.

End process_language_invariants.

(** X19.  After the run for a language, every entry of the file that
    has a non-empty name and a value has a non-empty comment. *)
Theorem process_language_marks_every_entry
    (translator : option Translator) (english_entries : dict string)
    (lang_code : string) (tree : list data_elem) (history0 : list event)
    (p : nat) (data : data_elem) (name text : string) :
  (process_language translator english_entries lang_code tree history0).1
    !! p = Some data →
  elem_name data = Some name → Py.truthy name = true →
  elem_value data = Some text →
  ∃ marker, elem_comment data = Some marker ∧ marker ≠ "".
Proof. apply process_language_all_marked. Qed.

Lemma process_language_marks_every_entry_witness :
  ∃ marker,
    elem_comment
      (DataElem (Some "Greeting") (Some "Hello")
         (Some "status:error:Translator not available"))
    = Some marker
    ∧ marker ≠ "".
Proof.
  apply (process_language_marks_every_entry None [("Greeting", "Hello")]
           "fr-FR" [DataElem (Some "Greeting") (Some "Hello") None] [] 0
           (DataElem (Some "Greeting") (Some "Hello")
              (Some "status:error:Translator not available"))
           "Greeting" "Hello");
    reflexivity.
Defined.

(** X20.  The run for a language never removes or reorders entries: the
    names of the file afterwards are the names before followed by new
    keys, each a non-technical English key that was resolved to no
    element. *)
Theorem process_language_only_appends
    (translator : option Translator) (english_entries : dict string)
    (lang_code : string) (tree : list data_elem) (history0 : list event) :
  ∃ new_keys,
    elem_name
      <$> (process_language translator english_entries lang_code tree
             history0).1
    = (elem_name <$> tree) ++ (Some <$> new_keys)
    ∧ ∀ key, key ∈ new_keys →
             key ∈ dict_keys english_entries
             ∧ is_technical key = false
             ∧ lookup_element tree key = None.
Proof.
  destruct (process_language_names translator english_entries lang_code tree
              history0) as (new_keys & Hnames & Hnew).
  exists new_keys. split; [done|]. intros key Hkey.
  destruct (Hnew key Hkey) as [Hin Hnone].
  apply list_elem_of_fmap in Hin as ([k v] & -> & Hin).
  apply classify_language_items in Hin as [Hin Htech].
  split; [|done]. by apply (list_elem_of_fmap_2 fst) in Hin.
Qed.

(** X21.  The run for a language keeps the name of every entry, and it
    changes the value of an entry only when the value was the English
    value of the entry's key, a non-technical English key, and the
    service, in a call of this run that sent the cleaned English value of
    that key to the language of the run, returned a text that differs
    from the English value up to the white space around both. *)
Theorem process_language_changes_values_only_by_translation
    (translator : option Translator) (english_entries : dict string)
    (lang_code : string) (tree : list data_elem) (history0 : list event)
    (p : nat) (data : data_elem) :
  tree !! p = Some data →
  let result :=
    process_language translator english_entries lang_code tree history0 in
  ∃ data',
    result.1 !! p = Some data'
    ∧ elem_name data' = elem_name data
    ∧ (value_text data' = value_text data
       ∨ ∃ key english_value translated,
           elem_name data = Some key
           ∧ (key, english_value) ∈ english_entries
           ∧ is_technical key = false
           ∧ value_text data = dict_get_or key "" english_entries
           ∧ Py.strip translated ≠ Py.strip english_value
           ∧ answered_in translator history0 result.2
               (text_clean english_value) (target_lang_code lang_code)
               translated).
Proof.
  intros Hd result. subst result.
  destruct (classify_language_lookup english_entries tree p data Hd)
    as (e2 & He2 & _ & Hcases).
  assert (elem_name e2 = elem_name data ∧ value_text e2 = value_text data)
    as [Hname2 Hvalue2].
  { unfold value_text.
    destruct Hcases as [->|[-> _]]; cbn;
      by rewrite sweep_elem_name, sweep_elem_value. }
  assert (∀ key ev, (key, ev) ∈ (classify_language english_entries tree).2 →
                    (key, ev) ∈ english_entries ∧ is_technical key = false)
    as Hitems by apply classify_language_items.
  unfold process_language.
  destruct (classify_language english_entries tree) as [T2 U] eqn:Hc.
  cbn [fst snd] in *.
  destruct U as [|u U'].
  { exists e2. split; [done|]. split; [done | by left]. }
  set (U := u :: U') in *.
  destruct (unsupported_language lang_code).
  - cbn [fst]. rewrite mark_unsupported_lookup, He2. cbn.
    eexists. split; [done|]. unfold value_text in *.
    destruct (mark_unsupported_elem_value english_entries U e2) as [-> ->].
    split; [done | by left].
  - destruct (translate_loop _ _ _ _ _ _ _) as [st broke] eqn:Hloop.
    cbn [fst snd].
    destruct (translate_loop_value_rel translator english_entries
                (target_lang_code lang_code) U history0 U 1
                (LoopState T2 [] [] 0 history0) st broke)
      as [Hrel _]; [done | by intros ? ? ?%elem_of_nil | done | done |].
    cbn [lang_file] in Hrel.
    destruct (Hrel p e2 He2) as (e & He & Hname & Hvalue).
    exists e. split; [done|]. rewrite Hname, Hname2. split; [done|].
    destruct Hvalue as [->|(key & t & Hkey & Hen & ev & Hin & Hne & Hans)];
      [by left|].
    right. exists key, ev, t. destruct (Hitems key ev Hin) as [? ?].
    rewrite <- Hname2, <- Hvalue2. repeat (split; [done|]).
    by apply answered_in_mono.
Qed.

Lemma process_language_changes_values_only_by_translation_witness :
  let translator : option Translator := Some (λ _ _ _, Returned "Bonjour") in
  let en := [("Greeting", "Hello")] in
  let tree := [DataElem (Some "Greeting") (Some "Hello") None] in
  let result := process_language translator en "fr-FR" tree [] in
  ∃ data',
    result.1 !! 0 = Some data'
    ∧ elem_name data' = Some "Greeting"
    ∧ (value_text data' = "Hello"
       ∨ ∃ key english_value translated,
           Some "Greeting" = Some key
           ∧ (key, english_value) ∈ en
           ∧ is_technical key = false
           ∧ "Hello" = dict_get_or key "" en
           ∧ Py.strip translated ≠ Py.strip english_value
           ∧ answered_in translator [] result.2 (text_clean english_value)
               (target_lang_code "fr-FR") translated).
Proof.
  intros translator en tree.
  apply (process_language_changes_values_only_by_translation translator en
           "fr-FR" tree [] 0
           (DataElem (Some "Greeting") (Some "Hello") None)).
  reflexivity.
Defined.

Lemma calls_concat segments :
  calls (concat segments) = concat (calls <$> segments).
Proof.
  induction segments as [|x segments IH]; [done|].
  cbn. by rewrite calls_app, IH.
Qed.

(** X22.  The run for a language only adds to the history.  Its calls
    come in consecutive groups, one for each item it processes: the items
    are non-technical English entries with distinct keys, and the group
    of an item holds at most [default_max_retries] calls, each sending
    the cleaned English value of the item to the language code of the
    run.  No call is made without a translator or for an unsupported
    language. *)
Theorem process_language_calls_per_entry
    (translator : option Translator) (english_entries : dict string)
    (lang_code : string) (tree : list data_elem) (history0 : list event) :
  ∃ (added : list event) (processed : dict string)
    (groups : list (list (string * string))),
    (process_language translator english_entries lang_code tree history0).2
    = history0 ++ added
    ∧ calls added = concat groups
    ∧ Forall2
        (λ item group,
           length group ≤ default_max_retries
           ∧ ∀ call, call ∈ group →
                     call = (text_clean item.2, target_lang_code lang_code))
        processed groups
    ∧ NoDup (dict_keys processed)
    ∧ (∀ key english_value,
         (key, english_value) ∈ processed →
         (key, english_value) ∈ english_entries
         ∧ is_technical key = false)
    ∧ (translator = None ∨ unsupported_language lang_code = true →
       calls added = []).
Proof.
  pose proof (classify_language_nodup english_entries tree) as Hnodup.
  assert (∀ key ev, (key, ev) ∈ (classify_language english_entries tree).2 →
                    (key, ev) ∈ english_entries ∧ is_technical key = false)
    as Hitems by apply classify_language_items.
  unfold process_language.
  destruct (classify_language english_entries tree) as [T2 U] eqn:Hc.
  cbn [fst snd] in *.
  assert (∃ (added : list event) (processed : dict string)
            (groups : list (list (string * string))),
    history0 = history0 ++ added
    ∧ calls added = concat groups
    ∧ Forall2
        (λ item group,
           length group ≤ default_max_retries
           ∧ ∀ call, call ∈ group →
                     call = (text_clean item.2, target_lang_code lang_code))
        processed groups
    ∧ NoDup (dict_keys processed)
    ∧ (∀ key english_value,
         (key, english_value) ∈ processed →
         (key, english_value) ∈ english_entries
         ∧ is_technical key = false)
    ∧ (translator = None ∨ unsupported_language lang_code = true →
       calls added = [])) as Hnothing.
  { exists [], [], []. rewrite app_nil_r. split; [done|]. split; [done|].
    split; [constructor|]. split; [apply NoDup_nil_2|].
    split; [by intros ? ? ?%elem_of_nil | done]. }
  destruct U as [|u U']; [done|]. set (U := u :: U') in *.
  destruct (unsupported_language lang_code); [done|].
  destruct (translate_loop _ _ _ _ _ _ _) as [st broke] eqn:Hloop.
  cbn [snd].
  apply translate_loop_segments
    in Hloop as (processed & segments & Hh & [rest Hrest] & Hall & Hnone).
  cbn [history] in Hh.
  exists (concat segments ++ [Sleep 1]), processed, (calls <$> segments).
  split; [by rewrite Hh, app_assoc|].
  rewrite calls_app, calls_concat. cbn [calls]. rewrite app_nil_r.
  split; [done|]. split; [by apply Forall2_fmap_r|].
  split; [|split].
  - rewrite Hrest, dict_keys_app in Hnodup.
    by apply NoDup_app in Hnodup as [? _].
  - intros key ev Hin. apply Hitems. rewrite Hrest. apply elem_of_app.
    by left.
  - intros [Htr|?]; [|done]. rewrite <- calls_concat.
    by rewrite (Hnone Htr).
Qed.

(** ** A file that is fully translated *)

Lemma set_complete_id e :
  elem_comment e = Some status_complete → set_complete e = e.
Proof. destruct e as [n v c]. cbn. by intros ->. Qed.

Lemma sweep_elem_complete_id en b e :
  elem_comment e = Some status_complete → sweep_elem en b e = e.
Proof.
  intros He. rewrite <- (set_complete_id e He). apply sweep_elem_complete.
Qed.

Lemma mark_complete_if_present_id key tde tree :
  (∀ e, e ∈ tree → elem_comment e = Some status_complete) →
  mark_complete_if_present key tde tree = tree.
Proof.
  intros Hall. unfold mark_complete_if_present.
  destruct (dict_get key tde) as [i|]; [|done].
  apply list_eq. intros j. destruct (decide (j = i)) as [->|Hne].
  - rewrite list_lookup_alter_eq.
    destruct (tree !! i) as [e|] eqn:He; [|done]. cbn.
    rewrite set_complete_id; [done|].
    apply Hall. by eapply list_elem_of_lookup_2.
  - by rewrite list_lookup_alter_ne.
Qed.

Lemma classify_entry_complete_file te tde tree key ev :
  (∀ e, e ∈ tree → elem_comment e = Some status_complete) →
  (is_technical key = false →
   ∃ p, dict_get key tde = Some p ∧ p < length tree) →
  classify_entry te tde (tree, []) (key, ev) = (tree, []).
Proof.
  intros Hall Hkey. unfold classify_entry.
  destruct (is_technical key) eqn:Htech.
  { by rewrite mark_complete_if_present_id. }
  rewrite (not_technical_not_app_or_unit key Htech).
  destruct (Hkey eq_refl) as (p & Hp & Hlt).
  apply lookup_lt_is_Some in Hlt as [e He].
  unfold comment_status_of. rewrite Hp, He. cbn [mbind option_bind].
  unfold get_comment_status.
  rewrite (Hall e) by by eapply list_elem_of_lookup_2.
  done.
Qed.

(** X23.  A file in which every entry is marked [status:complete] and
    that has an entry for every non-technical English key is a fixed
    point of the run, which then leaves the history as it is. *)
Theorem process_language_complete_file_is_fixed_point
    (translator : option Translator) (english_entries : dict string)
    (lang_code : string) (tree : list data_elem) (history0 : list event) :
  (∀ data, data ∈ tree → elem_comment data = Some status_complete) →
  (∀ key, key ∈ dict_keys english_entries → is_technical key = false →
          is_Some (lookup_element tree key)) →
  process_language translator english_entries lang_code tree history0
  = (tree, history0).
Proof.
  intros Hall Hkeys.
  assert (completion_sweep english_entries false tree = tree) as Hsweep.
  { unfold completion_sweep. rewrite <- (list_fmap_id tree) at 2.
    apply list_fmap_ext. intros _ e He%list_elem_of_lookup_2.
    by apply sweep_elem_complete_id, Hall. }
  assert (classify_language english_entries tree = (tree, [])) as Hclass.
  { rewrite classify_language_unfold, Hsweep.
    assert (∀ en, dict_keys en ⊆ dict_keys english_entries →
      fold_left (classify_entry (parse_entries tree)
                   (tree_data_elements tree)) en (tree, [])
      = (tree, [])) as Hfold.
    { induction en as [|[key ev] en IH]; intros Hsub; [done|].
      cbn [fold_left]. rewrite classify_entry_complete_file; [|done|].
      - apply IH. intros k Hk. apply Hsub. by right.
      - intros Htech. destruct (Hkeys key) as [p Hp]; [|done|].
        + apply Hsub. by left.
        + exists p. split; [done|]. by eapply lookup_element_lt. }
    by apply Hfold. }
  unfold process_language. by rewrite Hclass.
Qed.

Lemma process_language_complete_file_is_fixed_point_witness :
  process_language None [("Greeting", "Hello")] "fr-FR"
    [DataElem (Some "Greeting") (Some "Bonjour") (Some "status:complete")] []
  = ([DataElem (Some "Greeting") (Some "Bonjour") (Some "status:complete")],
     []).
Proof.
  apply (process_language_complete_file_is_fixed_point None
           [("Greeting", "Hello")] "fr-FR"
           [DataElem (Some "Greeting") (Some "Bonjour")
              (Some "status:complete")] []).
  - intros data ->%list_elem_of_singleton. reflexivity.
  - intros key ->%list_elem_of_singleton _. vm_compute. by eexists.
Defined.

(** ** The languages that are skipped *)

Lemma LANG_CODE_MAP_english code v :
  dict_get code LANG_CODE_MAP = Some v → (v = "en" ↔ code = "fj-FJ").
Proof.
  unfold LANG_CODE_MAP. cbn [dict_get].
  repeat match goal with
         | |- context [?s =s= code] =>
             destruct (String.eqb_spec s code) as [<-|?];
               [intros [= <-]; by split|]
         end.
  done.
Qed.

(** X24.  The languages that a run skips as unsupported are [fj-FJ], the
    only code that the table maps to English, and the codes outside the
    table, other than [en-US], whose part before the first hyphen is
    [en]. *)
Theorem unsupported_language_cases (lang_code : string) :
  unsupported_language lang_code = true
  ↔ lang_code = "fj-FJ"
    ∨ (dict_get lang_code LANG_CODE_MAP = None
       ∧ Py.split_head "-"%char lang_code = "en"
       ∧ lang_code ≠ "en-US").
Proof.
  unfold unsupported_language, target_lang_code, dict_get_or.
  destruct (dict_get lang_code LANG_CODE_MAP) as [v|] eqn:Hmap.
  - apply LANG_CODE_MAP_english in Hmap. cbn [default]. split.
    + intros [Hv _]%andb_true_iff. left. by apply Hmap, String.eqb_eq.
    + intros [->|[? _]]; [|done].
      assert (v = "en") as -> by by apply Hmap. done.
  - cbn [default]. rewrite andb_true_iff, negb_true_iff.
    rewrite String.eqb_eq, String.eqb_neq. split.
    + intros [? ?]. by right.
    + intros [->|(_ & ? & ?)]; [done | by split].
Qed.
